(** * scrcpy-vscode: device streaming and control protocol engine

    A shallow embedding of the pure and stateful cores of the extension:

    - [CodecUtils], [CodecStrings]     src/webview/CodecUtils.ts
        (Annex-B scanning, SPS geometry, codec strings)
    - [IOSConnection], [IOSMessages]   src/ios/iOSConnection.ts
        (length-prefixed framing, message handlers)
    - [IOSDeviceManager]               src/ios/iOSDeviceManager.ts
        (the device-list scan)
    - [WDAClient], [WDAClientRuns]     src/ios/WDAClient.ts
        (HTTP control session, runs of calls, disconnect)
    - [InputHandler], [PointerInput]   src/webview/InputHandler.ts
        (wheel and touch listeners, pinch gestures, pointer listeners)
    - [ScrollWheel]                    src/webview/InputHandler.ts
        (scroll batching, with the buffers in double precision)
    - [AppStateManager]                src/AppStateManager.ts
        (state store, batched notifications)

    Conventions.  A [Uint8Array] / [Buffer] is a [list byte].  A JavaScript
    [number] that only ever holds an index, a length or an integer field is a
    [nat] or a [Z]; a [number] holding a coordinate or a wheel delta is an
    exact rational [Q] (rounding of IEEE doubles, NaN and the infinities are
    outside the model), except in [ScrollWheel], where the value of a sum of
    quotients is at stake and every [number] is a binary64 [float].  A
    function that may throw returns a [Completion]. *)

From Stdlib Require Import ZArith NArith List Bool Lia String QArith Qabs Qround Qminmax.
From Stdlib Require Import Strings.Byte Ascii DecimalString.
From Stdlib Require HexadecimalString.
From Stdlib Require Import Lqa.
From Stdlib Require Import Floats.
From Equations Require Import Equations.
Import ListNotations.
Close Scope Q_scope.
Open Scope nat_scope.


(** ** JavaScript completions: normal return or a thrown exception *)

Inductive Completion (A : Type) : Type :=
| Normal (a : A)
| Throw (message : string).
Arguments Normal {A} a.
Arguments Throw {A} message.

(** [try { body } catch (error) { handler }] *)
Definition try_catch {A} (body : Completion A) (handler : string -> Completion A)
  : Completion A :=
  match body with
  | Normal a => Normal a
  | Throw e => handler e
  end.

Definition cbind {A B} (c : Completion A) (k : A -> Completion B) : Completion B :=
  match c with
  | Normal a => k a
  | Throw e => Throw e
  end.

(** ** Typed arrays *)

Definition Uint8Array := list byte.

Definition byte_val (b : byte) : Z := Z.of_N (Byte.to_N b).

(** [a[i]]: the element, or [undefined] past the end. *)
Definition at_ (a : Uint8Array) (i : nat) : option byte := nth_error a i.

(** [a[i] === v] for a number literal [v]; [undefined === v] is false. *)
Definition eqq (o : option byte) (v : Z) : bool :=
  match o with
  | Some b => (byte_val b =? v)%Z
  | None => false
  end.

(** Operand of a bit operation: [undefined] converts to 0. *)
Definition to_int32 (o : option byte) : Z :=
  match o with
  | Some b => byte_val b
  | None => 0%Z
  end.

(** [a.subarray(begin)] *)
Definition subarray_from (a : Uint8Array) (begin : nat) : Uint8Array := skipn begin a.

(** [for (let i = lo; i < lo + n; i++) { ... return r ... }]: the body either
    returns from the enclosing function ([Some r]) or falls through to the next
    iteration ([None]). *)
Fixpoint for_range {A} (body : nat -> option A) (i : nat) (n : nat) : option A :=
  match n with
  | O => None
  | S n' =>
      match body i with
      | Some r => Some r
      | None => for_range body (S i) n'
      end
  end.

(** * CodecUtils.ts *)

Module CodecUtils.
Local Open Scope Z_scope.

(** [enum H264NALUnitType] and [enum H265NALUnitType] *)
Module H264NALUnitType.
Definition IDR : Z := 5.
Definition SPS : Z := 7.
Definition PPS : Z := 8.
End H264NALUnitType.

Module H265NALUnitType.
Definition VPS : Z := 32.
Definition SPS : Z := 33.
Definition PPS : Z := 34.
Definition IDR_W_RADL : Z := 19.
Definition IDR_N_LP : Z := 20.
End H265NALUnitType.

(** [type VideoCodec = 'h264' | 'h265' | 'av1'] *)
Inductive VideoCodec : Type := h264 | h265 | av1.

(** The start-code test shared by [findH264SPS] and [findH265ConfigNAL]:
    [offset] stays 0 unless a 3-byte or a 4-byte start code begins at [i]. *)
Definition start_code_offset (config : Uint8Array) (i : nat) : nat :=
  if eqq (at_ config i) 0 && eqq (at_ config (i + 1)) 0 && eqq (at_ config (i + 2)) 1
  then 3%nat
  else if eqq (at_ config i) 0 && eqq (at_ config (i + 1)) 0 &&
          eqq (at_ config (i + 2)) 0 && eqq (at_ config (i + 3)) 1
  then 4%nat
  else 0%nat.

(** The shape shared by the four loop bodies: a start code at [i] and a test
    [p] on the byte that follows it (used to state facts about the loops). *)
Definition header_test (p : Z -> bool) (d : Uint8Array) (i : nat) : bool :=
  let offset := start_code_offset d i in
  (0 <? offset)%nat && p (to_int32 (at_ d (i + offset))).

(** The header tests of the four loops, as functions of the header byte. *)
Definition sps_test (v : Z) : bool := Z.land v 0x1f =? H264NALUnitType.SPS.
Definition idr_test (v : Z) : bool := Z.land v 0x1f =? H264NALUnitType.IDR.
Definition h265_config_test (v : Z) : bool :=
  let nalType := Z.land (Z.shiftr v 1) 0x3f in
  (nalType =? H265NALUnitType.VPS) || (nalType =? H265NALUnitType.SPS) ||
  (nalType =? H265NALUnitType.PPS).
Definition h265_idr_test (v : Z) : bool :=
  let nalType := Z.land (Z.shiftr v 1) 0x3f in
  (nalType =? H265NALUnitType.IDR_W_RADL) || (nalType =? H265NALUnitType.IDR_N_LP).

(** [private static findH264SPS(config)] *)
Definition findH264SPS_body (config : Uint8Array) (i : nat) : option Uint8Array :=
  let offset := start_code_offset config i in
  if (0 <? offset)%nat then
    let nalType := Z.land (to_int32 (at_ config (i + offset))) 0x1f in
    if nalType =? H264NALUnitType.SPS
    then Some (subarray_from config (i + offset))
    else None
  else None.

Definition findH264SPS (config : Uint8Array) : option Uint8Array :=
  for_range (findH264SPS_body config) 0 (List.length config - 4).

(** [private static findH265ConfigNAL(config)] *)
Definition findH265ConfigNAL_body (config : Uint8Array) (i : nat) : option bool :=
  let offset := start_code_offset config i in
  if (0 <? offset)%nat then
    let nalType := Z.land (Z.shiftr (to_int32 (at_ config (i + offset))) 1) 0x3f in
    if (nalType =? H265NALUnitType.VPS) || (nalType =? H265NALUnitType.SPS) ||
       (nalType =? H265NALUnitType.PPS)
    then Some true
    else None
  else None.

Definition findH265ConfigNAL (config : Uint8Array) : bool :=
  match for_range (findH265ConfigNAL_body config) 0 (List.length config - 4) with
  | Some r => r
  | None => false
  end.

(** [static detectCodec(config)] *)
Definition detectCodec (config : Uint8Array) : option VideoCodec :=
  if (match findH264SPS config with Some _ => true | None => false end) then Some h264
  else if findH265ConfigNAL config then Some h265
  else None.

(** The start-code test of [containsH264IDR] and [containsH265IDR]. *)
Definition is_start_code (data : Uint8Array) (i : nat) : bool :=
  (eqq (at_ data i) 0 && eqq (at_ data (i + 1)) 0 && eqq (at_ data (i + 2)) 1) ||
  (eqq (at_ data i) 0 && eqq (at_ data (i + 1)) 0 &&
   eqq (at_ data (i + 2)) 0 && eqq (at_ data (i + 3)) 1).

(** [private static containsH264IDR(data)] *)
Definition containsH264IDR_body (data : Uint8Array) (i : nat) : option bool :=
  if is_start_code data i then
    let offset := if eqq (at_ data (i + 2)) 1 then 3%nat else 4%nat in
    let nalType := Z.land (to_int32 (at_ data (i + offset))) 0x1f in
    if nalType =? H264NALUnitType.IDR then Some true else None
  else None.

Definition containsH264IDR (data : Uint8Array) : bool :=
  match for_range (containsH264IDR_body data) 0 (List.length data - 4) with
  | Some r => r
  | None => false
  end.

(** [private static containsH265IDR(data)] *)
Definition containsH265IDR_body (data : Uint8Array) (i : nat) : option bool :=
  if is_start_code data i then
    let offset := if eqq (at_ data (i + 2)) 1 then 3%nat else 4%nat in
    let nalType := Z.land (Z.shiftr (to_int32 (at_ data (i + offset))) 1) 0x3f in
    if (nalType =? H265NALUnitType.IDR_W_RADL) || (nalType =? H265NALUnitType.IDR_N_LP)
    then Some true
    else None
  else None.

Definition containsH265IDR (data : Uint8Array) : bool :=
  match for_range (containsH265IDR_body data) 0 (List.length data - 4) with
  | Some r => r
  | None => false
  end.

(** [static containsKeyFrame(data, codec)] *)
Definition containsKeyFrame (data : Uint8Array) (codec : VideoCodec) : bool :=
  match codec with
  | h264 => containsH264IDR data
  | h265 => containsH265IDR data
  | av1 => false
  end.

(** *** SPS geometry *)

(** The object returned by the [h264-sps-parser] package, restricted to the
    properties [parseH264SPSDimensions] reads.  [frame_cropping] is [None] when
    the property is absent, in which case [crop.left] throws a TypeError. *)
Record Crop : Type := { left : Z; right : Z; top : Z; bottom : Z }.

Record SPS : Type := {
  frame_mbs_only_flag : Z;
  pic_width_in_mbs : Z;
  pic_height_in_map_units : Z;
  frame_cropping_flag : Z;
  frame_cropping : option Crop;
  chroma_format_idc : Z;
}.

Record Dimensions : Type := { width : Z; height : Z }.

Section WithParser.

(** [import { parse as parseSPS } from 'h264-sps-parser']: a dependency of
    the repository, taken as a parameter: it returns an SPS object or throws. *)
Variable parseSPS : Uint8Array -> Completion SPS.

(** The body of the [try] block, after [parseSPS] has returned. *)
Definition dimensions_of_sps (sps : SPS) : Completion Dimensions :=
  let frameMbsOnly := frame_mbs_only_flag sps in
  let width := pic_width_in_mbs sps * 16 in
  let height := pic_height_in_map_units sps * 16 * (2 - frameMbsOnly) in
  cbind
    (if negb (frame_cropping_flag sps =? 0) then
       match frame_cropping sps with
       | None => Throw "TypeError: Cannot read properties of undefined"
       | Some crop =>
           let '(subWidthC, subHeightC) :=
             if chroma_format_idc sps =? 2 then (2, 1)
             else if chroma_format_idc sps =? 3 then (1, 1)
             else (2, 2) in
           let cropUnitX := subWidthC in
           let cropUnitY := subHeightC * (2 - frameMbsOnly) in
           Normal ((left crop + right crop) * cropUnitX,
                   (top crop + bottom crop) * cropUnitY)
       end
     else Normal (0, 0))
    (fun '(cropX, cropY) =>
       Normal {| width := width - cropX; height := height - cropY |}).

(** [static parseH264SPSDimensions(config)] *)
Definition parseH264SPSDimensions (config : Uint8Array) : Completion (option Dimensions) :=
  match findH264SPS config with
  | None => Normal None
  | Some spsData =>
      try_catch
        (cbind (parseSPS spsData) (fun sps =>
         cbind (dimensions_of_sps sps) (fun d => Normal (Some d))))
        (fun error => Normal None)
  end.

(** [static parseConfigDimensions(config, codec?)] *)
Definition parseConfigDimensions (config : Uint8Array) (codec : option VideoCodec)
  : Completion (option Dimensions) :=
  let detectedCodec := match codec with Some c => Some c | None => detectCodec config end in
  match detectedCodec with
  | Some h264 => parseH264SPSDimensions config
  | Some h265 => Normal None
  | Some av1 => Normal None
  | None => Normal None
  end.

End WithParser.

(** Fixtures of test/fixtures/h264-samples.ts *)
(** A parsed SPS for a 1920x1080 stream coded as 120 x 68 macroblocks with
    four crop units removed at the bottom. *)
Definition sps_1920x1080 : SPS :=
  {| frame_mbs_only_flag := 1;
     pic_width_in_mbs := 120;
     pic_height_in_map_units := 68;
     frame_cropping_flag := 1;
     frame_cropping := Some {| left := 0; right := 0; top := 0; bottom := 4 |};
     chroma_format_idc := 1 |}.

Definition INVALID_DATA_truncated : Uint8Array := [x00; x00; x00; x01; x67].
Definition INVALID_DATA_noStartCode : Uint8Array := [x01; x02; x03; x04; x05].
Definition H264_SPS_1920x1080 : Uint8Array :=
  [x00; x00; x00; x01; x67; x64; x00; x28;
   xac; xd9; x40; x78; x02; x27; xe5; xc0; x44; x00; x00; x03; x00; x04; x00; x00;
   x03; x00; xf0; x3c; x60; xc6; x58].

End CodecUtils.

(** *** Vocabulary of the Annex-B properties

    These predicates follow the wording of the specification, not the code:
    a start code is the byte string 00 00 01 or 00 00 00 01, and a NAL header
    is the byte that immediately follows one. *)

Module AnnexB.
Local Open Scope Z_scope.

Definition start_code3_at (d : Uint8Array) (i : nat) : Prop :=
  nth_error d i = Some x00 /\ nth_error d (i + 1) = Some x00 /\
  nth_error d (i + 2) = Some x01.

Definition start_code4_at (d : Uint8Array) (i : nat) : Prop :=
  nth_error d i = Some x00 /\ nth_error d (i + 1) = Some x00 /\
  nth_error d (i + 2) = Some x00 /\ nth_error d (i + 3) = Some x01.

Definition start_code_at (d : Uint8Array) (i : nat) : Prop :=
  start_code3_at d i \/ start_code4_at d i.

(** A start code begins at index [i] and is followed by the byte [b]. *)
Definition nal_header_at (d : Uint8Array) (i : nat) (b : byte) : Prop :=
  (start_code3_at d i /\ nth_error d (i + 3) = Some b) \/
  (start_code4_at d i /\ nth_error d (i + 4) = Some b).

(** Low 5 bits of the header byte. *)
Definition h264_nal_type (b : byte) : Z := Z.land (byte_val b) 31.

(** Bits 1-6 of the header byte. *)
Definition h265_nal_type (b : byte) : Z := Z.land (Z.shiftr (byte_val b) 1) 63.

(** Some start code anywhere in the buffer is followed by a header satisfying [p]. *)
Definition contains_nal (d : Uint8Array) (p : byte -> Prop) : Prop :=
  exists (i : nat) b, nal_header_at d i b /\ p b.

(** The same, for a start code that begins at least five bytes before the end
    of the buffer: index [i] with [i + 4 < length d]. *)
Definition contains_nal_in_window (d : Uint8Array) (p : byte -> Prop) : Prop :=
  exists (i : nat) b, (i + 4 < List.length d)%nat /\ nal_header_at d i b /\ p b.

Definition is_h264_sps (b : byte) : Prop := h264_nal_type b = 7.
Definition is_h264_idr (b : byte) : Prop := h264_nal_type b = 5.
Definition is_h265_config (b : byte) : Prop :=
  h265_nal_type b = 32 \/ h265_nal_type b = 33 \/ h265_nal_type b = 34.
Definition is_h265_idr (b : byte) : Prop :=
  h265_nal_type b = 19 \/ h265_nal_type b = 20.

(** Crop-unit scale factors by chroma format: (2,2) for 4:2:0 and by default,
    (2,1) for 4:2:2, (1,1) for 4:4:4. *)
Definition SubWidthC (chroma_format_idc : Z) : Z :=
  if chroma_format_idc =? 3 then 1 else 2.

Definition SubHeightC (chroma_format_idc : Z) : Z :=
  if chroma_format_idc =? 2 then 1 else if chroma_format_idc =? 3 then 1 else 2.

(** Width and height from the SPS fields, with cropping offsets [crop]. *)
Definition spec_dimensions (sps : CodecUtils.SPS) (crop : CodecUtils.Crop)
  : CodecUtils.Dimensions :=
  let fmo := CodecUtils.frame_mbs_only_flag sps in
  let idc := CodecUtils.chroma_format_idc sps in
  if CodecUtils.frame_cropping_flag sps =? 0 then
    {| CodecUtils.width := CodecUtils.pic_width_in_mbs sps * 16;
       CodecUtils.height := CodecUtils.pic_height_in_map_units sps * 16 * (2 - fmo) |}
  else
    {| CodecUtils.width :=
         CodecUtils.pic_width_in_mbs sps * 16
         - (CodecUtils.left crop + CodecUtils.right crop) * SubWidthC idc;
       CodecUtils.height :=
         CodecUtils.pic_height_in_map_units sps * 16 * (2 - fmo)
         - (CodecUtils.top crop + CodecUtils.bottom crop) * SubHeightC idc * (2 - fmo) |}.

(** At the least, an SPS unit has its header byte followed by the three
    fixed bytes [profile_idc], the constraint flags and [level_idc]
    (H.264, 7.3.2.1.1): a start code, a type-7 header and three more bytes. *)
Definition holds_sps_fixed_fields (d : Uint8Array) : Prop :=
  exists (i : nat) b,
    is_h264_sps b /\
    ((start_code3_at d i /\ nth_error d (i + 3) = Some b /\
      (i + 3 + 3 < List.length d)%nat) \/
     (start_code4_at d i /\ nth_error d (i + 4) = Some b /\
      (i + 4 + 3 < List.length d)%nat)).

(** A parser that rejects nothing: it returns an object whatever bytes it is
    given (here with every field 0), as a bit reader does that reads past the
    end of a unit cut short instead of throwing. *)
Definition accepting_parser (_ : Uint8Array) : Completion CodecUtils.SPS :=
  Normal {| CodecUtils.frame_mbs_only_flag := 0;
            CodecUtils.pic_width_in_mbs := 0;
            CodecUtils.pic_height_in_map_units := 0;
            CodecUtils.frame_cropping_flag := 0;
            CodecUtils.frame_cropping := None;
            CodecUtils.chroma_format_idc := 0 |}.

End AnnexB.

(** * iOSConnection.ts: framing of the helper's stdout *)

Module IOSConnection.
Local Open Scope Z_scope.

Definition Buffer := list byte.

(** [enum MessageType] *)
Module MessageType.
Definition DEVICE_LIST : Z := 0x01.
Definition DEVICE_INFO : Z := 0x02.
Definition VIDEO_CONFIG : Z := 0x03.
Definition VIDEO_FRAME : Z := 0x04.
Definition ERROR : Z := 0x05.
Definition STATUS : Z := 0x06.
End MessageType.

(** One call [this.processMessage(type, payload)]. *)
Record Message : Type := { type : Z; payload : Buffer }.

(** [buf.readUInt32BE(offset)] on the four bytes found at [offset]. *)
Definition readUInt32BE (b0 b1 b2 b3 : byte) : Z :=
  byte_val b0 * 2 ^ 24 + byte_val b1 * 2 ^ 16 + byte_val b2 * 2 ^ 8 + byte_val b3.

(** [buf.subarray(start, end)] and [buf.subarray(start)], indices in range. *)
Definition subarray (b : Buffer) (start stop : nat) : Buffer :=
  firstn (stop - start) (skipn start b).

(** The [while (this.messageBuffer.length >= 5)] loop of [handleHelperData]:
    returns the [processMessage] calls made, in order, and the buffer left.
    The loop test is the five-element pattern; both header reads are then in
    range.  Every iteration that does not [break] drops at least five bytes. *)
Equations? processBuffer (messageBuffer : Buffer) : list Message * Buffer
  by wf (List.length messageBuffer) lt :=
processBuffer (t :: b0 :: b1 :: b2 :: b3 :: rest)
  with (Z.of_nat (List.length (t :: b0 :: b1 :: b2 :: b3 :: rest))
          <? 5 + readUInt32BE b0 b1 b2 b3) => {
  | true => ([], t :: b0 :: b1 :: b2 :: b3 :: rest);
  | false =>
      let buf := t :: b0 :: b1 :: b2 :: b3 :: rest in
      let length := Z.to_nat (readUInt32BE b0 b1 b2 b3) in
      let payload := subarray buf 5 (5 + length) in
      let '(calls, remaining) := processBuffer (skipn (5 + length) buf) in
      ({| type := byte_val t; payload := payload |} :: calls, remaining) };
processBuffer messageBuffer := ([], messageBuffer).
Proof.
  clear processBuffer. rewrite length_skipn. simpl. lia.
Qed.

(** [private handleHelperData(chunk)]: the new [messageBuffer] and the
    messages handed to [processMessage]. *)
Definition handleHelperData (messageBuffer chunk : Buffer) : list Message * Buffer :=
  processBuffer (messageBuffer ++ chunk).

(** The stdout ['data'] listener run on successive chunks, starting from
    [messageBuffer]. *)
Fixpoint feed (messageBuffer : Buffer) (chunks : list Buffer) : list Message * Buffer :=
  match chunks with
  | [] => ([], messageBuffer)
  | chunk :: more =>
      let '(calls, buf) := handleHelperData messageBuffer chunk in
      let '(calls', buf') := feed buf more in
      (calls ++ calls', buf')
  end.

(** [Buffer.alloc(0)] *)
Definition empty_buffer : Buffer := [].

(** The writer, native/ios-helper/mock-helper.js [writeMessage(type, payload)]:
    [header.writeUInt8(type, 0); header.writeUInt32BE(payload.length, 1)]. *)
Definition byte_of_Z (z : Z) : byte :=
  match Byte.of_N (Z.to_N (z mod 256)) with
  | Some b => b
  | None => x00
  end.

Definition writeUInt32BE (value : Z) : Buffer :=
  [byte_of_Z (value / 2 ^ 24); byte_of_Z (value / 2 ^ 16);
   byte_of_Z (value / 2 ^ 8); byte_of_Z value].

Definition writeMessage (type : byte) (payload : Buffer) : Buffer :=
  type :: writeUInt32BE (Z.of_nat (List.length payload)) ++ payload.

(** A valid framed message: its payload length fits the 4-byte prefix. *)
Definition valid_frame (m : byte * Buffer) : Prop :=
  Z.of_nat (List.length (snd m)) < 2 ^ 32.

Definition stream (frames : list (byte * Buffer)) : Buffer :=
  List.concat (map (fun m => writeMessage (fst m) (snd m)) frames).

Definition delivered (frames : list (byte * Buffer)) : list Message :=
  map (fun m => {| type := byte_val (fst m); payload := snd m |}) frames.

End IOSConnection.

(** * JavaScript numbers held as exact rationals *)

(** [a < b] and [a > b] *)
Definition Qltb (a b : Q) : bool := negb (Qle_bool b a).
Definition Qgtb (a b : Q) : bool := Qltb b a.
(** [a >= b] *)
Definition Qgeb (a b : Q) : bool := Qle_bool b a.

(** [Math.round(x)]: the nearest integer, halves rounded up. *)
Definition Math_round (x : Q) : Z := Qfloor (x + (1 # 2))%Q.

(** [Math.pow(x, 2)] *)
Definition Math_pow2 (x : Q) : Q := Qpower x 2.

(** * WDAClient.ts: the HTTP control session

    Calls are awaited one after the other.  The request timeout and the abort
    controller are folded into [fetch] rejecting; [checkStatus],
    [getWindowSize] and [disconnect] are not needed below and are left out. *)

Module WDAClient.
Local Open Scope string_scope.

Inductive Method : Type := GET | POST | DELETE.

(** A JavaScript string is a sequence of UTF-16 code units.  Paths, session
    ids and button names are ASCII and are kept as [string]s; the text handed
    to [typeText] comes from the user and may hold any character: one code
    unit for a character of the basic plane, two (a surrogate pair) for any
    other. *)
Definition CodeUnit : Type := N.
Definition JSString : Type := list CodeUnit.

(** An ASCII literal as a JavaScript string. *)
Definition code_units (s : string) : JSString :=
  map N_of_ascii (list_ascii_of_string s).

(** One entry of a W3C pointer action chain. *)
Inductive PointerAction : Type :=
| pointerMove (duration x y : Z)
| pointerDown (button : Z)
| pause (duration : Z)
| pointerUp (button : Z).

(** The request bodies the client builds, before [JSON.stringify]. *)
Inductive Body : Type :=
| SessionBody
| ActionsBody (id pointerType : string) (actions : list PointerAction)
| ScrollBody (direction : string) (distance : Q)
| KeysBody (value : list JSString)
| ButtonBody (name : string).

Record Request : Type := { method : Method; path : string; body : option Body }.

(** The parsed response body, restricted to what the client reads from it:
    [data.value?.sessionId] and [data.sessionId]. *)
Record Json : Type := { value_sessionId : option string; top_sessionId : option string }.

(** [text] is [None] when [response.text()] rejects, [json] is [None] when
    [response.json()] rejects. *)
Record Response : Type := {
  ok : bool;
  status : Z;
  text : option string;
  json : option Json;
}.

(** [await fetch(url, options)] either rejects or yields a response. *)
Inductive FetchResult : Type :=
| Rejected (reason : string)
| Responded (response : Response).

Inductive TouchAction : Type := down | move | up.
Inductive Button : Type := home | volumeUp | volumeDown.

(** The fields of the class. *)
Record Client : Type := {
  sessionId : option string;
  touchActive : bool;
  touchStartX : Q;
  touchStartY : Q;
}.

(** A string or [null] in a condition: [null] and the empty string are falsy. *)
Definition truthy (o : option string) : bool :=
  match o with
  | Some s => negb (String.eqb s "")
  | None => false
  end.

(** [a || b] on such values. *)
Definition or_else (a b : option string) : option string :=
  if truthy a then a else b.

Definition number_to_string (n : Z) : string := NilZero.string_of_int (Z.to_int n).

(** [text.split('')]: one string for each code unit. *)
Definition split_chars (text : JSString) : list JSString :=
  map (fun unit => [unit]) text.

Definition button_name (b : Button) : string :=
  match b with
  | home => "home"
  | volumeUp => "volumeUp"
  | volumeDown => "volumeDown"
  end.

Section WithServer.

(** The WebDriverAgent endpoint: any state machine answering requests. *)
Variable Server : Type.
Variable fetch : Server -> Request -> Server * FetchResult.

(** [Math.sqrt], which has no rational counterpart. *)
Variable Math_sqrt : Q -> Q.

(** The client, the endpoint, and every request sent so far (oldest first). *)
Record World : Type := {
  client : Client;
  server : Server;
  sent : list Request;
}.

(** An [async] method awaited to completion: it updates the world and either
    returns or throws. *)
Definition M (A : Type) : Type := World -> World * Completion A.

Definition ret {A} (a : A) : M A := fun w => (w, Normal a).
Definition throw {A} (message : string) : M A := fun w => (w, Throw message).
Definition bind {A B} (m : M A) (k : A -> M B) : M B :=
  fun w =>
    match m w with
    | (w', Normal a) => k a w'
    | (w', Throw e) => (w', Throw e)
    end.
Definition get_client : M Client := fun w => (w, Normal (client w)).
Definition set_client (c : Client) : M unit :=
  fun w => ({| client := c; server := server w; sent := sent w |}, Normal tt).

Notation "x <- m ;; k" := (bind m (fun x => k))
  (at level 61, m at next level, right associativity).
Notation "m ;;; k" := (bind m (fun _ => k))
  (at level 61, right associativity).

(** [private async request<T>(method, path, body?)] *)
Definition request (method : Method) (path : string) (body : option Body) : M Json :=
  fun w =>
    let req := {| method := method; path := path; body := body |} in
    let '(server', result) := fetch (server w) req in
    let w' := {| client := client w; server := server'; sent := sent w ++ [req] |} in
    match result with
    | Rejected reason => (w', Throw reason)
    | Responded response =>
        if negb (ok response) then
          let errorText :=
            match text response with Some t => t | None => "Unknown error" end in
          (w', Throw ("WDA request failed: " ++ number_to_string (status response)
                        ++ " " ++ errorText))
        else
          match json response with
          | Some data => (w', Normal data)
          | None => (w', Throw "SyntaxError: invalid JSON")
          end
    end.

(** [async createSession()], returning the session id. *)
Definition createSession : M string :=
  response <- request POST "/session" (Some SessionBody) ;;
  match or_else (value_sessionId response) (top_sessionId response) with
  | Some sessionId =>
      if truthy (Some sessionId) then
        c <- get_client ;;
        set_client {| sessionId := Some sessionId; touchActive := touchActive c;
                      touchStartX := touchStartX c; touchStartY := touchStartY c |} ;;;
        ret sessionId
      else throw "No session ID in WDA response"
  | None => throw "No session ID in WDA response"
  end.

(** [async deleteSession()] *)
Definition deleteSession : M unit :=
  c <- get_client ;;
  match sessionId c with
  | Some id =>
      if truthy (Some id) then
        fun w =>
          (* try { await request } catch { } finally { this.sessionId = null } *)
          let '(w', _) := request DELETE ("/session/" ++ id) None w in
          set_client {| sessionId := None; touchActive := touchActive (client w');
                        touchStartX := touchStartX (client w');
                        touchStartY := touchStartY (client w') |} w'
      else ret tt
  | None => ret tt
  end.

(** [async ensureSession()] *)
Definition ensureSession : M string :=
  c <- get_client ;;
  match sessionId c with
  | Some id => if truthy (Some id) then ret id else createSession
  | None => createSession
  end.

Definition tap_actions (x y : Q) : list PointerAction :=
  [ pointerMove 0 (Math_round x) (Math_round y);
    pointerDown 0;
    pause 50;
    pointerUp 0 ].

Definition swipe_actions (startX startY endX endY : Q) (durationMs : Z)
  : list PointerAction :=
  [ pointerMove 0 (Math_round startX) (Math_round startY);
    pointerDown 0;
    pointerMove durationMs (Math_round endX) (Math_round endY);
    pointerUp 0 ].

(** [private async performTap(sessionId, x, y)] *)
Definition performTap (sessionId : string) (x y : Q) : M unit :=
  request POST ("/session/" ++ sessionId ++ "/actions")
          (Some (ActionsBody "finger1" "touch" (tap_actions x y))) ;;;
  ret tt.

(** [private async performSwipe(sessionId, startX, startY, endX, endY,
    durationMs = 200)] *)
Definition performSwipe (sessionId : string) (startX startY endX endY : Q)
    (durationMs : Z) : M unit :=
  request POST ("/session/" ++ sessionId ++ "/actions")
          (Some (ActionsBody "finger1" "touch"
                   (swipe_actions startX startY endX endY durationMs))) ;;;
  ret tt.

(** The distance computed on ['up']. *)
Definition distance (c : Client) (x y : Q) : Q :=
  Math_sqrt (Math_pow2 (x - touchStartX c) + Math_pow2 (y - touchStartY c))%Q.

(** [async touch(action, x, y)] *)
Definition touch (action : TouchAction) (x y : Q) : M unit :=
  sessionId' <- ensureSession ;;
  c <- get_client ;;
  match action with
  | down =>
      set_client {| sessionId := sessionId c; touchActive := true;
                    touchStartX := x; touchStartY := y |}
  | move =>
      if touchActive c then ret tt else ret tt
  | up =>
      if touchActive c then
        set_client {| sessionId := sessionId c; touchActive := false;
                      touchStartX := touchStartX c; touchStartY := touchStartY c |} ;;;
        if Qltb (distance c x y) 10
        then performTap sessionId' (touchStartX c) (touchStartY c)
        else performSwipe sessionId' (touchStartX c) (touchStartY c) x y 200
      else ret tt
  end.

(** [async scroll(_x, _y, deltaX, deltaY)] *)
Definition scroll (_x _y deltaX deltaY : Q) : M unit :=
  sessionId' <- ensureSession ;;
  let absX := Qabs deltaX in
  let absY := Qabs deltaY in
  if Qgeb absY absX && Qgtb absY (1 # 1000) then
    let direction := if Qgtb deltaY 0 then "up" else "down" in
    let distance := Qmin (1 # 2) (absY * 2)%Q in
    request POST ("/session/" ++ sessionId' ++ "/wda/scroll")
            (Some (ScrollBody direction distance)) ;;;
    ret tt
  else if Qgtb absX (1 # 1000) then
    let direction := if Qgtb deltaX 0 then "left" else "right" in
    let distance := Qmin (1 # 2) (absX * 2)%Q in
    request POST ("/session/" ++ sessionId' ++ "/wda/scroll")
            (Some (ScrollBody direction distance)) ;;;
    ret tt
  else ret tt.

(** [async typeText(text)] *)
Definition typeText (text : JSString) : M unit :=
  sessionId' <- ensureSession ;;
  request POST ("/session/" ++ sessionId' ++ "/wda/keys")
          (Some (KeysBody (split_chars text))) ;;;
  ret tt.

(** [async pressButton(button)] *)
Definition pressButton (button : Button) : M unit :=
  sessionId' <- ensureSession ;;
  request POST ("/session/" ++ sessionId' ++ "/wda/pressButton")
          (Some (ButtonBody (button_name button))) ;;;
  ret tt.

(** The action calls of the control session. *)
Inductive Call : Type :=
| CallTouch (action : TouchAction) (x y : Q)
| CallScroll (x y deltaX deltaY : Q)
| CallTypeText (text : JSString)
| CallPressButton (button : Button).

Definition perform (call : Call) : M unit :=
  match call with
  | CallTouch action x y => touch action x y
  | CallScroll x y deltaX deltaY => scroll x y deltaX deltaY
  | CallTypeText text => typeText text
  | CallPressButton button => pressButton button
  end.

(** Vocabulary of the properties. *)

(** The request [POST /session] that creates a remote session. *)
Definition session_request : Request :=
  {| method := POST; path := "/session"; body := Some SessionBody |}.

(** A pointer-action request: a [POST] carrying an action chain (only
    [performTap] and [performSwipe] build one, both for [.../actions]). *)
Definition is_action_request (r : Request) : bool :=
  match method r, body r with
  | POST, Some (ActionsBody _ _ _) => true
  | _, _ => false
  end.

Definition is_session_request (r : Request) : bool :=
  match method r, body r with
  | POST, Some SessionBody => true
  | _, _ => false
  end.

Definition tap_request (sessionId : string) (x y : Q) : Request :=
  {| method := POST; path := "/session/" ++ sessionId ++ "/actions";
     body := Some (ActionsBody "finger1" "touch" (tap_actions x y)) |}.


End WithServer.

Arguments client {Server} _.
Arguments server {Server} _.
Arguments sent {Server} _.
Arguments ret {Server A} a _.
Arguments throw {Server A} message _.
Arguments bind {Server A B} m k _.
Arguments get_client {Server} _.
Arguments set_client {Server} c _.
Arguments request {Server} fetch method path body _.
Arguments createSession {Server} fetch _.
Arguments deleteSession {Server} fetch _.
Arguments ensureSession {Server} fetch _.
Arguments performTap {Server} fetch sessionId x y _.
Arguments performSwipe {Server} fetch sessionId startX startY endX endY durationMs _.
Arguments touch {Server} fetch Math_sqrt action x y _.
Arguments scroll {Server} fetch _x _y deltaX deltaY _.
Arguments typeText {Server} fetch text _.
Arguments pressButton {Server} fetch button _.
Arguments perform {Server} fetch Math_sqrt call _.

(** The requests issued between two worlds of one run. *)
Definition issued {Server} (before after : World Server) : list Request :=
  skipn (List.length (sent before)) (sent after).

(** An endpoint that creates the session ["s1"] on [POST /session] and answers
    every other request with 404 [invalid session id]: the remote session has
    expired. *)
Definition expired_fetch (_ : unit) (r : Request) : unit * FetchResult :=
  if is_session_request r then
    (tt, Responded {| ok := true; status := 200; text := None;
                      json := Some {| value_sessionId := Some "s1";
                                      top_sessionId := None |} |})
  else
    (tt, Responded {| ok := false; status := 404;
                      text := Some "invalid session id"; json := None |}).

(** An endpoint that accepts everything. *)
Definition healthy_fetch (_ : unit) (r : Request) : unit * FetchResult :=
  (tt, Responded {| ok := true; status := 200; text := None;
                    json := Some {| value_sessionId := Some "s1";
                                    top_sessionId := None |} |}).

(** A stand-in square root for running examples: the integer square root of
    the integer part. *)
Definition isqrt (q : Q) : Q := inject_Z (Z.sqrt (Qfloor q)).

(** [new WDAClient(host)] *)
Definition new_client : Client :=
  {| sessionId := None; touchActive := false; touchStartX := 0; touchStartY := 0 |}.

Definition new_world : World unit :=
  {| client := new_client; server := tt; sent := [] |}.

End WDAClient.

(** * InputHandler.ts: wheel batching and two-finger gestures

    The wheel and touch listeners with the fields they use; the pointer
    listeners and their move throttle do not interact with them and are left
    out. *)

Module InputHandler.
Local Open Scope Q_scope.

(** [type TouchAction = 'down' | 'move' | 'up'] *)
Inductive TouchAction : Type := down | move | up.

Record Point : Type := { x : Q; y : Q }.

(** [canvas.getBoundingClientRect()] *)
Record DOMRect : Type := { rect_left : Q; rect_top : Q; rect_width : Q; rect_height : Q }.

Record Touch : Type := { identifier : Z; clientX : Q; clientY : Q }.

Record TouchEvent : Type := { touches : list Touch; changedTouches : list Touch }.

Record WheelEvent : Type := {
  wheel_clientX : Q;
  wheel_clientY : Q;
  deltaX : Q;
  deltaY : Q;
  deltaMode : Z;
}.

(** A call made to one of the callbacks handed to the constructor. *)
Inductive Callback : Type :=
| onScroll (x y deltaX deltaY : Q)
| onMultiTouch (x1 y1 x2 y2 : Q) (action : TouchAction).

(** A [Map<number, {x, y}>]: entries in insertion order, keys unique. *)
Definition TouchMap := list (Z * Point).

(** [m.set(k, v)]: an existing key keeps its place. *)
Fixpoint map_set (k : Z) (v : Point) (m : TouchMap) : TouchMap :=
  match m with
  | [] => [(k, v)]
  | (k', v') :: rest =>
      if (k' =? k)%Z then (k, v) :: rest else (k', v') :: map_set k v rest
  end.

(** [m.delete(k)] *)
Definition map_delete (k : Z) (m : TouchMap) : TouchMap :=
  filter (fun e => negb (fst e =? k)%Z) m.

(** [Array.from(m.values())] *)
Definition map_values (m : TouchMap) : list Point := map snd m.

(** The scroll and multi-touch fields of the class. *)
Record State : Type := {
  scrollBufferX : Q;
  scrollBufferY : Q;
  lastScrollX : Q;
  lastScrollY : Q;
  scrollRafId : option nat;
  activeTouches : TouchMap;
  isPinching : bool;
  initialPinchDistance : Q;
}.

(** The handler together with the browser's animation-frame queue: the
    handles of the [processScrollBuffer] callbacks waiting for the next frame. *)
Record World : Type := {
  handler : State;
  rafQueue : list nat;
  nextHandle : nat;
}.

Definition initial_state : State :=
  {| scrollBufferX := 0; scrollBufferY := 0; lastScrollX := 0; lastScrollY := 0;
     scrollRafId := None; activeTouches := []; isPinching := false;
     initialPinchDistance := 0 |}.

Definition initial_world : World :=
  {| handler := initial_state; rafQueue := []; nextHandle := 1 |}.

Definition SCROLL_STEP : Q := 200.
Definition THRESHOLD : Q := 1 # 10000.

(** The wheel delta in pixels, after the [deltaMode] conversion. *)
Definition pixel_delta (mode : Z) (delta : Q) : Q :=
  if (mode =? 1)%Z then delta * 16
  else if (mode =? 2)%Z then delta * 100
  else delta.

Section WithCanvas.

(** The canvas geometry, the optional callbacks given to the constructor,
    and [Math.sqrt]. *)
Variable rect : DOMRect.
Variable hasScroll : bool.
Variable hasMultiTouch : bool.
Variable Math_sqrt : Q -> Q.

(** [getNormalizedCoordsFromMouse] and [getNormalizedCoordsFromTouch] *)
Definition normalize (clientX clientY : Q) : Point :=
  let x := clientX - rect_left rect in
  let y := clientY - rect_top rect in
  let normalizedX := Qmax 0 (Qmin 1 (x / rect_width rect)) in
  let normalizedY := Qmax 0 (Qmin 1 (y / rect_height rect)) in
  {| x := normalizedX; y := normalizedY |}.

Definition getNormalizedCoordsFromMouse (event : WheelEvent) : Point :=
  normalize (wheel_clientX event) (wheel_clientY event).

Definition getNormalizedCoordsFromTouch (touch : Touch) : Point :=
  normalize (clientX touch) (clientY touch).

(** [private calculateDistance(point1, point2)] *)
Definition calculateDistance (point1 point2 : Point) : Q :=
  let dx := x point2 - x point1 in
  let dy := y point2 - y point1 in
  Math_sqrt (dx * dx + dy * dy).

(** [private onWheelEvent(event)] *)
Definition onWheelEvent (event : WheelEvent) (w : World) : World * list Callback :=
  if negb hasScroll then (w, [])
  else
    let s := handler w in
    let coords := getNormalizedCoordsFromMouse event in
    let deltaX := pixel_delta (deltaMode event) (deltaX event) in
    let deltaY := pixel_delta (deltaMode event) (deltaY event) in
    let deltaX := - deltaX / SCROLL_STEP in
    let deltaY := - deltaY / SCROLL_STEP in
    let s' (rafId : option nat) :=
      {| scrollBufferX := scrollBufferX s + deltaX;
         scrollBufferY := scrollBufferY s + deltaY;
         lastScrollX := x coords;
         lastScrollY := y coords;
         scrollRafId := rafId;
         activeTouches := activeTouches s;
         isPinching := isPinching s;
         initialPinchDistance := initialPinchDistance s |} in
    match scrollRafId s with
    | None =>
        (* this.scrollRafId = requestAnimationFrame(() => this.processScrollBuffer()) *)
        ({| handler := s' (Some (nextHandle w));
            rafQueue := rafQueue w ++ [nextHandle w];
            nextHandle := S (nextHandle w) |}, [])
    | Some id =>
        ({| handler := s' (Some id);
            rafQueue := rafQueue w;
            nextHandle := nextHandle w |}, [])
    end.

(** [private processScrollBuffer()] *)
Definition processScrollBuffer (s : State) : State * list Callback :=
  if Qgtb (Qabs (scrollBufferX s)) THRESHOLD || Qgtb (Qabs (scrollBufferY s)) THRESHOLD
  then
    ({| scrollBufferX := 0;
        scrollBufferY := 0;
        lastScrollX := lastScrollX s;
        lastScrollY := lastScrollY s;
        scrollRafId := None;
        activeTouches := activeTouches s;
        isPinching := isPinching s;
        initialPinchDistance := initialPinchDistance s |},
     [onScroll (lastScrollX s) (lastScrollY s) (scrollBufferX s) (scrollBufferY s)])
  else
    ({| scrollBufferX := scrollBufferX s;
        scrollBufferY := scrollBufferY s;
        lastScrollX := lastScrollX s;
        lastScrollY := lastScrollY s;
        scrollRafId := None;
        activeTouches := activeTouches s;
        isPinching := isPinching s;
        initialPinchDistance := initialPinchDistance s |},
     []).

(** The browser reaches a frame boundary: every queued callback runs once. *)
Fixpoint run_frame_callbacks (handles : list nat) (s : State) : State * list Callback :=
  match handles with
  | [] => (s, [])
  | _ :: more =>
      let '(s1, out1) := processScrollBuffer s in
      let '(s2, out2) := run_frame_callbacks more s1 in
      (s2, out1 ++ out2)
  end.

Definition animationFrame (w : World) : World * list Callback :=
  let '(s, out) := run_frame_callbacks (rafQueue w) (handler w) in
  ({| handler := s; rafQueue := []; nextHandle := nextHandle w |}, out).

Definition with_touches (s : State) (m : TouchMap) (pinching : bool) (d : Q) : State :=
  {| scrollBufferX := scrollBufferX s;
     scrollBufferY := scrollBufferY s;
     lastScrollX := lastScrollX s;
     lastScrollY := lastScrollY s;
     scrollRafId := scrollRafId s;
     activeTouches := m;
     isPinching := pinching;
     initialPinchDistance := d |}.

(** The ['up'] sent for the two tracked contacts, when there are exactly two. *)
Definition end_of_pinch (s : State) : list Callback :=
  match map_values (activeTouches s) with
  | [p0; p1] => [onMultiTouch (x p0) (y p0) (x p1) (y p1) up]
  | _ => []
  end.

(** [private onTouchStart(event)] *)
Definition onTouchStart (event : TouchEvent) (s : State) : State * list Callback :=
  match touches event with
  | [touch1; touch2] =>
      if hasMultiTouch then
        let coords1 := getNormalizedCoordsFromTouch touch1 in
        let coords2 := getNormalizedCoordsFromTouch touch2 in
        let m := map_set (identifier touch2) coords2
                   (map_set (identifier touch1) coords1 (activeTouches s)) in
        (with_touches s m true (calculateDistance coords1 coords2),
         [onMultiTouch (x coords1) (y coords1) (x coords2) (y coords2) down])
      else (s, [])
  | [_] =>
      (with_touches s [] false (initialPinchDistance s), [])
  | _ :: _ :: _ :: _ =>
      (with_touches s [] false (initialPinchDistance s),
       if isPinching s && hasMultiTouch then end_of_pinch s else [])
  | [] => (s, [])
  end.

(** [private onTouchMove(event)] *)
Definition onTouchMove (event : TouchEvent) (s : State) : State * list Callback :=
  match touches event with
  | [touch1; touch2] =>
      if isPinching s && hasMultiTouch then
        let coords1 := getNormalizedCoordsFromTouch touch1 in
        let coords2 := getNormalizedCoordsFromTouch touch2 in
        let m := map_set (identifier touch2) coords2
                   (map_set (identifier touch1) coords1 (activeTouches s)) in
        (with_touches s m (isPinching s) (initialPinchDistance s),
         [onMultiTouch (x coords1) (y coords1) (x coords2) (y coords2) move])
      else (s, [])
  | _ => (s, [])
  end.

(** [private onTouchEnd(event)], also the ['touchcancel'] listener. *)
Definition onTouchEnd (event : TouchEvent) (s : State) : State * list Callback :=
  let '(s1, out) :=
    if isPinching s && hasMultiTouch
    then (with_touches s [] false 0, end_of_pinch s)
    else (s, []) in
  let m := fold_left (fun m touch => map_delete (identifier touch) m)
                     (changedTouches event) (activeTouches s1) in
  (with_touches s1 m (isPinching s1) (initialPinchDistance s1), out).

(** The events the canvas listens to, and the frame boundary. *)
Inductive Event : Type :=
| Wheel (event : WheelEvent)
| AnimationFrame
| TouchStart (event : TouchEvent)
| TouchMove (event : TouchEvent)
| TouchEnd (event : TouchEvent).

Definition lift (f : State -> State * list Callback) (w : World) : World * list Callback :=
  let '(s, out) := f (handler w) in
  ({| handler := s; rafQueue := rafQueue w; nextHandle := nextHandle w |}, out).

Definition dispatch (ev : Event) (w : World) : World * list Callback :=
  match ev with
  | Wheel event => onWheelEvent event w
  | AnimationFrame => animationFrame w
  | TouchStart event => lift (onTouchStart event) w
  | TouchMove event => lift (onTouchMove event) w
  | TouchEnd event => lift (onTouchEnd event) w
  end.

Fixpoint run (w : World) (events : list Event) : World * list Callback :=
  match events with
  | [] => (w, [])
  | ev :: more =>
      let '(w1, out1) := dispatch ev w in
      let '(w2, out2) := run w1 more in
      (w2, out1 ++ out2)
  end.

End WithCanvas.

(** Vocabulary of the properties. *)

Definition action_of (c : Callback) : option TouchAction :=
  match c with
  | onMultiTouch _ _ _ _ action => Some action
  | onScroll _ _ _ _ => None
  end.

(** Two touch lists name the same two contacts. *)
Definition same_contacts (touch1 touch2 : Touch) (event : TouchEvent) : Prop :=
  exists a b,
    touches event = [a; b] /\
    ((identifier a = identifier touch1 /\ identifier b = identifier touch2) \/
     (identifier a = identifier touch2 /\ identifier b = identifier touch1)).

(** At most one [processScrollBuffer] is ever waiting, and [scrollRafId]
    says whether one is. *)
Definition raf_invariant (w : World) : Prop :=
  (scrollRafId (handler w) = None /\ rafQueue w = []) \/
  (exists id, scrollRafId (handler w) = Some id /\ rafQueue w = [id]).

(** A pinch is in progress on the two contacts [id1] and [id2], stored in
    that order. *)
Definition tracked (id1 id2 : Z) (s : State) : Prop :=
  isPinching s = true /\
  exists p q, activeTouches s = [(id1, p); (id2, q)].

(** No pinch is in progress and nothing is stored. *)
Definition idle (s : State) : Prop :=
  isPinching s = false /\ activeTouches s = [].

(** What follows the first [touchend] of a gesture while its contacts lift:
    a contact that is left moves, lifts or is cancelled. *)
Definition contact_leaves (ev : Event) : bool :=
  match ev with
  | TouchMove _ | TouchEnd _ => true
  | _ => false
  end.

(** Modelled from the spec: [ScrcpyConnection.sendMultiTouch] is not among
    the sources.  Section 4.3 of the specification (and the gesture notes under
    docs/) has one multi-touch call become two touch injections, pointer id 0
    for the first contact and pointer id 1 for the second, in that order, with
    coordinates scaled to the device size and rounded. *)
Record InjectTouchEvent : Type := {
  pointerId : Z;
  touch_action : TouchAction;
  touch_x : Z;
  touch_y : Z;
}.

Definition sendMultiTouch (deviceWidth deviceHeight : Z) (c : Callback)
  : list InjectTouchEvent :=
  match c with
  | onMultiTouch x1 y1 x2 y2 action =>
      [ {| pointerId := 0; touch_action := action;
           touch_x := Math_round (x1 * inject_Z deviceWidth);
           touch_y := Math_round (y1 * inject_Z deviceHeight) |};
        {| pointerId := 1; touch_action := action;
           touch_x := Math_round (x2 * inject_Z deviceWidth);
           touch_y := Math_round (y2 * inject_Z deviceHeight) |} ]
  | onScroll _ _ _ _ => []
  end.

(** The pointer ids and actions of a two-finger gesture with [n] move frames. *)
Definition pinch_protocol (n : nat) : list (Z * TouchAction) :=
  [(0%Z, down); (1%Z, down)] ++
  List.concat (repeat [(0%Z, move); (1%Z, move)] n) ++
  [(0%Z, up); (1%Z, up)].

(** The canvas of test/unit/webview/InputHandler.test.ts: 800 x 600 at the origin. *)
Definition test_rect : DOMRect :=
  {| rect_left := 0; rect_top := 0; rect_width := 800; rect_height := 600 |}.

(** A stand-in for [Math.sqrt] in running examples. *)
Definition isqrt_stub (q : Q) : Q := inject_Z (Z.sqrt (Qfloor q)).

Definition touch_at (id : Z) (cx cy : Q) : Touch :=
  {| identifier := id; clientX := cx; clientY := cy |}.

Definition touch_event (ts : list Touch) : TouchEvent :=
  {| touches := ts; changedTouches := ts |}.

Definition wheel_at (dy : Q) (mode : Z) : WheelEvent :=
  {| wheel_clientX := 400; wheel_clientY := 300; deltaX := 0; deltaY := dy;
     deltaMode := mode |}.

End InputHandler.

(** * InputHandler.ts: the wheel path in double precision

    [onWheelEvent] and [processScrollBuffer] once more, with every [number]
    a binary64 value: the buffers are sums of quotients, and which double a
    sum is depends on the order and the rounding of the additions. *)

Module ScrollWheel.
Local Open Scope float_scope.

(** [canvas.getBoundingClientRect()] *)
Record DOMRect : Type := {
  rect_left : float;
  rect_top : float;
  rect_width : float;
  rect_height : float;
}.

Record WheelEvent : Type := {
  clientX : float;
  clientY : float;
  deltaX : float;
  deltaY : float;
  deltaMode : Z;
}.

(** A call of the scroll callback handed to the constructor. *)
Inductive Callback : Type :=
| onScroll (x y deltaX deltaY : float).

(** The scroll fields of the class. *)
Record State : Type := {
  scrollBufferX : float;
  scrollBufferY : float;
  lastScrollX : float;
  lastScrollY : float;
  scrollRafId : option nat;
}.

(** The handler together with the browser's animation-frame queue. *)
Record World : Type := {
  handler : State;
  rafQueue : list nat;
  nextHandle : nat;
}.

Definition initial_state : State :=
  {| scrollBufferX := 0; scrollBufferY := 0; lastScrollX := 0; lastScrollY := 0;
     scrollRafId := None |}.

Definition initial_world : World :=
  {| handler := initial_state; rafQueue := []; nextHandle := 1 |}.

Definition SCROLL_STEP : float := 200.

(** The double the literal [0.0001] denotes. *)
Definition THRESHOLD : float := 0x1.a36e2eb1c432dp-14.

(** [Math.min] and [Math.max] of two numbers: [NaN] if either is, and the
    negative zero counts as smaller than the positive one. *)
Definition Math_min (a b : float) : float :=
  if is_nan a || is_nan b then nan
  else if a <? b then a
  else if b <? a then b
  else if get_sign a then a else b.

Definition Math_max (a b : float) : float :=
  if is_nan a || is_nan b then nan
  else if b <? a then a
  else if a <? b then b
  else if get_sign a then b else a.

Section WithCanvas.

Variable rect : DOMRect.
Variable hasScroll : bool.

(** [private getNormalizedCoordsFromMouse(event)] *)
Definition getNormalizedCoordsFromMouse (event : WheelEvent) : float * float :=
  let x := clientX event - rect_left rect in
  let y := clientY event - rect_top rect in
  let normalizedX := Math_max 0 (Math_min 1 (x / rect_width rect)) in
  let normalizedY := Math_max 0 (Math_min 1 (y / rect_height rect)) in
  (normalizedX, normalizedY).

(** [private onWheelEvent(event)] *)
Definition onWheelEvent (event : WheelEvent) (w : World) : World * list Callback :=
  if negb hasScroll then (w, [])
  else
    let s := handler w in
    let coords := getNormalizedCoordsFromMouse event in
    let deltaX := deltaX event in
    let deltaY := deltaY event in
    let '(deltaX, deltaY) :=
      if (deltaMode event =? 1)%Z then (deltaX * 16, deltaY * 16)
      else if (deltaMode event =? 2)%Z then (deltaX * 100, deltaY * 100)
      else (deltaX, deltaY) in
    let deltaX := - deltaX / SCROLL_STEP in
    let deltaY := - deltaY / SCROLL_STEP in
    let s' (rafId : option nat) :=
      {| scrollBufferX := scrollBufferX s + deltaX;
         scrollBufferY := scrollBufferY s + deltaY;
         lastScrollX := fst coords;
         lastScrollY := snd coords;
         scrollRafId := rafId |} in
    match scrollRafId s with
    | None =>
        (* this.scrollRafId = requestAnimationFrame(() => this.processScrollBuffer()) *)
        ({| handler := s' (Some (nextHandle w));
            rafQueue := rafQueue w ++ [nextHandle w];
            nextHandle := S (nextHandle w) |}, [])
    | Some id =>
        ({| handler := s' (Some id);
            rafQueue := rafQueue w;
            nextHandle := nextHandle w |}, [])
    end.

(** [private processScrollBuffer()] *)
Definition processScrollBuffer (s : State) : State * list Callback :=
  if (THRESHOLD <? abs (scrollBufferX s)) || (THRESHOLD <? abs (scrollBufferY s))
  then
    ({| scrollBufferX := 0;
        scrollBufferY := 0;
        lastScrollX := lastScrollX s;
        lastScrollY := lastScrollY s;
        scrollRafId := None |},
     [onScroll (lastScrollX s) (lastScrollY s) (scrollBufferX s) (scrollBufferY s)])
  else
    ({| scrollBufferX := scrollBufferX s;
        scrollBufferY := scrollBufferY s;
        lastScrollX := lastScrollX s;
        lastScrollY := lastScrollY s;
        scrollRafId := None |},
     []).

(** The browser reaches a frame boundary: every queued callback runs once. *)
Fixpoint run_frame_callbacks (handles : list nat) (s : State) : State * list Callback :=
  match handles with
  | [] => (s, [])
  | _ :: more =>
      let '(s1, out1) := processScrollBuffer s in
      let '(s2, out2) := run_frame_callbacks more s1 in
      (s2, out1 ++ out2)
  end.

Definition animationFrame (w : World) : World * list Callback :=
  let '(s, out) := run_frame_callbacks (rafQueue w) (handler w) in
  ({| handler := s; rafQueue := []; nextHandle := nextHandle w |}, out).

(** Wheel events and frame boundaries, in the order the browser delivers
    them. *)
Inductive Event : Type :=
| Wheel (event : WheelEvent)
| AnimationFrame.

Definition dispatch (ev : Event) (w : World) : World * list Callback :=
  match ev with
  | Wheel event => onWheelEvent event w
  | AnimationFrame => animationFrame w
  end.

Fixpoint run (w : World) (events : list Event) : World * list Callback :=
  match events with
  | [] => (w, [])
  | ev :: more =>
      let '(w1, out1) := dispatch ev w in
      let '(w2, out2) := run w1 more in
      (w2, out1 ++ out2)
  end.

End WithCanvas.

(** Vocabulary of the properties. *)

(** A wheel delta in pixels: 16 to the line, 100 to the page. *)
Definition pixels (mode : Z) (delta : float) : float :=
  match mode with
  | 1%Z => delta * 16
  | 2%Z => delta * 100
  | _ => delta
  end.

(** The running sum the buffer holds after the events of [wheels], from an
    empty buffer: each pixel delta is sign-inverted and divided by 200 on
    arrival, and the quotients are added in order of arrival. *)
Definition accumulated (delta : WheelEvent -> float) (wheels : list WheelEvent) : float :=
  fold_left (fun buffer e => buffer + - pixels (deltaMode e) (delta e) / 200) wheels 0.

(** The wheel events of a run, in order. *)
Definition wheels_of (events : list Event) : list WheelEvent :=
  flat_map (fun ev => match ev with Wheel e => [e] | AnimationFrame => [] end) events.

(** The deltas a callback carries. *)
Definition deltas_of (c : Callback) : float * float :=
  match c with onScroll _ _ dx dy => (dx, dy) end.

(** Whether a magnitude exceeds the threshold. *)
Definition exceeds (v : float) : bool := THRESHOLD <? abs v.

(** No frame callback is waiting, or exactly the one the handler remembers. *)
Definition raf_invariant (w : World) : Prop :=
  (scrollRafId (handler w) = None /\ rafQueue w = []) \/
  (exists id, scrollRafId (handler w) = Some id /\ rafQueue w = [id]).

(** A canvas of 800 by 600 pixels at the origin, and a vertical wheel event
    over its centre. *)
Definition test_rect : DOMRect :=
  {| rect_left := 0; rect_top := 0; rect_width := 800; rect_height := 600 |}.

Definition wheel_at (dy : float) : WheelEvent :=
  {| clientX := 400; clientY := 300; deltaX := 0; deltaY := dy; deltaMode := 0 |}.

End ScrollWheel.

(** * iOSConnection.ts: what is done with a framed message *)

Module IOSMessages.
Import IOSConnection.
Local Open Scope Z_scope.

(** The [DeviceInfo] built by [handleDeviceInfo]; a property the JSON lacks is
    [undefined]. *)
Record DeviceInfo : Type := {
  serial : option string;
  name : option string;
  model : option string;
  platform : string;
}.

(** The properties read from the parsed JSON. *)
Record InfoJson : Type := {
  udid : option string;
  json_name : option string;
  json_model : option string;
}.

(** The fields [processMessage] and its handlers write. *)
Record Device : Type := {
  _deviceWidth : Z;
  _deviceHeight : Z;
  _deviceInfo : option DeviceInfo;
}.

(** The connection: the framing buffer and the fields above. *)
Record Connection : Type := {
  messageBuffer : Buffer;
  device : Device;
}.

(** A call made to one of the connection's callbacks. *)
Inductive Event : Type :=
| onVideoFrame (data : Buffer) (isConfig isKeyFrame : bool)
               (width height : option Z) (codec : string)
| onStatus (message : string)
| onError (message : string).

Section WithDecoders.

(** [payload.toString('utf8')] and [JSON.parse] followed by the property
    reads; [None] stands for an exception, which [handleDeviceInfo] swallows. *)
Variable toString_utf8 : Buffer -> string.
Variable JSON_parse : string -> option InfoJson.

(** [private handleDeviceInfo(payload)] *)
Definition handleDeviceInfo (payload : Buffer) (d : Device) : Device :=
  match JSON_parse (toString_utf8 payload) with
  | Some info =>
      {| _deviceWidth := _deviceWidth d;
         _deviceHeight := _deviceHeight d;
         _deviceInfo := Some {| serial := udid info; name := json_name info;
                                model := json_model info; platform := "ios" |} |}
  | None => d
  end.

(** [private handleVideoConfig(payload)]: the eight-byte pattern is the test
    [payload.length >= 8]. *)
Definition handleVideoConfig (payload : Buffer) (d : Device) : Device * list Event :=
  match payload with
  | w0 :: w1 :: w2 :: w3 :: h0 :: h1 :: h2 :: h3 :: configData =>
      let width := readUInt32BE w0 w1 w2 w3 in
      let height := readUInt32BE h0 h1 h2 h3 in
      ({| _deviceWidth := width; _deviceHeight := height;
          _deviceInfo := _deviceInfo d |},
       [ onStatus ("Streaming at " ++ WDAClient.number_to_string width ++ "x"
                     ++ WDAClient.number_to_string height)%string;
         onVideoFrame configData true false (Some width) (Some height) "h264" ])
  | _ => (d, [])
  end.

(** [private handleVideoFrame(payload)]: one flag byte, eight bytes of PTS,
    then the frame. *)
Definition handleVideoFrame (payload : Buffer) (d : Device) : Device * list Event :=
  match payload with
  | flags :: _ :: _ :: _ :: _ :: _ :: _ :: _ :: _ :: frameData =>
      let isKeyFrame := negb (Z.land (byte_val flags) 0x01 =? 0) in
      let isConfig := negb (Z.land (byte_val flags) 0x02 =? 0) in
      (d, [ onVideoFrame frameData isConfig isKeyFrame None None "h264" ])
  | _ => (d, [])
  end.

(** [private processMessage(type, payload)] *)
Definition processMessage (m : Message) (d : Device) : Device * list Event :=
  if type m =? MessageType.DEVICE_INFO then (handleDeviceInfo (payload m) d, [])
  else if type m =? MessageType.VIDEO_CONFIG then handleVideoConfig (payload m) d
  else if type m =? MessageType.VIDEO_FRAME then handleVideoFrame (payload m) d
  else if type m =? MessageType.ERROR then (d, [onError (toString_utf8 (payload m))])
  else if type m =? MessageType.STATUS then (d, [onStatus (toString_utf8 (payload m))])
  else (d, []).

(** The calls of [processMessage] made by one run of the framing loop. *)
Fixpoint processMessages (ms : list Message) (d : Device) : Device * list Event :=
  match ms with
  | [] => (d, [])
  | m :: more =>
      let '(d1, out1) := processMessage m d in
      let '(d2, out2) := processMessages more d1 in
      (d2, out1 ++ out2)
  end.

(** [private handleHelperData(chunk)], with the messages processed. *)
Definition onData (chunk : Buffer) (c : Connection) : Connection * list Event :=
  let '(calls, buf) := handleHelperData (messageBuffer c) chunk in
  let '(d, out) := processMessages calls (device c) in
  ({| messageBuffer := buf; device := d |}, out).

(** The stdout listener on successive chunks. *)
Fixpoint onChunks (chunks : list Buffer) (c : Connection) : Connection * list Event :=
  match chunks with
  | [] => (c, [])
  | chunk :: more =>
      let '(c1, out1) := onData chunk c in
      let '(c2, out2) := onChunks more c1 in
      (c2, out1 ++ out2)
  end.

(** [disconnect()]: the framing buffer is dropped. *)
Definition disconnect (c : Connection) : Connection :=
  {| messageBuffer := empty_buffer; device := device c |}.

End WithDecoders.

(** [new iOSConnection(...)] *)
Definition new_connection : Connection :=
  {| messageBuffer := empty_buffer;
     device := {| _deviceWidth := 0; _deviceHeight := 0; _deviceInfo := None |} |}.

(** The payloads built by native/ios-helper/mock-helper.js. *)

(** [configPayload]: width, height, then SPS and PPS. *)
Definition configPayload (WIDTH HEIGHT : Z) (spsData ppsData : Buffer) : Buffer :=
  writeUInt32BE WIDTH ++ writeUInt32BE HEIGHT ++ spsData ++ ppsData.

(** The frame [payload]: flags, the PTS as two 32-bit halves, then the NAL. *)
Definition framePayload (flags pts : Z) (data : Buffer) : Buffer :=
  byte_of_Z flags :: writeUInt32BE (pts / 0x100000000)
    ++ writeUInt32BE (pts mod 0x100000000) ++ data.

End IOSMessages.

(** * iOSDeviceManager.ts: the device-list scan *)

Module IOSDeviceManager.
Import IOSConnection.
Local Open Scope Z_scope.

(** One turn of the [while (offset + 5 <= buffer.length)] loop of
    [getAvailableDevices], on the bytes from [offset] on. *)
Inductive Turn : Type :=
| Stop                      (* loop test fails, or the message is incomplete *)
| Found (payload : Buffer)  (* a DEVICE_LIST message *)
| Skip (next : nat).        (* [offset += 5 + length] *)

Definition turn (buffer : Buffer) (offset : nat) : Turn :=
  if (offset + 5 <=? List.length buffer)%nat then
    match skipn offset buffer with
    | t :: b0 :: b1 :: b2 :: b3 :: _ =>
        let type := byte_val t in
        let length := Z.to_nat (readUInt32BE b0 b1 b2 b3) in
        if (List.length buffer <? offset + 5 + length)%nat then Stop
        else if type =? MessageType.DEVICE_LIST
        then Found (subarray buffer (offset + 5) (offset + 5 + length))
        else Skip (offset + 5 + length)
    | _ => Stop
    end
  else Stop.

(** The loop: the payload handed to [JSON.parse], if a DEVICE_LIST message is
    reached.  Every [Skip] moves [offset] forward by at least five, so
    [length buffer] turns are enough. *)
Fixpoint scan (turns : nat) (buffer : Buffer) (offset : nat) : option Buffer :=
  match turns with
  | O => None
  | S turns' =>
      match turn buffer offset with
      | Stop => None
      | Found payload => Some payload
      | Skip next => scan turns' buffer next
      end
  end.

Definition findDeviceList (buffer : Buffer) : option Buffer :=
  scan (List.length buffer) buffer 0.

End IOSDeviceManager.

(** Messages [processMessage] does nothing with. *)
Module IOSDropped.
Import IOSConnection.
Local Open Scope Z_scope.

Definition dropped (m : Message) : Prop :=
  (type m <> 2 /\ type m <> 3 /\ type m <> 4 /\ type m <> 5 /\ type m <> 6) \/
  (type m = 3 /\ (List.length (payload m) < 8)%nat) \/
  (type m = 4 /\ (List.length (payload m) < 9)%nat).

End IOSDropped.

(** * CodecUtils.ts: codec strings *)

Module CodecStrings.
Import CodecUtils.
Local Open Scope string_scope.
Local Open Scope Z_scope.

(** The object returned by the [h264-sps-parser] package, restricted to the
    properties [extractH264SPSInfo] reads.  A property is an integer, or
    [None] for [undefined]: what the parser leaves behind when the unit ends
    before the field. *)
Record SPSProfile : Type := {
  profile_idc : option Z;
  profile_compatibility : option Z;
  level_idc : option Z;
}.

Record SPSInfo : Type := {
  profile : option Z;
  constraint : option Z;
  level : option Z;
}.

(** [n.toString(16)] for an integer [n]: lower-case digits, a minus sign for
    a negative number. *)
Definition toString16 (n : Z) : string :=
  HexadecimalString.NilZero.string_of_int (Z.to_hex_int n).

(** [s.padStart(targetLength, pad)] for a one-character [pad]. *)
Definition padStart (s : string) (targetLength : nat) (pad : Ascii.ascii) : string :=
  string_of_list_ascii (repeat pad (targetLength - String.length s)) ++ s.

(** [v.toString(16).padStart(2, '0')]: reading [toString] of [undefined]
    throws a [TypeError]. *)
Definition two_digits (v : option Z) : Completion string :=
  match v with
  | Some n => Normal (padStart (toString16 n) 2 "0"%char)
  | None => Throw "TypeError: Cannot read properties of undefined (reading 'toString')"
  end.

(** The value of a string of lower-case hexadecimal digits, most significant
    first (used to state what a codec string encodes). *)
Definition hex_digit (c : Ascii.ascii) : option Z :=
  let n := Z.of_nat (Ascii.nat_of_ascii c) in
  if (48 <=? n) && (n <=? 57) then Some (n - 48)
  else if (97 <=? n) && (n <=? 102) then Some (n - 87)
  else None.

Fixpoint hex_value_from (acc : Z) (s : string) : option Z :=
  match s with
  | EmptyString => Some acc
  | String c rest =>
      match hex_digit c with
      | Some d => hex_value_from (16 * acc + d) rest
      | None => None
      end
  end.

Definition hex_value (s : string) : option Z :=
  match s with
  | EmptyString => None
  | _ => hex_value_from 0 s
  end.

Section WithParser.

Variable parseSPS : Uint8Array -> Completion SPSProfile.

(** [static extractH264SPSInfo(config)] *)
Definition extractH264SPSInfo (config : Uint8Array) : Completion (option SPSInfo) :=
  match findH264SPS config with
  | None => Normal None
  | Some spsData =>
      try_catch
        (cbind (parseSPS spsData) (fun sps =>
           Normal (Some {| profile := profile_idc sps;
                           constraint := profile_compatibility sps;
                           level := level_idc sps |})))
        (fun error => Normal None)
  end.

(** [static generateCodecString(codec, config?, _width?, _height?)]; the
    last two parameters are not read. *)
Definition generateCodecString (codec : VideoCodec) (config : option Uint8Array)
  : Completion string :=
  match codec with
  | h264 =>
      cbind (match config with
             | Some c => extractH264SPSInfo c
             | None => Normal None
             end)
        (fun spsInfo =>
           match spsInfo with
           | Some info =>
               (* the template literal evaluates its three parts in order *)
               cbind (two_digits (profile info)) (fun p =>
               cbind (two_digits (constraint info)) (fun c =>
               cbind (two_digits (level info)) (fun l =>
               Normal ("avc1." ++ p ++ c ++ l))))
           | None => Normal "avc1.42001f"
           end)
  | h265 => Normal "hev1.1.6.L93.B0"
  | av1 => Normal "av01.0.05M.08"
  end.

End WithParser.

End CodecStrings.

(** * WDAClient.ts: runs of calls, and [disconnect] *)

Module WDAClientRuns.
Import WDAClient.
Local Open Scope string_scope.

Definition is_down (call : Call) : bool :=
  match call with CallTouch down _ _ => true | _ => false end.

Definition is_up (call : Call) : bool :=
  match call with CallTouch up _ _ => true | _ => false end.

(** The stored session id is [null] or a non-empty string. *)
Definition session_ok (c : Client) : Prop :=
  match sessionId c with
  | Some id => id <> ""
  | None => True
  end.

Definition delete_request (sessionId : string) : Request :=
  {| method := DELETE; path := "/session/" ++ sessionId; body := None |}.

Definition scroll_request (sessionId direction : string) (distance : Q) : Request :=
  {| method := POST; path := "/session/" ++ sessionId ++ "/wda/scroll";
     body := Some (ScrollBody direction distance) |}.

Definition keys_request (sessionId : string) (value : list JSString) : Request :=
  {| method := POST; path := "/session/" ++ sessionId ++ "/wda/keys";
     body := Some (KeysBody value) |}.

Section WithServer.

Variable Server : Type.
Variable fetch : Server -> Request -> Server * FetchResult.
Variable Math_sqrt : Q -> Q.

(** A caller that awaits each call and goes on to the next one whether the
    call returned or threw. *)
Fixpoint run_calls (calls : list Call) (w : World Server) : World Server :=
  match calls with
  | [] => w
  | call :: rest => run_calls rest (fst (perform fetch Math_sqrt call w))
  end.

(** [disconnect()], up to its return.  [this.deleteSession().catch(() => {})]
    is not awaited: [deleteSession] runs up to its [await], so the DELETE has
    been handed to [fetch], with the id still stored in its path, when
    [disconnect] assigns the two fields.  The rest of [deleteSession], its
    [finally], runs later: see [delete_settles].  The abort controller is
    part of [fetch] here. *)
Definition disconnect (w : World Server) : World Server :=
  let w1 :=
    match sessionId (client w) with
    | Some id =>
        if truthy (Some id)
        then fst (request fetch DELETE ("/session/" ++ id) None w)
        else w
    | None => w
    end in
  {| client := {| sessionId := None; touchActive := false;
                  touchStartX := touchStartX (client w1);
                  touchStartY := touchStartY (client w1) |};
     server := server w1; sent := sent w1 |}.

(** The DELETE sent by [disconnect] settles and the pending [deleteSession]
    resumes: whatever the answer, its [catch] swallows it and its [finally]
    assigns [this.sessionId = null]. *)
Definition delete_settles (w : World Server) : World Server :=
  {| client := {| sessionId := None; touchActive := touchActive (client w);
                  touchStartX := touchStartX (client w);
                  touchStartY := touchStartY (client w) |};
     server := server w; sent := sent w |}.

(** What can happen after [disconnect] has returned: the caller makes
    another call, or the DELETE settles.  The DELETE can settle while a later
    call is waiting for its own request; the assignment then falls either
    before that call stores a new id (as if it had settled before the call)
    or after the call last read the field (as if it had settled after it),
    so settling between calls covers every order. *)
Inductive Later : Type :=
| NextCall (call : Call)
| DeleteSettles.

Fixpoint run_later (events : list Later) (w : World Server) : World Server :=
  match events with
  | [] => w
  | NextCall call :: rest => run_later rest (fst (perform fetch Math_sqrt call w))
  | DeleteSettles :: rest => run_later rest (delete_settles w)
  end.

End WithServer.

Arguments run_calls {Server} fetch Math_sqrt calls w.
Arguments disconnect {Server} fetch w.
Arguments delete_settles {Server} w.
Arguments run_later {Server} fetch Math_sqrt events w.

(** The calls among the events that follow [disconnect]. *)
Definition later_calls (events : list Later) : list Call :=
  flat_map (fun ev => match ev with NextCall call => [call] | DeleteSettles => [] end)
           events.

(** A world of the accepting endpoint in which the session ["s1"] is stored. *)
Definition session_world : World unit :=
  {| client := {| sessionId := Some "s1"; touchActive := false;
                  touchStartX := 0; touchStartY := 0 |};
     server := tt; sent := [] |}.

End WDAClientRuns.

(** * InputHandler.ts: what a run of events sends *)

Module InputTraces.
Import InputHandler.
Local Open Scope Q_scope.

(** A normalized coordinate. *)
Definition in_unit (q : Q) : Prop := 0 <= q /\ q <= 1.

Definition normalized (c : Callback) : Prop :=
  match c with
  | onScroll x y _ _ => in_unit x /\ in_unit y
  | onMultiTouch x1 y1 x2 y2 _ => in_unit x1 /\ in_unit y1 /\ in_unit x2 /\ in_unit y2
  end.

Definition is_scroll (c : Callback) : bool :=
  match c with onScroll _ _ _ _ => true | _ => false end.

Definition is_multi_touch (c : Callback) : bool :=
  match c with onMultiTouch _ _ _ _ _ => true | _ => false end.

(** The actions of the multi-touch callbacks, in order. *)
Definition multi_touch_actions (out : list Callback) : list TouchAction :=
  flat_map (fun c => match action_of c with Some a => [a] | None => [] end) out.

(** A sequence of actions in which every ['move'] and every ['up'] follows a
    ['down'] that no ['up'] has closed yet; [open] says whether a gesture is
    open at the start, the result whether one is open at the end. *)
Fixpoint gesture_trace (open : bool) (actions : list TouchAction) : option bool :=
  match actions with
  | [] => Some open
  | down :: more => gesture_trace true more
  | move :: more => if open then gesture_trace true more else None
  | up :: more => if open then gesture_trace false more else None
  end.

(** The same, where in addition no ['down'] comes while a gesture is open. *)
Fixpoint strict_gesture_trace (open : bool) (actions : list TouchAction) : option bool :=
  match actions with
  | [] => Some open
  | down :: more => if open then None else strict_gesture_trace true more
  | move :: more => if open then strict_gesture_trace true more else None
  | up :: more => if open then strict_gesture_trace false more else None
  end.

(** Every position the handler remembers is normalized. *)
Definition positions_normalized (s : State) : Prop :=
  in_unit (lastScrollX s) /\ in_unit (lastScrollY s) /\
  Forall (fun e => in_unit (x (snd e)) /\ in_unit (y (snd e))) (activeTouches s).

End InputTraces.

(** * InputHandler.ts: the pointer listeners

    The fields the three pointer listeners and [setThrottleRate] use.
    [performance.now()] is an input of [onPointerMove].  The calls
    [setPointerCapture] and [releasePointerCapture] act on the page only
    ([releasePointerCapture] inside a [try]; [setPointerCapture] is given the
    pointer of the event being handled). *)

Module PointerInput.
Local Open Scope Q_scope.

(** [event.type] of the events bound to [onPointerUp]. *)
Inductive EventType : Type := pointerup | pointercancel | pointerleave.

Record PointerEvent : Type := {
  event_pointerId : Z;
  clientX : Q;
  clientY : Q;
}.

Record State : Type := {
  isPointerDown : bool;
  pointerId : option Z;
  lastMoveTime : Q;
  moveThrottleMs : Q;
}.

(** A call of [onInput(x, y, action)]. *)
Inductive Callback : Type :=
| onInput (x y : Q) (action : InputHandler.TouchAction).

Definition initial_state : State :=
  {| isPointerDown := false; pointerId := None; lastMoveTime := 0; moveThrottleMs := 16 |}.

(** [event.pointerId !== this.pointerId], where the field may be [null]. *)
Definition differs (id : Z) (tracked : option Z) : bool :=
  match tracked with
  | Some p => negb (id =? p)%Z
  | None => true
  end.

Section WithCanvas.

Variable rect : InputHandler.DOMRect.

(** [private getNormalizedCoords(event)] *)
Definition getNormalizedCoords (event : PointerEvent) : InputHandler.Point :=
  InputHandler.normalize rect (clientX event) (clientY event).

(** [private onPointerDown(event)] *)
Definition onPointerDown (event : PointerEvent) (s : State) : State * list Callback :=
  if isPointerDown s then (s, [])
  else
    let coords := getNormalizedCoords event in
    ({| isPointerDown := true;
        pointerId := Some (event_pointerId event);
        lastMoveTime := lastMoveTime s;
        moveThrottleMs := moveThrottleMs s |},
     [onInput (InputHandler.x coords) (InputHandler.y coords) InputHandler.down]).

(** [private onPointerMove(event)], with [now = performance.now()]. *)
Definition onPointerMove (event : PointerEvent) (now : Q) (s : State)
  : State * list Callback :=
  if negb (isPointerDown s) || differs (event_pointerId event) (pointerId s) then (s, [])
  else if Qltb (now - lastMoveTime s) (moveThrottleMs s) then (s, [])
  else
    let coords := getNormalizedCoords event in
    ({| isPointerDown := isPointerDown s;
        pointerId := pointerId s;
        lastMoveTime := now;
        moveThrottleMs := moveThrottleMs s |},
     [onInput (InputHandler.x coords) (InputHandler.y coords) InputHandler.move]).

(** [private onPointerUp(event)], the listener of ['pointerup'],
    ['pointercancel'] and ['pointerleave']. *)
Definition onPointerUp (type : EventType) (event : PointerEvent) (s : State)
  : State * list Callback :=
  if negb (isPointerDown s) ||
     (differs (event_pointerId event) (pointerId s) &&
      match type with pointerleave => false | _ => true end)
  then (s, [])
  else
    let coords := getNormalizedCoords event in
    ({| isPointerDown := false;
        pointerId := None;
        lastMoveTime := lastMoveTime s;
        moveThrottleMs := moveThrottleMs s |},
     [onInput (InputHandler.x coords) (InputHandler.y coords) InputHandler.up]).

(** [setThrottleRate(ms)] *)
Definition setThrottleRate (ms : Q) (s : State) : State :=
  {| isPointerDown := isPointerDown s;
     pointerId := pointerId s;
     lastMoveTime := lastMoveTime s;
     moveThrottleMs := ms |}.

Inductive Event : Type :=
| PointerDown (event : PointerEvent)
| PointerMove (event : PointerEvent) (now : Q)
| PointerUp (type : EventType) (event : PointerEvent)
| SetThrottleRate (ms : Q).

Definition dispatch (ev : Event) (s : State) : State * list Callback :=
  match ev with
  | PointerDown event => onPointerDown event s
  | PointerMove event now => onPointerMove event now s
  | PointerUp type event => onPointerUp type event s
  | SetThrottleRate ms => (setThrottleRate ms s, [])
  end.

Fixpoint run (s : State) (events : list Event) : State * list Callback :=
  match events with
  | [] => (s, [])
  | ev :: more =>
      let '(s1, out1) := dispatch ev s in
      let '(s2, out2) := run s1 more in
      (s2, out1 ++ out2)
  end.

(** The clock readings of the ['pointermove'] events of a run that were
    forwarded, in order. *)
Fixpoint forwarded_move_times (s : State) (events : list Event) : list Q :=
  match events with
  | [] => []
  | ev :: more =>
      let '(s1, out1) := dispatch ev s in
      match ev, out1 with
      | PointerMove _ now, _ :: _ => now :: forwarded_move_times s1 more
      | _, _ => forwarded_move_times s1 more
      end
  end.

End WithCanvas.

Definition action_of (c : Callback) : InputHandler.TouchAction :=
  match c with onInput _ _ action => action end.

Definition normalized (c : Callback) : Prop :=
  match c with onInput x y _ => InputTraces.in_unit x /\ InputTraces.in_unit y end.



(** An event of another pointer than [p] that is not a ['pointerleave'];
    a ['pointerdown'] of any pointer. *)
Definition foreign (p : Z) (ev : Event) : Prop :=
  match ev with
  | PointerDown _ => True
  | PointerMove event _ => event_pointerId event <> p
  | PointerUp pointerleave _ => False
  | PointerUp _ event => event_pointerId event <> p
  | SetThrottleRate _ => False
  end.

Definition pointer_at (id : Z) (cx cy : Q) : PointerEvent :=
  {| event_pointerId := id; clientX := cx; clientY := cy |}.

End PointerInput.

(** * AppStateManager.ts: the state store and its batched notifications

    The types of ./types/AppState are data only.  The manager reads three
    properties of a device ([deviceId], [serial], [isActive]); everything
    else it stores (the remaining device properties, settings, tool status,
    status message, detailed device info) it copies or spreads without
    looking inside, so these are values of one opaque type [Json] with the
    object spread [{...a, ...b}] as a parameter.  Listeners are taken to read
    the snapshot they are given and not to call back into the manager. *)

Module AppStateManager.
Local Open Scope string_scope.

(** A [Map<string, V>]: entries in insertion order, keys unique. *)
Section Maps.
Variable V : Type.

Fixpoint map_get (k : string) (m : list (string * V)) : option V :=
  match m with
  | [] => None
  | (k', v) :: rest => if String.eqb k' k then Some v else map_get k rest
  end.

(** [m.set(k, v)]: an existing key keeps its place. *)
Fixpoint map_set (k : string) (v : V) (m : list (string * V)) : list (string * V) :=
  match m with
  | [] => [(k, v)]
  | (k', v') :: rest =>
      if String.eqb k' k then (k, v) :: rest else (k', v') :: map_set k v rest
  end.

(** [m.delete(k)], without its result. *)
Definition map_delete (k : string) (m : list (string * V)) : list (string * V) :=
  filter (fun e => negb (String.eqb (fst e) k)) m.

(** [m.has(k)], also the result of [m.delete(k)]. *)
Definition map_has (k : string) (m : list (string * V)) : bool :=
  match map_get k m with Some _ => true | None => false end.

End Maps.

Arguments map_get {V} k m.
Arguments map_set {V} k v m.
Arguments map_delete {V} k m.
Arguments map_has {V} k m.

Section WithJson.

Variable Json : Type.
(** [{...a, ...b}] on the opaque parts. *)
Variable spread : Json -> Json -> Json.
(** The settings and the tool status the constructor starts with. *)
Variable initial_settings : Json.
Variable initial_toolStatus : Json.

Record DeviceState : Type := {
  deviceId : string;
  serial : string;
  isActive : bool;
  other : Json;
}.

(** A [Partial<DeviceState>]: [None] for a property that is not given. *)
Record DeviceUpdates : Type := {
  updates_deviceId : option string;
  updates_serial : option string;
  updates_isActive : option bool;
  updates_other : Json;
}.

Record AppState : Type := {
  devices : list (string * DeviceState);
  activeDeviceId : option string;
  settings : Json;
  toolStatus : Json;
  statusMessage : option Json;
  deviceInfo : list (string * Json);
  isMonitoring : bool;
}.

Record AppStateSnapshot : Type := {
  snapshot_devices : list DeviceState;
  snapshot_activeDeviceId : option string;
  snapshot_settings : Json;
  snapshot_toolStatus : Json;
  snapshot_statusMessage : option Json;
  snapshot_deviceInfo : list (string * Json);
}.

(** The manager, the microtasks it has queued and not yet run, and the
    snapshots its listeners have been called with (oldest first). *)
Record Manager : Type := {
  state : AppState;
  notifyScheduled : bool;
  microtasks : nat;
  delivered : list AppStateSnapshot;
}.

(** [new AppStateManager()] *)
Definition new_manager : Manager :=
  {| state := {| devices := []; activeDeviceId := None;
                 settings := initial_settings; toolStatus := initial_toolStatus;
                 statusMessage := None; deviceInfo := []; isMonitoring := false |};
     notifyScheduled := false; microtasks := 0; delivered := [] |}.

(** [getSnapshot()] *)
Definition getSnapshot (s : AppState) : AppStateSnapshot :=
  {| snapshot_devices := map snd (devices s);
     snapshot_activeDeviceId := activeDeviceId s;
     snapshot_settings := settings s;
     snapshot_toolStatus := toolStatus s;
     snapshot_statusMessage := statusMessage s;
     snapshot_deviceInfo := deviceInfo s |}.

Definition with_state (m : Manager) (s : AppState) : Manager :=
  {| state := s; notifyScheduled := notifyScheduled m;
     microtasks := microtasks m; delivered := delivered m |}.

(** [private notifyListeners()] *)
Definition notifyListeners (m : Manager) : Manager :=
  if notifyScheduled m then m
  else {| state := state m; notifyScheduled := true;
          microtasks := S (microtasks m); delivered := delivered m |}.

(** The callback given to [queueMicrotask]. *)
Definition run_microtask (m : Manager) : Manager :=
  {| state := state m; notifyScheduled := false;
     microtasks := Nat.pred (microtasks m);
     delivered := delivered m ++ [getSnapshot (state m)] |}.

(** The end of the current job: every queued microtask runs. *)
Definition drain (m : Manager) : Manager := Nat.iter (microtasks m) run_microtask m.

(** [addDevice(device)] *)
Definition addDevice (device : DeviceState) (m : Manager) : Manager :=
  let s := state m in
  notifyListeners
    (with_state m
       {| devices := map_set (deviceId device) device (devices s);
          activeDeviceId := activeDeviceId s; settings := settings s;
          toolStatus := toolStatus s; statusMessage := statusMessage s;
          deviceInfo := deviceInfo s; isMonitoring := isMonitoring s |}).

(** [removeDevice(deviceId)] *)
Definition removeDevice (id : string) (m : Manager) : Manager :=
  let s := state m in
  match map_get id (devices s) with
  | Some device =>
      notifyListeners
        (with_state m
           {| devices := map_delete id (devices s);
              activeDeviceId :=
                match activeDeviceId s with
                | Some a => if String.eqb a id then None else Some a
                | None => None
                end;
              settings := settings s; toolStatus := toolStatus s;
              statusMessage := statusMessage s;
              deviceInfo := map_delete (serial device) (deviceInfo s);
              isMonitoring := isMonitoring s |})
  | None => m
  end.

(** [{ ...device, ...updates }] *)
Definition merge_device (device : DeviceState) (updates : DeviceUpdates) : DeviceState :=
  {| deviceId := match updates_deviceId updates with Some v => v | None => deviceId device end;
     serial := match updates_serial updates with Some v => v | None => serial device end;
     isActive := match updates_isActive updates with Some v => v | None => isActive device end;
     other := spread (other device) (updates_other updates) |}.

(** [updateDevice(deviceId, updates)] *)
Definition updateDevice (id : string) (updates : DeviceUpdates) (m : Manager) : Manager :=
  let s := state m in
  match map_get id (devices s) with
  | Some device =>
      notifyListeners
        (with_state m
           {| devices := map_set id (merge_device device updates) (devices s);
              activeDeviceId := activeDeviceId s; settings := settings s;
              toolStatus := toolStatus s; statusMessage := statusMessage s;
              deviceInfo := deviceInfo s; isMonitoring := isMonitoring s |})
  | None => m
  end.

(** [id === deviceId] for a string [id] and a string or [null]. *)
Definition is_id (id : string) (target : option string) : bool :=
  match target with
  | Some d => String.eqb id d
  | None => false
  end.

(** [this.state.activeDeviceId === deviceId] *)
Definition same_id (a b : option string) : bool :=
  match a, b with
  | Some x, Some y => String.eqb x y
  | None, None => true
  | _, _ => false
  end.

(** The loop of [setActiveDevice]: each entry is set again, in place, when
    its flag has to change. *)
Definition mark_active (target : option string) (entry : string * DeviceState)
  : string * DeviceState :=
  let '(id, device) := entry in
  let isActive' := is_id id target in
  if negb (Bool.eqb (isActive device) isActive')
  then (id, {| deviceId := deviceId device; serial := serial device;
               isActive := isActive'; other := other device |})
  else (id, device).

(** [setActiveDevice(deviceId)] *)
Definition setActiveDevice (id : option string) (m : Manager) : Manager :=
  let s := state m in
  if same_id (activeDeviceId s) id then m
  else
    notifyListeners
      (with_state m
         {| devices := map (mark_active id) (devices s);
            activeDeviceId := id; settings := settings s;
            toolStatus := toolStatus s; statusMessage := statusMessage s;
            deviceInfo := deviceInfo s; isMonitoring := isMonitoring s |}).

(** [updateSettings(settings)] *)
Definition updateSettings (updates : Json) (m : Manager) : Manager :=
  let s := state m in
  notifyListeners
    (with_state m
       {| devices := devices s; activeDeviceId := activeDeviceId s;
          settings := spread (settings s) updates;
          toolStatus := toolStatus s; statusMessage := statusMessage s;
          deviceInfo := deviceInfo s; isMonitoring := isMonitoring s |}).

(** [updateToolStatus(toolStatus)] *)
Definition updateToolStatus (status : Json) (m : Manager) : Manager :=
  let s := state m in
  notifyListeners
    (with_state m
       {| devices := devices s; activeDeviceId := activeDeviceId s;
          settings := settings s; toolStatus := status;
          statusMessage := statusMessage s;
          deviceInfo := deviceInfo s; isMonitoring := isMonitoring s |}).

Definition with_statusMessage (s : AppState) (message : option Json) : AppState :=
  {| devices := devices s; activeDeviceId := activeDeviceId s;
     settings := settings s; toolStatus := toolStatus s;
     statusMessage := message;
     deviceInfo := deviceInfo s; isMonitoring := isMonitoring s |}.

(** [setStatusMessage(message)] *)
Definition setStatusMessage (message : option Json) (m : Manager) : Manager :=
  notifyListeners (with_state m (with_statusMessage (state m) message)).

(** [clearStatusMessage()] *)
Definition clearStatusMessage (m : Manager) : Manager :=
  match statusMessage (state m) with
  | Some _ => notifyListeners (with_state m (with_statusMessage (state m) None))
  | None => m
  end.

Definition with_deviceInfo (s : AppState) (info : list (string * Json)) : AppState :=
  {| devices := devices s; activeDeviceId := activeDeviceId s;
     settings := settings s; toolStatus := toolStatus s;
     statusMessage := statusMessage s;
     deviceInfo := info; isMonitoring := isMonitoring s |}.

(** [setDeviceInfo(serial, info)] *)
Definition setDeviceInfo (serial : string) (info : Json) (m : Manager) : Manager :=
  notifyListeners
    (with_state m (with_deviceInfo (state m) (map_set serial info (deviceInfo (state m))))).

(** [removeDeviceInfo(serial)] *)
Definition removeDeviceInfo (serial : string) (m : Manager) : Manager :=
  if map_has serial (deviceInfo (state m))
  then notifyListeners
         (with_state m (with_deviceInfo (state m) (map_delete serial (deviceInfo (state m)))))
  else m.

(** [clearDeviceInfo()] *)
Definition clearDeviceInfo (m : Manager) : Manager :=
  match deviceInfo (state m) with
  | _ :: _ => notifyListeners (with_state m (with_deviceInfo (state m) []))
  | [] => m
  end.

(** [setMonitoring(isMonitoring)]: no notification. *)
Definition setMonitoring (value : bool) (m : Manager) : Manager :=
  let s := state m in
  if negb (Bool.eqb (isMonitoring s) value)
  then with_state m
         {| devices := devices s; activeDeviceId := activeDeviceId s;
            settings := settings s; toolStatus := toolStatus s;
            statusMessage := statusMessage s;
            deviceInfo := deviceInfo s; isMonitoring := value |}
  else m.

(** [clearAllDevices()] *)
Definition clearAllDevices (m : Manager) : Manager :=
  let s := state m in
  let hadDevices := match devices s with [] => false | _ => true end in
  let hadActiveDevice := match activeDeviceId s with Some _ => true | None => false end in
  let hadDeviceInfo := match deviceInfo s with [] => false | _ => true end in
  if hadDevices || hadActiveDevice || hadDeviceInfo then
    notifyListeners
      (with_state m
         {| devices := []; activeDeviceId := None;
            settings := settings s; toolStatus := toolStatus s;
            statusMessage := statusMessage s;
            deviceInfo := []; isMonitoring := isMonitoring s |})
  else m.

(** [reset()] *)
Definition reset (m : Manager) : Manager :=
  let s := state m in
  notifyListeners
    (with_state m
       {| devices := []; activeDeviceId := None;
          settings := settings s; toolStatus := toolStatus s;
          statusMessage := None; deviceInfo := []; isMonitoring := false |}).

(** The calls a client of the manager makes, and the end of a job. *)
Inductive Step : Type :=
| AddDevice (device : DeviceState)
| RemoveDevice (deviceId : string)
| UpdateDevice (deviceId : string) (updates : DeviceUpdates)
| SetActiveDevice (deviceId : option string)
| UpdateSettings (updates : Json)
| UpdateToolStatus (status : Json)
| SetStatusMessage (message : option Json)
| ClearStatusMessage
| SetDeviceInfo (serial : string) (info : Json)
| RemoveDeviceInfo (serial : string)
| ClearDeviceInfo
| SetMonitoring (value : bool)
| ClearAllDevices
| Reset
| EndOfJob.

Definition step (st : Step) (m : Manager) : Manager :=
  match st with
  | AddDevice device => addDevice device m
  | RemoveDevice id => removeDevice id m
  | UpdateDevice id updates => updateDevice id updates m
  | SetActiveDevice id => setActiveDevice id m
  | UpdateSettings updates => updateSettings updates m
  | UpdateToolStatus status => updateToolStatus status m
  | SetStatusMessage message => setStatusMessage message m
  | ClearStatusMessage => clearStatusMessage m
  | SetDeviceInfo serial info => setDeviceInfo serial info m
  | RemoveDeviceInfo serial => removeDeviceInfo serial m
  | ClearDeviceInfo => clearDeviceInfo m
  | SetMonitoring value => setMonitoring value m
  | ClearAllDevices => clearAllDevices m
  | Reset => reset m
  | EndOfJob => drain m
  end.

Definition run (steps : list Step) (m : Manager) : Manager :=
  fold_left (fun m st => step st m) steps m.

(** The snapshot the listeners saw last: the last one delivered, or the
    snapshot of a new manager when none was. *)
Definition last_seen (m : Manager) : AppStateSnapshot :=
  last (delivered m) (getSnapshot (state new_manager)).

(** Listeners are up to date or about to be: one microtask is queued exactly
    when [notifyScheduled] is set, and when it is not set the last snapshot
    they saw is the current one. *)
Definition up_to_date (m : Manager) : Prop :=
  if notifyScheduled m
  then microtasks m = 1%nat
  else microtasks m = 0%nat /\ last_seen m = getSnapshot (state m).

End WithJson.

Arguments deviceId {Json} d.
Arguments serial {Json} d.
Arguments isActive {Json} d.
Arguments other {Json} d.
Arguments devices {Json} a.
Arguments activeDeviceId {Json} a.
Arguments deviceInfo {Json} a.
Arguments statusMessage {Json} a.
Arguments isMonitoring {Json} a.
Arguments state {Json} m.
Arguments notifyScheduled {Json} m.
Arguments microtasks {Json} m.
Arguments delivered {Json} m.
Arguments getSnapshot {Json} s.
Arguments snapshot_devices {Json} a.
Arguments snapshot_activeDeviceId {Json} a.
Arguments last_seen {Json} initial_settings initial_toolStatus m.
Arguments up_to_date {Json} initial_settings initial_toolStatus m.
Arguments new_manager {Json} initial_settings initial_toolStatus.
Arguments drain {Json} m.
Arguments run_microtask {Json} m.
Arguments notifyListeners {Json} m.
Arguments step {Json} spread st m.
Arguments run {Json} spread steps m.
Arguments setActiveDevice {Json} id m.
Arguments removeDevice {Json} id m.

End AppStateManager.

(* ===================================================================== *)
(** * Properties *)
(* ===================================================================== *)

(** ** Loops and bytes *)

Lemma byte_val_range b : (0 <= byte_val b < 256)%Z.
Proof.
  unfold byte_val. pose proof (Byte.to_N_bounded b). lia.
Qed.

Lemma for_range_none {A} (body : nat -> option A) n : forall i,
  for_range body i n = None <-> (forall j, i <= j < i + n -> body j = None).
Proof.
  induction n as [|n IH]; intros i; simpl.
  - split; [intros _ j Hj; lia | reflexivity].
  - destruct (body i) eqn:Hb.
    + split; [discriminate|]. intros H. rewrite H in Hb by lia. discriminate.
    + rewrite IH. split; intros H j Hj.
      * destruct (Nat.eq_dec j i) as [->|Hne]; [assumption|]. apply H; lia.
      * apply H; lia.
Qed.

Lemma for_range_some {A} (body : nat -> option A) n : forall i r,
  for_range body i n = Some r ->
  exists j, i <= j < i + n /\ body j = Some r /\
            (forall k, i <= k < j -> body k = None).
Proof.
  induction n as [|n IH]; intros i r; simpl; [discriminate|].
  destruct (body i) eqn:Hb.
  - intros [= <-]. exists i. repeat split; [lia | lia | assumption | intros; lia].
  - intros H. destruct (IH _ _ H) as (j & Hj & Hr & Hfirst).
    exists j. repeat split; [lia | lia | assumption |].
    intros k Hk. destruct (Nat.eq_dec k i) as [->|Hne]; [assumption|].
    apply Hfirst; lia.
Qed.

Lemma for_range_hit {A} (body : nat -> option A) n i j r :
  i <= j < i + n -> body j = Some r -> for_range body i n <> None.
Proof.
  intros Hj Hb Hnone. rewrite for_range_none in Hnone.
  rewrite (Hnone j Hj) in Hb. discriminate.
Qed.

(** ** CodecUtils: scanning *)

Module CodecUtilsFacts.
Import CodecUtils AnnexB.
Local Open Scope Z_scope.

Lemma byte_val_inj a b : byte_val a = byte_val b -> a = b.
Proof.
  unfold byte_val. intros H. apply N2Z.inj in H.
  pose proof (Byte.of_to_N a) as Ha. rewrite H, Byte.of_to_N in Ha.
  congruence.
Qed.

Lemma eqq_true d i v :
  eqq (at_ d i) v = true <-> exists b, nth_error d i = Some b /\ byte_val b = v.
Proof.
  unfold eqq, at_. destruct (nth_error d i) as [b|].
  - rewrite Z.eqb_eq. split.
    + intros H. exists b. auto.
    + intros (b' & [= <-] & H). exact H.
  - split; [discriminate | intros (b & Hb & _); discriminate].
Qed.

Lemma eqq_zero d i : eqq (at_ d i) 0 = true <-> nth_error d i = Some x00.
Proof.
  rewrite eqq_true. split.
  - intros (b & Hb & Hv). rewrite Hb. f_equal. apply byte_val_inj. rewrite Hv. reflexivity.
  - intros H. exists x00. split; [assumption | reflexivity].
Qed.

Lemma eqq_one d i : eqq (at_ d i) 1 = true <-> nth_error d i = Some x01.
Proof.
  rewrite eqq_true. split.
  - intros (b & Hb & Hv). rewrite Hb. f_equal. apply byte_val_inj. rewrite Hv. reflexivity.
  - intros H. exists x01. split; [assumption | reflexivity].
Qed.

Lemma start_code3_test d i :
  eqq (at_ d i) 0 && eqq (at_ d (i + 1)) 0 && eqq (at_ d (i + 2)) 1 = true
  <-> start_code3_at d i.
Proof.
  unfold start_code3_at.
  rewrite !andb_true_iff, !eqq_zero, eqq_one. tauto.
Qed.

Lemma start_code4_test d i :
  eqq (at_ d i) 0 && eqq (at_ d (i + 1)) 0 && eqq (at_ d (i + 2)) 0 &&
  eqq (at_ d (i + 3)) 1 = true
  <-> start_code4_at d i.
Proof.
  unfold start_code4_at.
  rewrite !andb_true_iff, !eqq_zero, eqq_one. tauto.
Qed.

Lemma start_codes_exclusive d i : start_code3_at d i -> start_code4_at d i -> False.
Proof.
  intros (_ & _ & H3) (_ & _ & H4 & _). congruence.
Qed.

(** The offset computed by the two [find] functions. *)
Lemma start_code_offset_spec d i :
  (start_code3_at d i /\ start_code_offset d i = 3%nat) \/
  (start_code4_at d i /\ start_code_offset d i = 4%nat) \/
  (~ start_code_at d i /\ start_code_offset d i = 0%nat).
Proof.
  unfold start_code_offset.
  destruct (eqq (at_ d i) 0 && eqq (at_ d (i + 1)) 0 && eqq (at_ d (i + 2)) 1) eqn:H3.
  - left. split; [apply start_code3_test; assumption | reflexivity].
  - destruct (eqq (at_ d i) 0 && eqq (at_ d (i + 1)) 0 && eqq (at_ d (i + 2)) 0 &&
              eqq (at_ d (i + 3)) 1) eqn:H4.
    + right; left. split; [apply start_code4_test; assumption | reflexivity].
    + right; right. split; [|reflexivity].
      intros [H|H].
      * apply start_code3_test in H. congruence.
      * apply start_code4_test in H. congruence.
Qed.

(** The start-code test and offset of the two [contains...IDR] functions agree
    with [start_code_offset]. *)
Lemma is_start_code_offset d i :
  is_start_code d i = (0 <? start_code_offset d i)%nat.
Proof.
  unfold is_start_code, start_code_offset.
  destruct (eqq (at_ d i) 0 && eqq (at_ d (i + 1)) 0 && eqq (at_ d (i + 2)) 1);
    [reflexivity|].
  destruct (eqq (at_ d i) 0 && eqq (at_ d (i + 1)) 0 && eqq (at_ d (i + 2)) 0 &&
            eqq (at_ d (i + 3)) 1); reflexivity.
Qed.

Lemma idr_offset d i :
  is_start_code d i = true ->
  (if eqq (at_ d (i + 2)) 1 then 3%nat else 4%nat) = start_code_offset d i.
Proof.
  rewrite is_start_code_offset.
  destruct (start_code_offset_spec d i) as [[H E]|[[H E]|[H E]]]; rewrite E; intros Hpos.
  - destruct H as (_ & _ & H2). apply eqq_one in H2. rewrite H2. reflexivity.
  - destruct H as (_ & _ & H2 & _).
    destruct (eqq (at_ d (i + 2)) 1) eqn:E1; [|reflexivity].
    apply eqq_one in E1. congruence.
  - discriminate.
Qed.

Lemma header_test_spec (p : Z -> bool) d i :
  p 0 = false ->
  (header_test p d i = true <-> exists b, nal_header_at d i b /\ p (byte_val b) = true).
Proof.
  intros Hp0. unfold header_test, nal_header_at, at_.
  destruct (start_code_offset_spec d i) as [[H E]|[[H E]|[H E]]]; rewrite E; simpl.
  - split.
    + destruct (nth_error d (i + 3)) as [b|] eqn:Hb; simpl; [|congruence].
      intros Hpb. exists b. split; [left; split; [assumption | reflexivity] | assumption].
    + intros (b & [[_ Hb]|[H4 _]] & Hpb).
      * rewrite Hb. exact Hpb.
      * exfalso. eapply start_codes_exclusive; eassumption.
  - split.
    + destruct (nth_error d (i + 4)) as [b|] eqn:Hb; simpl; [|congruence].
      intros Hpb. exists b. split; [right; split; [assumption | reflexivity] | assumption].
    + intros (b & [[H3 _]|[_ Hb]] & Hpb).
      * exfalso. eapply start_codes_exclusive; eassumption.
      * rewrite Hb. exact Hpb.
  - split; [discriminate|].
    intros (b & [[H3 _]|[H4 _]] & _); exfalso; apply H; [left|right]; assumption.
Qed.

(** A scan loop finds something exactly when a start code inside its
    window is followed by a header passing the test. *)
Lemma scan_window (p : Z -> bool) {A} (body : nat -> option A) (d : Uint8Array) :
  p 0 = false ->
  (forall i, body i <> None <-> header_test p d i = true) ->
  (for_range body 0 (List.length d - 4) <> None
   <-> contains_nal_in_window d (fun b => p (byte_val b) = true)).
Proof.
  intros Hp0 Hbody. unfold contains_nal_in_window. split.
  - intros Hne.
    destruct (for_range body 0 (List.length d - 4)) as [r|] eqn:Hr; [|congruence].
    apply for_range_some in Hr. destruct Hr as (j & Hj & Hbj & _).
    assert (Hh : header_test p d j = true) by (apply Hbody; congruence).
    apply header_test_spec in Hh; [|assumption].
    destruct Hh as (b & Hn & Hpb). exists j, b. repeat split; [lia | assumption | assumption].
  - intros (i & b & Hi & Hn & Hpb) Hnone.
    rewrite for_range_none in Hnone.
    assert (Hh : header_test p d i = true)
      by (apply header_test_spec; [assumption | exists b; split; assumption]).
    apply Hbody in Hh. apply Hh. apply Hnone. lia.
Qed.

Example detect_fixture : detectCodec H264_SPS_1920x1080 = Some h264.
Proof. reflexivity. Qed.

Example detect_h265_vps :
  detectCodec [x00; x00; x00; x01; x40; x01; x0c; x01] = Some h265.
Proof. reflexivity. Qed.

Example detect_no_start_code : detectCodec INVALID_DATA_noStartCode = None.
Proof. reflexivity. Qed.

Example detect_non_config_nal :
  detectCodec [x00; x00; x00; x01; x21; x00; x00] = None.
Proof. reflexivity. Qed.

Example keyframe_4byte :
  containsKeyFrame [x00; x00; x00; x01; x65; x88; x84; x00] h264 = true.
Proof. reflexivity. Qed.

Example keyframe_non_idr :
  containsKeyFrame [x00; x00; x00; x01; x41; x9a; x24; x00] h264 = false.
Proof. reflexivity. Qed.

Example keyframe_h265_idr_w_radl :
  containsKeyFrame [x00; x00; x00; x01; x26; x01; x00; x00] h265 = true.
Proof. reflexivity. Qed.

Example keyframe_h265_p_slice :
  containsKeyFrame [x00; x00; x00; x01; x02; x01; x00; x00] h265 = false.
Proof. reflexivity. Qed.

Example keyframe_av1 : containsKeyFrame [x0a; x00; x00; x00] av1 = false.
Proof. reflexivity. Qed.

Example keyframe_3byte :
  containsKeyFrame [x00; x00; x01; x65; x88; x84; x00] h264 = true.
Proof. reflexivity. Qed.

Lemma findH264SPS_body_test d i :
  findH264SPS_body d i <> None <-> header_test sps_test d i = true.
Proof.
  unfold findH264SPS_body, header_test, sps_test.
  destruct (0 <? start_code_offset d i)%nat; simpl; [|split; congruence].
  destruct (Z.land _ _ =? _); split; congruence.
Qed.

Lemma findH265ConfigNAL_body_test d i :
  findH265ConfigNAL_body d i <> None <-> header_test h265_config_test d i = true.
Proof.
  unfold findH265ConfigNAL_body, header_test, h265_config_test.
  destruct (0 <? start_code_offset d i)%nat; simpl; [|split; congruence].
  destruct (_ || _); split; congruence.
Qed.

Lemma containsH264IDR_body_test d i :
  containsH264IDR_body d i <> None <-> header_test idr_test d i = true.
Proof.
  unfold containsH264IDR_body, header_test, idr_test.
  destruct (is_start_code d i) eqn:Hs.
  - rewrite (idr_offset _ _ Hs). rewrite is_start_code_offset in Hs. rewrite Hs. simpl.
    destruct (Z.land _ _ =? _); split; congruence.
  - rewrite is_start_code_offset in Hs. rewrite Hs. simpl. split; congruence.
Qed.

Lemma containsH265IDR_body_test d i :
  containsH265IDR_body d i <> None <-> header_test h265_idr_test d i = true.
Proof.
  unfold containsH265IDR_body, header_test, h265_idr_test.
  destruct (is_start_code d i) eqn:Hs.
  - rewrite (idr_offset _ _ Hs). rewrite is_start_code_offset in Hs. rewrite Hs. simpl.
    destruct (_ || _); split; congruence.
  - rewrite is_start_code_offset in Hs. rewrite Hs. simpl. split; congruence.
Qed.

Lemma in_window_ext d (p q : byte -> Prop) :
  (forall b, p b <-> q b) ->
  (contains_nal_in_window d p <-> contains_nal_in_window d q).
Proof.
  intros H. unfold contains_nal_in_window.
  split; intros (i & b & Hi & Hn & Hb); exists i, b; repeat split; try assumption;
    apply H; assumption.
Qed.

Lemma sps_test_spec b : sps_test (byte_val b) = true <-> is_h264_sps b.
Proof. unfold sps_test, is_h264_sps, h264_nal_type. apply Z.eqb_eq. Qed.

Lemma idr_test_spec b : idr_test (byte_val b) = true <-> is_h264_idr b.
Proof. unfold idr_test, is_h264_idr, h264_nal_type. apply Z.eqb_eq. Qed.

Lemma h265_config_test_spec b : h265_config_test (byte_val b) = true <-> is_h265_config b.
Proof.
  unfold h265_config_test, is_h265_config, h265_nal_type. cbv zeta.
  rewrite !orb_true_iff, !Z.eqb_eq. tauto.
Qed.

Lemma h265_idr_test_spec b : h265_idr_test (byte_val b) = true <-> is_h265_idr b.
Proof.
  unfold h265_idr_test, is_h265_idr, h265_nal_type. cbv zeta.
  rewrite !orb_true_iff, !Z.eqb_eq. tauto.
Qed.

(** What each of the four scans decides. *)
Lemma findH264SPS_found d :
  findH264SPS d <> None <-> contains_nal_in_window d is_h264_sps.
Proof.
  unfold findH264SPS.
  rewrite (scan_window sps_test (findH264SPS_body d) d eq_refl (findH264SPS_body_test d)).
  apply in_window_ext, sps_test_spec.
Qed.

Lemma findH265ConfigNAL_found d :
  findH265ConfigNAL d = true <-> contains_nal_in_window d is_h265_config.
Proof.
  unfold findH265ConfigNAL.
  rewrite <- (in_window_ext d _ _ h265_config_test_spec).
  rewrite <- (scan_window h265_config_test (findH265ConfigNAL_body d) d eq_refl
                (findH265ConfigNAL_body_test d)).
  destruct (for_range _ 0 _) as [r|] eqn:Hr.
  - apply for_range_some in Hr. destruct Hr as (j & _ & Hj & _).
    unfold findH265ConfigNAL_body in Hj.
    destruct (0 <? _)%nat; [|discriminate]. destruct (_ || _); [|discriminate].
    injection Hj as <-. split; congruence.
  - split; congruence.
Qed.

Lemma containsH264IDR_found d :
  containsH264IDR d = true <-> contains_nal_in_window d is_h264_idr.
Proof.
  unfold containsH264IDR.
  rewrite <- (in_window_ext d _ _ idr_test_spec).
  rewrite <- (scan_window idr_test (containsH264IDR_body d) d eq_refl
                (containsH264IDR_body_test d)).
  destruct (for_range _ 0 _) as [r|] eqn:Hr.
  - apply for_range_some in Hr. destruct Hr as (j & _ & Hj & _).
    unfold containsH264IDR_body in Hj.
    destruct (is_start_code d j); [|discriminate]. destruct (_ =? _); [|discriminate].
    injection Hj as <-. split; congruence.
  - split; congruence.
Qed.

Lemma containsH265IDR_found d :
  containsH265IDR d = true <-> contains_nal_in_window d is_h265_idr.
Proof.
  unfold containsH265IDR.
  rewrite <- (in_window_ext d _ _ h265_idr_test_spec).
  rewrite <- (scan_window h265_idr_test (containsH265IDR_body d) d eq_refl
                (containsH265IDR_body_test d)).
  destruct (for_range _ 0 _) as [r|] eqn:Hr.
  - apply for_range_some in Hr. destruct Hr as (j & _ & Hj & _).
    unfold containsH265IDR_body in Hj.
    destruct (is_start_code d j); [|discriminate]. destruct (_ || _); [|discriminate].
    injection Hj as <-. split; congruence.
  - split; congruence.
Qed.

Lemma in_window_start_code d p :
  contains_nal_in_window d p -> exists i, start_code_at d i.
Proof.
  intros (i & b & _ & [[H _]|[H _]] & _); exists i; [left|right]; assumption.
Qed.

Lemma in_window_contains d p : contains_nal_in_window d p -> contains_nal d p.
Proof.
  intros (i & b & _ & Hn & Hb). exists i, b. split; assumption.
Qed.

(** ** CodecUtils: codec detection and keyframes *)

(** C3, as stated, fails: a 3-byte start code whose header byte is the last
    byte of the buffer lies outside the scan window [i < length - 4]. *)
Lemma detectCodec_misses_trailing_header :
  contains_nal [x01; x00; x00; x01; x67] is_h264_sps /\
  detectCodec [x01; x00; x00; x01; x67] = None /\
  contains_nal [x01; x00; x00; x01; x40] is_h265_config /\
  ~ contains_nal [x01; x00; x00; x01; x40] is_h264_sps /\
  detectCodec [x01; x00; x00; x01; x40] = None.
Proof.
  split; [|split; [reflexivity|split; [|split; [|reflexivity]]]].
  - exists 1%nat, x67. split; [|reflexivity].
    left. repeat split; reflexivity.
  - exists 1%nat, x40. split; [|left; reflexivity].
    left. repeat split; reflexivity.
  - intros (i & b & Hn & Hb).
    destruct Hn as [[(H0 & H1 & H2) H]|[(H0 & H1 & H2 & H3) H]];
      destruct i as [|[|[|[|[|[|i]]]]]]; simpl in *; try discriminate.
    injection H as <-. discriminate Hb.
Qed.

(** C3 (amended): [detectCodec] answers ['h264'] when a start code beginning at
    an index [i] with [i + 4 < length] is followed by a byte whose low 5 bits
    are 7; ['h265'] when there is no such SPS and such a start code is
    followed by a byte whose bits 1-6 are 32, 33 or 34; and [null] when the
    buffer holds no start code at all. *)
Theorem detectCodec_in_window (config : Uint8Array) :
  (contains_nal_in_window config is_h264_sps -> detectCodec config = Some h264) /\
  (~ contains_nal_in_window config is_h264_sps ->
   contains_nal_in_window config is_h265_config -> detectCodec config = Some h265) /\
  ((forall i, ~ start_code_at config i) -> detectCodec config = None).
Proof.
  unfold detectCodec. repeat split.
  - intros H. apply findH264SPS_found in H.
    destruct (findH264SPS config); [reflexivity | congruence].
  - intros Hno H. apply findH265ConfigNAL_found in H. rewrite H.
    destruct (findH264SPS config) eqn:Hs; [|reflexivity].
    exfalso. apply Hno. apply findH264SPS_found. congruence.
  - intros Hno.
    destruct (findH264SPS config) eqn:Hs.
    + assert (H : findH264SPS config <> None) by congruence.
      apply findH264SPS_found, in_window_start_code in H. destruct H as (i & H).
      exfalso. exact (Hno i H).
    + destruct (findH265ConfigNAL config) eqn:Hc; [|reflexivity].
      apply findH265ConfigNAL_found, in_window_start_code in Hc. destruct Hc as (i & H).
      exfalso. exact (Hno i H).
Qed.

Lemma no_start_code_in_fixture : forall i, ~ start_code_at INVALID_DATA_noStartCode i.
Proof.
  intros i [(H0 & _)|(H0 & _)];
    destruct i as [|[|[|[|[|[|i]]]]]]; simpl in *; discriminate.
Qed.

Lemma detectCodec_in_window_witness :
  detectCodec H264_SPS_1920x1080 = Some h264 /\
  detectCodec [x00; x00; x00; x01; x40; x01; x0c; x01] = Some h265 /\
  detectCodec INVALID_DATA_noStartCode = None.
Proof.
  split; [|split].
  - apply (detectCodec_in_window H264_SPS_1920x1080).
    exists 0%nat, x67. split; [simpl; lia|]. split; [|reflexivity].
    right. repeat split; reflexivity.
  - apply (detectCodec_in_window [x00; x00; x00; x01; x40; x01; x0c; x01]).
    + intros H. apply findH264SPS_found in H. apply H. reflexivity.
    + exists 0%nat, x40. split; [simpl; lia|]. split; [|left; reflexivity].
      right. repeat split; reflexivity.
  - apply (detectCodec_in_window INVALID_DATA_noStartCode).
    exact no_start_code_in_fixture.
Defined.

(** C4, as stated, fails near the end of the buffer: the IDR header that
    follows a 3-byte start code in the last four bytes is not seen. *)
Lemma containsKeyFrame_misses_trailing_header :
  contains_nal [x01; x00; x00; x01; x65] is_h264_idr /\
  containsKeyFrame [x01; x00; x00; x01; x65] h264 = false /\
  contains_nal [x01; x00; x00; x01; x26] is_h265_idr /\
  containsKeyFrame [x01; x00; x00; x01; x26] h265 = false.
Proof.
  split; [|split; [reflexivity|split; [|reflexivity]]].
  - exists 1%nat, x65. split; [|reflexivity].
    left. repeat split; reflexivity.
  - exists 1%nat, x26. split; [|left; reflexivity].
    left. repeat split; reflexivity.
Qed.

(** C4 (amended): [containsKeyFrame(data, 'h264')] is true exactly when a start
    code beginning at an index [i] with [i + 4 < length] is followed by a NAL
    header of type 5; for ['h265'], of type 19 or 20; for ['av1'] it is false
    on every buffer. *)
Theorem containsKeyFrame_scans_window (data : Uint8Array) :
  (containsKeyFrame data h264 = true <-> contains_nal_in_window data is_h264_idr) /\
  (containsKeyFrame data h265 = true <-> contains_nal_in_window data is_h265_idr) /\
  containsKeyFrame data av1 = false.
Proof.
  split; [|split].
  - apply containsH264IDR_found.
  - apply containsH265IDR_found.
  - reflexivity.
Qed.

Lemma containsKeyFrame_scans_window_witness :
  containsKeyFrame [x41; x00; x00; x00; x01; x65; x88] h264 = true /\
  containsKeyFrame [x00; x00; x01; x28; x01] h265 = true.
Proof.
  split.
  - apply (containsKeyFrame_scans_window [x41; x00; x00; x00; x01; x65; x88]).
    exists 1%nat, x65. split; [simpl; lia|]. split; [|reflexivity].
    right. repeat split; reflexivity.
  - apply (containsKeyFrame_scans_window [x00; x00; x01; x28; x01]).
    exists 0%nat, x28. split; [simpl; lia|]. split; [|right; reflexivity].
    left. repeat split; reflexivity.
Defined.

(** ** CodecUtils: SPS geometry *)

(** C2, as stated, fails for a unit cut short: the truncated fixture
    (start code and SPS header, nothing after) holds no SPS, not even the
    three fixed bytes; the scan still finds the header, and when the parser
    does not reject the one byte it is given the function returns
    dimensions, not [null]. *)
Lemma truncated_sps_is_not_null :
  ~ holds_sps_fixed_fields INVALID_DATA_truncated /\
  findH264SPS INVALID_DATA_truncated = Some [x67] /\
  parseH264SPSDimensions accepting_parser INVALID_DATA_truncated
  = Normal (Some {| width := 0; height := 0 |}).
Proof.
  split; [|split; reflexivity].
  intros (i & b & _ & [(_ & _ & Hlen) | (_ & _ & Hlen)]); cbn in Hlen; lia.
Qed.

(** C2 (amended): [parseH264SPSDimensions] returns normally on every buffer,
    whatever the SPS parser does (return or throw).  It returns [null]
    exactly when the scan window holds no type-7 header, or the parser throws
    on the bytes from that header on, or the parsed object has the cropping
    flag set and no cropping rectangle; otherwise it returns the dimensions
    computed from whatever the parser returned.  In particular it returns
    [null] when no start code is followed by a type-7 header, and on the
    empty buffer. *)
Theorem parseH264SPSDimensions_never_throws
    (parseSPS : Uint8Array -> Completion SPS) (config : Uint8Array) :
  (exists r, parseH264SPSDimensions parseSPS config = Normal r) /\
  (parseH264SPSDimensions parseSPS config = Normal None <->
   ~ contains_nal_in_window config is_h264_sps \/
   exists spsData,
     findH264SPS config = Some spsData /\
     ((exists e, parseSPS spsData = Throw e) \/
      (exists sps, parseSPS spsData = Normal sps /\
                   frame_cropping_flag sps <> 0 /\ frame_cropping sps = None))) /\
  (~ contains_nal config is_h264_sps ->
   parseH264SPSDimensions parseSPS config = Normal None) /\
  parseH264SPSDimensions parseSPS [] = Normal None.
Proof.
  assert (Hdims : forall sps,
            (exists d, dimensions_of_sps sps = Normal d) \/
            ((exists e, dimensions_of_sps sps = Throw e) /\
             frame_cropping_flag sps <> 0 /\ frame_cropping sps = None)).
  { intros sps. unfold dimensions_of_sps.
    destruct (frame_cropping_flag sps =? 0) eqn:Hflag; cbn [negb].
    - left. cbn [cbind]. eauto.
    - apply Z.eqb_neq in Hflag. destruct (frame_cropping sps) as [crop|].
      + left. destruct (chroma_format_idc sps =? 2);
          [|destruct (chroma_format_idc sps =? 3)]; cbn [cbind]; eauto.
      + right. cbn [cbind]. split; [eauto | split; [exact Hflag | reflexivity]]. }
  split; [|split; [|split]].
  - unfold parseH264SPSDimensions.
    destruct (findH264SPS config) as [spsData|]; [|eauto].
    destruct (parseSPS spsData) as [sps|e]; cbn [cbind try_catch]; [|eauto].
    destruct (dimensions_of_sps sps); cbn [cbind try_catch]; eauto.
  - pose proof (findH264SPS_found config) as Hfound.
    unfold parseH264SPSDimensions.
    destruct (findH264SPS config) as [spsData|] eqn:Hfind.
    + assert (Hin : contains_nal_in_window config is_h264_sps)
        by (apply Hfound; discriminate).
      destruct (parseSPS spsData) as [sps|e] eqn:Hparse; cbn [cbind try_catch].
      * destruct (Hdims sps) as [[d Hd] | ([e He] & Hflag & Hcrop)].
        -- rewrite Hd. cbn [cbind try_catch]. split; [discriminate|].
           intros [Hno | (spsData' & [= <-] & [[e He] | (sps' & Hs & Hflag & Hcrop)])].
           ++ contradiction.
           ++ congruence.
           ++ assert (sps' = sps) by congruence. subst sps'.
              unfold dimensions_of_sps in Hd.
              apply Z.eqb_neq in Hflag. rewrite Hflag, Hcrop in Hd. discriminate Hd.
        -- rewrite He. cbn [cbind try_catch]. split; [|reflexivity].
           intros _. right. exists spsData. split; [reflexivity|].
           right. exists sps. auto.
      * split; [|reflexivity]. intros _. right. exists spsData.
        split; [reflexivity|]. left. eauto.
    + split; [|reflexivity]. intros _. left. intros Hin.
      apply Hfound in Hin. congruence.
  - intros Hnot. unfold parseH264SPSDimensions.
    destruct (findH264SPS config) as [spsData|] eqn:Hfind; [|reflexivity].
    exfalso. apply Hnot. apply in_window_contains, findH264SPS_found. congruence.
  - reflexivity.
Qed.

(** C9: when the SPS is found and parsed, the dimensions returned are
    [pic_width_in_mbs * 16 - (crop_left + crop_right) * SubWidthC] by
    [pic_height_in_map_units * 16 * (2 - frame_mbs_only_flag)
     - (crop_top + crop_bottom) * SubHeightC * (2 - frame_mbs_only_flag)],
    with (SubWidthC, SubHeightC) = (2,1) for chroma_format_idc 2, (1,1) for 3
    and (2,2) otherwise, and with nothing subtracted when frame_cropping_flag
    is 0. *)
Theorem parseH264SPSDimensions_formula
    (parseSPS : Uint8Array -> Completion SPS) (config spsData : Uint8Array)
    (sps : SPS) (crop : Crop) :
  findH264SPS config = Some spsData ->
  parseSPS spsData = Normal sps ->
  (frame_cropping_flag sps <> 0 -> frame_cropping sps = Some crop) ->
  parseH264SPSDimensions parseSPS config = Normal (Some (spec_dimensions sps crop)).
Proof.
  intros Hfind Hparse Hcrop.
  unfold parseH264SPSDimensions. rewrite Hfind, Hparse. cbn [cbind].
  unfold dimensions_of_sps, spec_dimensions.
  destruct (Z.eq_dec (frame_cropping_flag sps) 0) as [Hz|Hnz].
  - rewrite (proj2 (Z.eqb_eq _ _) Hz). cbn [negb cbind try_catch].
    rewrite !Z.sub_0_r. reflexivity.
  - rewrite (proj2 (Z.eqb_neq _ _) Hnz), (Hcrop Hnz). cbn [negb].
    unfold SubWidthC, SubHeightC.
    destruct (Z.eqb (chroma_format_idc sps) 2) eqn:E2;
      destruct (Z.eqb (chroma_format_idc sps) 3) eqn:E3;
      try (apply Z.eqb_eq in E2; apply Z.eqb_eq in E3; exfalso; lia);
      cbn [cbind try_catch]; rewrite ?Z.mul_assoc; reflexivity.
Qed.

Lemma parseH264SPSDimensions_formula_witness :
  parseH264SPSDimensions (fun _ => Normal sps_1920x1080) H264_SPS_1920x1080
  = Normal (Some {| width := 1920; height := 1080 |}).
Proof.
  apply (parseH264SPSDimensions_formula
           (fun _ => Normal sps_1920x1080) H264_SPS_1920x1080
           (skipn 4 H264_SPS_1920x1080) sps_1920x1080
           {| left := 0; right := 0; top := 0; bottom := 4 |}).
  - reflexivity.
  - reflexivity.
  - intros _. reflexivity.
Defined.

End CodecUtilsFacts.

(** ** iOSConnection: framing *)

Module IOSConnectionFacts.
Import IOSConnection.
Local Open Scope Z_scope.

Lemma byte_val_of_Z z : byte_val (byte_of_Z z) = z mod 256.
Proof.
  unfold byte_of_Z, byte_val.
  assert (Hr : 0 <= z mod 256 < 256) by (apply Z.mod_pos_bound; lia).
  destruct (Byte.of_N (Z.to_N (z mod 256))) as [b|] eqn:Hb.
  - apply Byte.to_of_N in Hb. rewrite Hb. lia.
  - apply Byte.of_N_None_iff in Hb. lia.
Qed.

Lemma readUInt32BE_nonneg b0 b1 b2 b3 : 0 <= readUInt32BE b0 b1 b2 b3.
Proof.
  unfold readUInt32BE.
  pose proof (byte_val_range b0). pose proof (byte_val_range b1).
  pose proof (byte_val_range b2). pose proof (byte_val_range b3).
  change (2 ^ 24) with 16777216. change (2 ^ 16) with 65536. change (2 ^ 8) with 256.
  lia.
Qed.

Lemma read_write_UInt32BE n :
  0 <= n < 2 ^ 32 ->
  writeUInt32BE n =
    [byte_of_Z (n / 2 ^ 24); byte_of_Z (n / 2 ^ 16); byte_of_Z (n / 2 ^ 8); byte_of_Z n] /\
  readUInt32BE (byte_of_Z (n / 2 ^ 24)) (byte_of_Z (n / 2 ^ 16))
               (byte_of_Z (n / 2 ^ 8)) (byte_of_Z n) = n.
Proof.
  intros Hn. split; [reflexivity|].
  unfold readUInt32BE. rewrite !byte_val_of_Z.
  change (2 ^ 32) with 4294967296 in Hn.
  change (2 ^ 24) with 16777216. change (2 ^ 16) with 65536. change (2 ^ 8) with 256.
  Z.div_mod_to_equations. lia.
Qed.

(** The three ways one turn of the [while] loop can go. *)
Lemma processBuffer_short buf :
  (List.length buf < 5)%nat -> processBuffer buf = ([], buf).
Proof.
  intros H. do 5 (destruct buf as [|? buf]; [simp processBuffer; reflexivity|]).
  simpl in H. lia.
Qed.

Lemma processBuffer_incomplete t b0 b1 b2 b3 rest :
  Z.of_nat (List.length rest) < readUInt32BE b0 b1 b2 b3 ->
  processBuffer (t :: b0 :: b1 :: b2 :: b3 :: rest)
  = ([], t :: b0 :: b1 :: b2 :: b3 :: rest).
Proof.
  intros H. rewrite processBuffer_equation_6.
  replace (Z.of_nat (List.length (t :: b0 :: b1 :: b2 :: b3 :: rest))
             <? 5 + readUInt32BE b0 b1 b2 b3) with true.
  - reflexivity.
  - symmetry. apply Z.ltb_lt. simpl List.length. lia.
Qed.

Lemma processBuffer_complete t b0 b1 b2 b3 rest :
  readUInt32BE b0 b1 b2 b3 <= Z.of_nat (List.length rest) ->
  processBuffer (t :: b0 :: b1 :: b2 :: b3 :: rest)
  = let n := Z.to_nat (readUInt32BE b0 b1 b2 b3) in
    ({| type := byte_val t; payload := firstn n rest |}
       :: fst (processBuffer (skipn n rest)),
     snd (processBuffer (skipn n rest))).
Proof.
  intros H. rewrite processBuffer_equation_6.
  replace (Z.of_nat (List.length (t :: b0 :: b1 :: b2 :: b3 :: rest))
             <? 5 + readUInt32BE b0 b1 b2 b3) with false.
  - cbn [processBuffer_unfold_clause_1]. cbv zeta.
    unfold subarray.
    replace (5 + Z.to_nat (readUInt32BE b0 b1 b2 b3) - 5)%nat
      with (Z.to_nat (readUInt32BE b0 b1 b2 b3)) by lia.
    change (skipn (5 + Z.to_nat (readUInt32BE b0 b1 b2 b3))
              (t :: b0 :: b1 :: b2 :: b3 :: rest))
      with (skipn (Z.to_nat (readUInt32BE b0 b1 b2 b3)) rest).
    change (skipn 5 (t :: b0 :: b1 :: b2 :: b3 :: rest)) with rest.
    destruct (processBuffer (skipn (Z.to_nat (readUInt32BE b0 b1 b2 b3)) rest)).
    reflexivity.
  - symmetry. apply Z.ltb_ge. simpl List.length. lia.
Qed.

(** Bytes arriving later never change what has already been framed: the
    loop on [a ++ b] makes the calls of the loop on [a], then carries on with
    what [a] left over followed by [b]. *)
Lemma processBuffer_app a : forall b,
  processBuffer (a ++ b)
  = (fst (processBuffer a) ++ fst (processBuffer (snd (processBuffer a) ++ b)),
     snd (processBuffer (snd (processBuffer a) ++ b))).
Proof.
  induction a as [a IH] using (well_founded_induction
    (Wf_nat.well_founded_ltof _ (@List.length byte))).
  intros b.
  destruct (Nat.lt_ge_cases (List.length a) 5) as [Hshort|Hlong].
  - rewrite (processBuffer_short a Hshort). simpl.
    destruct (processBuffer (a ++ b)); reflexivity.
  - destruct a as [|t [|b0 [|b1 [|b2 [|b3 rest]]]]]; simpl in Hlong; try lia.
    destruct (Z.lt_ge_cases (Z.of_nat (List.length rest)) (readUInt32BE b0 b1 b2 b3))
      as [Hinc|Hcomp].
    + rewrite (processBuffer_incomplete t b0 b1 b2 b3 rest Hinc). simpl.
      destruct (processBuffer _); reflexivity.
    + pose proof (readUInt32BE_nonneg b0 b1 b2 b3) as Hpos.
      set (n := Z.to_nat (readUInt32BE b0 b1 b2 b3)).
      assert (Hn : (n <= List.length rest)%nat) by (unfold n; lia).
      rewrite (processBuffer_complete t b0 b1 b2 b3 rest Hcomp).
      change ((t :: b0 :: b1 :: b2 :: b3 :: rest) ++ b)
        with (t :: b0 :: b1 :: b2 :: b3 :: (rest ++ b)).
      rewrite (processBuffer_complete t b0 b1 b2 b3 (rest ++ b))
        by (rewrite length_app; lia).
      cbv zeta. fold n. cbn [fst snd].
      rewrite firstn_app, skipn_app.
      replace (n - List.length rest)%nat with 0%nat by lia.
      rewrite firstn_O, skipn_O, app_nil_r.
      rewrite (IH (skipn n rest)).
      * reflexivity.
      * unfold Wf_nat.ltof. rewrite length_skipn. simpl. lia.
Qed.

(** What the loop leaves over holds no complete frame. *)
Lemma processBuffer_drained a :
  processBuffer (snd (processBuffer a)) = ([], snd (processBuffer a)).
Proof.
  induction a as [a IH] using (well_founded_induction
    (Wf_nat.well_founded_ltof _ (@List.length byte))).
  destruct (Nat.lt_ge_cases (List.length a) 5) as [Hshort|Hlong].
  - rewrite (processBuffer_short a Hshort). simpl. apply processBuffer_short, Hshort.
  - destruct a as [|t [|b0 [|b1 [|b2 [|b3 rest]]]]]; simpl in Hlong; try lia.
    destruct (Z.lt_ge_cases (Z.of_nat (List.length rest)) (readUInt32BE b0 b1 b2 b3))
      as [Hinc|Hcomp].
    + rewrite (processBuffer_incomplete t b0 b1 b2 b3 rest Hinc). simpl.
      apply processBuffer_incomplete, Hinc.
    + rewrite (processBuffer_complete t b0 b1 b2 b3 rest Hcomp). cbv zeta. cbn [snd].
      apply IH. unfold Wf_nat.ltof. rewrite length_skipn. simpl. lia.
Qed.

(** Feeding chunks one by one is framing their concatenation at once. *)
Lemma feed_concat chunks : forall buf,
  processBuffer buf = ([], buf) ->
  feed buf chunks = processBuffer (buf ++ List.concat chunks).
Proof.
  induction chunks as [|chunk more IH]; intros buf Hbuf.
  - simpl. rewrite app_nil_r. symmetry. exact Hbuf.
  - simpl. unfold handleHelperData.
    rewrite app_assoc, (processBuffer_app (buf ++ chunk)).
    destruct (processBuffer (buf ++ chunk)) as [calls left] eqn:Hc.
    assert (Hleft : processBuffer left = ([], left)).
    { pose proof (processBuffer_drained (buf ++ chunk)) as Hd.
      rewrite Hc in Hd. exact Hd. }
    rewrite (IH left Hleft). cbn [fst snd].
    destruct (processBuffer (left ++ List.concat more)); reflexivity.
Qed.

(** One complete frame at the head of the buffer is delivered whole. *)
Lemma processBuffer_frame t p rest :
  valid_frame (t, p) ->
  processBuffer (writeMessage t p ++ rest)
  = ({| type := byte_val t; payload := p |} :: fst (processBuffer rest),
     snd (processBuffer rest)).
Proof.
  unfold valid_frame. cbn [snd]. intros Hvalid.
  assert (Hn : 0 <= Z.of_nat (List.length p) < 2 ^ 32) by lia.
  destruct (read_write_UInt32BE _ Hn) as [Hw Hr].
  unfold writeMessage. rewrite Hw.
  cbn [app]. rewrite processBuffer_complete; rewrite Hr.
  - cbv zeta. rewrite Nat2Z.id.
    rewrite firstn_app, skipn_app, firstn_all, skipn_all, Nat.sub_diag.
    rewrite firstn_O, skipn_O, app_nil_r. reflexivity.
  - rewrite length_app. lia.
Qed.

Lemma processBuffer_stream frames :
  Forall valid_frame frames ->
  processBuffer (stream frames) = (delivered frames, []).
Proof.
  induction 1 as [|[t p] frames Hv _ IH].
  - reflexivity.
  - unfold stream in *. cbn [map List.concat fst snd].
    rewrite (processBuffer_frame t p _ Hv), IH. reflexivity.
Qed.

Lemma frame_prefix_incomplete t p k :
  valid_frame (t, p) ->
  (k < List.length (writeMessage t p))%nat ->
  processBuffer (firstn k (writeMessage t p)) = ([], firstn k (writeMessage t p)).
Proof.
  unfold valid_frame. cbn [snd]. intros Hvalid Hk.
  assert (Hn : 0 <= Z.of_nat (List.length p) < 2 ^ 32) by lia.
  destruct (read_write_UInt32BE _ Hn) as [Hw Hr].
  unfold writeMessage in *. rewrite Hw in *. cbn [app List.length] in Hk.
  destruct (Nat.lt_ge_cases k 5) as [Hshort|Hlong].
  - apply processBuffer_short. rewrite length_firstn. lia.
  - do 5 (destruct k as [|k]; [lia|]). cbn [app firstn].
    apply processBuffer_incomplete. rewrite Hr, length_firstn. lia.
Qed.

(** C1: framing is chunk-invariant.  Whatever way the concatenation of N
    valid frames is cut into chunks, the listener hands exactly those N
    messages to [processMessage], with their full payloads and in stream
    order, and ends on an empty buffer; and when the stream stops inside a
    frame (fewer bytes than its header declares), that frame is delivered
    neither whole nor in part: its bytes stay in [messageBuffer]. *)
Theorem framing_chunk_invariant (frames : list (byte * Buffer)) :
  Forall valid_frame frames ->
  (forall chunks,
     List.concat chunks = stream frames ->
     feed empty_buffer chunks = (delivered frames, empty_buffer) /\
     List.length (fst (feed empty_buffer chunks)) = List.length frames) /\
  (forall chunks t p k,
     valid_frame (t, p) ->
     (k < List.length (writeMessage t p))%nat ->
     List.concat chunks = stream frames ++ firstn k (writeMessage t p) ->
     feed empty_buffer chunks = (delivered frames, firstn k (writeMessage t p))).
Proof.
  intros Hvalid.
  assert (Hempty : processBuffer empty_buffer = ([], empty_buffer))
    by apply processBuffer_equation_1.
  split.
  - intros chunks Hcat.
    assert (Hfeed : feed empty_buffer chunks = (delivered frames, empty_buffer)).
    { rewrite (feed_concat chunks empty_buffer Hempty). cbn [app empty_buffer].
      rewrite Hcat. apply processBuffer_stream, Hvalid. }
    split; [exact Hfeed|].
    rewrite Hfeed. unfold delivered. cbn [fst]. apply length_map.
  - intros chunks t p k Hv Hk Hcat.
    rewrite (feed_concat chunks empty_buffer Hempty). cbn [app empty_buffer].
    rewrite Hcat, processBuffer_app, (processBuffer_stream frames Hvalid).
    cbn [fst snd app].
    rewrite (frame_prefix_incomplete t p k Hv Hk). cbn [fst snd].
    rewrite app_nil_r. reflexivity.
Qed.

Lemma framing_chunk_invariant_witness :
  feed empty_buffer
       [[x06; x00]; [x00; x00; x02; x68]; []; [x69; x04; x00; x00]; [x00; x00]]
  = ([ {| type := 6; payload := [x68; x69] |}; {| type := 4; payload := [] |} ],
     empty_buffer) /\
  feed empty_buffer [[x06; x00; x00]; [x00; x02; x68; x69; x03; x00; x00; x00]; [x09; x01]]
  = ([ {| type := 6; payload := [x68; x69] |} ],
     [x03; x00; x00; x00; x09; x01]).
Proof.
  assert (Hvalid : Forall valid_frame [(x06, [x68; x69]); (x04, [])]).
  { repeat constructor. }
  assert (Hvalid1 : Forall valid_frame [(x06, [x68; x69])]).
  { repeat constructor. }
  split.
  - apply (proj1 (framing_chunk_invariant [(x06, [x68; x69]); (x04, [])] Hvalid)
             [[x06; x00]; [x00; x00; x02; x68]; []; [x69; x04; x00; x00]; [x00; x00]]).
    vm_compute. reflexivity.
  - apply (proj2 (framing_chunk_invariant [(x06, [x68; x69])] Hvalid1)
             [[x06; x00; x00]; [x00; x02; x68; x69; x03; x00; x00; x00]; [x09; x01]]
             x03 (repeat x01 9) 6%nat).
    + vm_compute. reflexivity.
    + simpl. lia.
    + vm_compute. reflexivity.
Defined.

End IOSConnectionFacts.

(** ** WDAClient: sessions and gestures *)

Module WDAClientFacts.
Import WDAClient.
Local Open Scope string_scope.
Local Open Scope list_scope.

Lemma Qltb_lt a b : Qltb a b = true <-> (a < b)%Q.
Proof.
  unfold Qltb. rewrite negb_true_iff. split.
  - intros H. apply Qnot_le_lt. intros Hle. apply Qle_bool_iff in Hle. congruence.
  - intros H. destruct (Qle_bool b a) eqn:E; [|reflexivity].
    apply Qle_bool_iff in E. exfalso. exact (Qlt_not_le _ _ H E).
Qed.

Lemma Qltb_ge a b : Qltb a b = false <-> (b <= a)%Q.
Proof.
  unfold Qltb. rewrite negb_false_iff. apply Qle_bool_iff.
Qed.

Section WithServer.
Variable Server : Type.
Variable fetch : Server -> Request -> Server * FetchResult.
Variable Math_sqrt : Q -> Q.

(** One call of [request] is one [fetch]: it is logged, it leaves the fields
    of the client alone, and nothing is sent again after a failure. *)
Lemma request_once method path body (w w' : World Server) r :
  request fetch method path body w = (w', r) ->
  client w' = client w /\
  sent w' = sent w ++ [{| method := method; path := path; body := body |}].
Proof.
  unfold request.
  destruct (fetch (server w) _) as [server' [reason|response]].
  - intros [= <- _]. split; reflexivity.
  - destruct (negb (ok response)).
    + intros [= <- _]. split; reflexivity.
    + destruct (json response); intros [= <- _]; split; reflexivity.
Qed.

Lemma createSession_spec (w w' : World Server) r :
  createSession fetch w = (w', r) ->
  sent w' = sent w ++ [session_request] /\
  touchActive (client w') = touchActive (client w) /\
  touchStartX (client w') = touchStartX (client w) /\
  touchStartY (client w') = touchStartY (client w) /\
  match r with
  | Normal sid => sessionId (client w') = Some sid /\ truthy (Some sid) = true
  | Throw _ => sessionId (client w') = sessionId (client w)
  end.
Proof.
  unfold createSession, bind.
  destruct (request fetch POST "/session" (Some SessionBody) w) as [w1 [data|e]] eqn:Hreq;
    apply request_once in Hreq; destruct Hreq as [Hc Hs].
  - destruct (or_else (value_sessionId data) (top_sessionId data)) as [sid|].
    + destruct (truthy (Some sid)) eqn:Ht.
      * unfold get_client, set_client, ret. intros [= <- <-]. cbn.
        rewrite Hc. repeat split; assumption.
      * unfold throw. intros [= <- <-]. rewrite Hc. repeat split; assumption.
    + unfold throw. intros [= <- <-]. rewrite Hc. repeat split; assumption.
  - intros [= <- <-]. rewrite Hc. repeat split; assumption.
Qed.

Lemma ensureSession_reuse (w : World Server) sid :
  sessionId (client w) = Some sid -> truthy (Some sid) = true ->
  ensureSession fetch w = (w, Normal sid).
Proof.
  intros Hs Ht. unfold ensureSession, bind, get_client. rewrite Hs, Ht. reflexivity.
Qed.

Lemma ensureSession_spec (w w' : World Server) r :
  ensureSession fetch w = (w', r) ->
  (sent w' = sent w \/ sent w' = sent w ++ [session_request]) /\
  touchActive (client w') = touchActive (client w) /\
  touchStartX (client w') = touchStartX (client w) /\
  touchStartY (client w') = touchStartY (client w) /\
  match r with
  | Normal sid => sessionId (client w') = Some sid /\ truthy (Some sid) = true
  | Throw _ => True
  end.
Proof.
  unfold ensureSession, bind, get_client.
  destruct (sessionId (client w)) as [id|] eqn:Hid.
  - destruct (truthy (Some id)) eqn:Ht.
    + unfold ret. intros [= <- <-]. repeat split; auto.
    + intros H. apply createSession_spec in H.
      destruct H as (Hs & Ha & Hx & Hy & Hr). repeat split; auto.
      destruct r; [exact Hr | exact I].
  - intros H. apply createSession_spec in H.
    destruct H as (Hs & Ha & Hx & Hy & Hr). repeat split; auto.
    destruct r; [exact Hr | exact I].
Qed.

Lemma issued_app (w w' : World Server) l :
  sent w' = sent w ++ l -> issued w w' = l.
Proof.
  intros H. unfold issued. rewrite H, skipn_app, skipn_all, Nat.sub_diag. reflexivity.
Qed.

Lemma issued_nil (w w' : World Server) :
  sent w' = sent w -> issued w w' = [].
Proof.
  intros H. apply issued_app. rewrite app_nil_r. exact H.
Qed.

(** C10: with no touch in progress, [touch('move')] and [touch('up')] send no
    pointer-action request: the only request they can send is the
    [POST /session] of a lazily created session; and the touch-active flag is
    false afterwards. *)
Theorem touch_without_down_sends_no_action (w : World Server) action x y :
  action = move \/ action = up ->
  touchActive (client w) = false ->
  let w' := fst (touch fetch Math_sqrt action x y w) in
  (issued w w' = [] \/ issued w w' = [session_request]) /\
  filter is_action_request (issued w w') = [] /\
  touchActive (client w') = false.
Proof.
  intros Haction Hidle. unfold touch, bind.
  destruct (ensureSession fetch w) as [w1 r] eqn:He.
  apply ensureSession_spec in He. destruct He as (Hsent & Hactive & _ & _ & _).
  assert (Hissued : issued w w1 = [] \/ issued w w1 = [session_request]).
  { destruct Hsent as [Hs|Hs]; [left; apply issued_nil | right; apply issued_app]; exact Hs. }
  assert (Hgoal : (issued w w1 = [] \/ issued w w1 = [session_request]) /\
                  filter is_action_request (issued w w1) = [] /\
                  touchActive (client w1) = false).
  { split; [exact Hissued|]. split; [|congruence].
    destruct Hissued as [-> | ->]; reflexivity. }
  destruct r as [sid|e]; [|exact Hgoal].
  unfold get_client.
  destruct Haction as [-> | ->]; rewrite Hactive, Hidle; exact Hgoal.
Qed.







Lemma request_then_ret method path body (w w' : World Server) (r : Completion unit) :
  bind (request fetch method path body) (fun _ => ret tt) w = (w', r) ->
  client w' = client w /\
  sent w' = sent w ++ [{| method := method; path := path; body := body |}].
Proof.
  unfold bind.
  destruct (request fetch method path body w) as [w1 [data|e]] eqn:Hreq;
    apply request_once in Hreq; intros [= <- _]; exact Hreq.
Qed.

Lemma truthy_nonempty sid : sid <> "" -> truthy (Some sid) = true.
Proof.
  intros H. unfold truthy. apply negb_true_iff, String.eqb_neq, H.
Qed.

(** With a session id stored, an action call sends at most one request, never
    [POST /session], sends exactly one if it throws, and keeps the id. *)
Lemma perform_with_session (w w' : World Server) call r sid :
  sessionId (client w) = Some sid -> truthy (Some sid) = true ->
  perform fetch Math_sqrt call w = (w', r) ->
  sessionId (client w') = Some sid /\
  exists reqs,
    sent w' = sent w ++ reqs /\ (List.length reqs <= 1)%nat /\
    filter is_session_request reqs = [] /\
    (forall e, r = Throw e -> List.length reqs = 1%nat).
Proof.
  intros Hsid Ht.
  assert (Hnone : forall (w0 : World Server) (r0 : Completion unit),
             (w0, r0) = (w', r) -> sessionId (client w0) = Some sid ->
             sent w0 = sent w -> (forall e, r0 <> Throw e) ->
             sessionId (client w') = Some sid /\
             exists reqs,
               sent w' = sent w ++ reqs /\ (List.length reqs <= 1)%nat /\
               filter is_session_request reqs = [] /\
               (forall e, r = Throw e -> List.length reqs = 1%nat)).
  { intros w0 r0 [= <- <-] Hs0 Hsent Hok. split; [exact Hs0|].
    exists []. rewrite app_nil_r. repeat split; auto.
    intros e He. exfalso. exact (Hok e He). }
  assert (Hone : forall method path body,
             is_session_request {| method := method; path := path; body := body |} = false ->
             bind (request fetch method path body) (fun _ => ret tt) w = (w', r) ->
             sessionId (client w') = Some sid /\
             exists reqs,
               sent w' = sent w ++ reqs /\ (List.length reqs <= 1)%nat /\
               filter is_session_request reqs = [] /\
               (forall e, r = Throw e -> List.length reqs = 1%nat)).
  { intros method path body Hns H. apply request_then_ret in H. destruct H as [Hc Hs].
    split; [rewrite Hc; exact Hsid|].
    eexists. split; [exact Hs|]. cbn [List.length filter]. rewrite Hns.
    repeat split; auto. }
  destruct call as [action x y | x y dx dy | text | button]; cbn [perform].
  - unfold touch, bind at 1. rewrite (ensureSession_reuse w sid Hsid Ht).
    unfold bind at 1, get_client.
    destruct action.
    + unfold set_client. intros H. injection H as <- <-. cbn.
      split; [exact Hsid|]. exists []. rewrite app_nil_r.
      repeat split; auto. discriminate.
    + intros H. apply (Hnone w (Normal tt)); auto; [|discriminate].
      destruct (touchActive (client w)); exact H.
    + destruct (touchActive (client w)) eqn:Hactive.
      * unfold bind at 1, set_client.
        set (w0 := {| client := _; server := server w; sent := sent w |}).
        intros H.
        assert (Hfrom : sessionId (client w') = Some sid /\
                        exists reqs,
                          sent w' = sent w0 ++ reqs /\ (List.length reqs <= 1)%nat /\
                          filter is_session_request reqs = [] /\
                          (forall e, r = Throw e -> List.length reqs = 1%nat)).
        { destruct (Qltb (distance Math_sqrt (client w) x y) 10);
            [unfold performTap in H | unfold performSwipe in H];
            apply request_then_ret in H; destruct H as [Hc Hs];
            (split; [rewrite Hc; exact Hsid|]);
            (eexists; split; [exact Hs|]); cbn; repeat split; auto. }
        exact Hfrom.
      * intros H. apply (Hnone w (Normal tt)); auto. discriminate.
  - unfold scroll, bind at 1. rewrite (ensureSession_reuse w sid Hsid Ht).
    destruct (Qgeb (Qabs dy) (Qabs dx) && Qgtb (Qabs dy) (1 # 1000)).
    + apply Hone. reflexivity.
    + destruct (Qgtb (Qabs dx) (1 # 1000)).
      * apply Hone. reflexivity.
      * intros H. apply (Hnone w (Normal tt)); auto. discriminate.
  - unfold typeText, bind at 1. rewrite (ensureSession_reuse w sid Hsid Ht).
    apply Hone. reflexivity.
  - unfold pressButton, bind at 1. rewrite (ensureSession_reuse w sid Hsid Ht).
    apply Hone. reflexivity.
Qed.

(** C7 (amended): when an action call fails on an error response, nothing is
    retried within that call (exactly one request was issued, and it was not
    [POST /session]); the stored session id is kept as it was, so
    [ensureSession] returns it again without any request and the next action
    call issues no [POST /session]. *)
Theorem failed_call_keeps_session (w w' : World Server) call e sid :
  sessionId (client w) = Some sid -> sid <> "" ->
  perform fetch Math_sqrt call w = (w', Throw e) ->
  (exists r, issued w w' = [r] /\ is_session_request r = false) /\
  sessionId (client w') = Some sid /\
  ensureSession fetch w' = (w', Normal sid) /\
  (forall next,
     filter is_session_request
       (issued w' (fst (perform fetch Math_sqrt next w'))) = []).
Proof.
  intros Hsid Hne Hcall. pose proof (truthy_nonempty sid Hne) as Ht.
  destruct (perform_with_session w w' call (Throw e) sid Hsid Ht Hcall)
    as (Hsid' & reqs & Hsent & _ & Hfilter & Hone).
  specialize (Hone e eq_refl).
  split; [|split; [exact Hsid'|split]].
  - destruct reqs as [|r [|r' reqs]]; try discriminate Hone.
    exists r. split; [apply issued_app; exact Hsent|].
    cbn in Hfilter. destruct (is_session_request r); [discriminate | reflexivity].
  - apply ensureSession_reuse; assumption.
  - intros next.
    destruct (perform fetch Math_sqrt next w') as [w'' r''] eqn:Hnext.
    destruct (perform_with_session w' w'' next r'' sid Hsid' Ht Hnext)
      as (_ & reqs' & Hsent' & _ & Hfilter' & _).
    cbn [fst]. rewrite (issued_app w' w'' reqs' Hsent'). exact Hfilter'.
Qed.

End WithServer.

(** C7, as stated, fails: after the tap was answered 404 [invalid session id]
    the client still holds ["s1"], and the next call goes straight to
    [/session/s1/wda/keys] without a new [POST /session]. *)
Lemma expired_session_id_is_reused :
  let w1 := fst (touch expired_fetch isqrt down 100 200 new_world) in
  let w2 := fst (touch expired_fetch isqrt up 100 200 w1) in
  let w3 := fst (typeText expired_fetch (code_units "a") w2) in
  snd (touch expired_fetch isqrt up 100 200 w1)
    = Throw "WDA request failed: 404 invalid session id" /\
  sessionId (client w2) = Some "s1" /\
  sent w3 = [ session_request;
              tap_request "s1" 100 200;
              {| method := POST; path := "/session/s1/wda/keys";
                 body := Some (KeysBody [code_units "a"]) |} ] /\
  filter is_session_request (issued w2 w3) = [].
Proof.
  vm_compute. repeat split; reflexivity.
Qed.

Lemma failed_call_keeps_session_witness :
  let w1 := fst (touch expired_fetch isqrt down 100 200 new_world) in
  let w2 := fst (touch expired_fetch isqrt up 100 200 w1) in
  sessionId (client w2) = Some "s1" /\
  ensureSession expired_fetch w2 = (w2, Normal "s1").
Proof.
  cbv zeta.
  set (w1 := fst (touch expired_fetch isqrt down 100 200 new_world)).
  set (w2 := fst (touch expired_fetch isqrt up 100 200 w1)).
  destruct (failed_call_keeps_session unit expired_fetch isqrt w1 w2
              (CallTouch up 100 200) "WDA request failed: 404 invalid session id"
              "s1") as (_ & Hkept & Hreuse & _).
  - reflexivity.
  - discriminate.
  - vm_compute. reflexivity.
  - split; [exact Hkept | exact Hreuse].
Defined.

Lemma touch_without_down_sends_no_action_witness :
  let w' := fst (touch healthy_fetch isqrt up 5 5 new_world) in
  (issued new_world w' = [] \/ issued new_world w' = [session_request]) /\
  filter is_action_request (issued new_world w') = [] /\
  touchActive (client w') = false.
Proof.
  apply (touch_without_down_sends_no_action unit healthy_fetch isqrt new_world up 5 5).
  - right. reflexivity.
  - reflexivity.
Defined.


End WDAClientFacts.

(** ** InputHandler: wheel batching *)

Module InputHandlerFacts.
Import InputHandler.
Local Open Scope Q_scope.

Section WithCanvas.
Variable rect : DOMRect.
Variable hasScroll : bool.
Variable hasMultiTouch : bool.
Variable Math_sqrt : Q -> Q.

Local Abbreviation dispatch := (dispatch rect hasScroll hasMultiTouch Math_sqrt).
Local Abbreviation run := (run rect hasScroll hasMultiTouch Math_sqrt).

Lemma processScrollBuffer_spec s :
  scrollRafId (fst (processScrollBuffer s)) = None /\
  (List.length (snd (processScrollBuffer s)) <= 1)%nat.
Proof.
  unfold processScrollBuffer.
  destruct (_ || _); cbn; split; auto.
Qed.

Lemma animationFrame_at_most_one w :
  raf_invariant w ->
  (List.length (snd (animationFrame w)) <= 1)%nat /\
  raf_invariant (fst (animationFrame w)).
Proof.
  intros [[Hid Hq] | (id & Hid & Hq)]; unfold animationFrame; rewrite Hq; cbn.
  - split; [lia|]. left. cbn. split; [exact Hid | reflexivity].
  - pose proof (processScrollBuffer_spec (handler w)) as [Hnone Hlen].
    destruct (processScrollBuffer (handler w)) as [s1 out1]. cbn in *.
    rewrite app_nil_r. split; [exact Hlen|]. left. cbn. split; [exact Hnone | reflexivity].
Qed.

Lemma onWheelEvent_invariant event w :
  raf_invariant w -> raf_invariant (fst (onWheelEvent rect hasScroll event w)).
Proof.
  intros Hinv. unfold onWheelEvent.
  destruct (negb hasScroll); [exact Hinv|].
  destruct Hinv as [[Hid Hq] | (id & Hid & Hq)]; rewrite Hid; cbn; right.
  - exists (nextHandle w). rewrite Hq. split; reflexivity.
  - exists id. split; [reflexivity | exact Hq].
Qed.

Lemma lift_raf f w :
  (forall s, scrollRafId (fst (f s)) = scrollRafId s) ->
  raf_invariant w -> raf_invariant (fst (lift f w)).
Proof.
  intros Hf Hinv. unfold lift. specialize (Hf (handler w)).
  destruct (f (handler w)) as [s out]. cbn in *.
  unfold raf_invariant in *. cbn. rewrite Hf. exact Hinv.
Qed.

Lemma dispatch_invariant ev w :
  raf_invariant w -> raf_invariant (fst (dispatch ev w)).
Proof.
  intros Hinv. destruct ev as [event | | event | event | event]; cbn [InputHandler.dispatch].
  - apply onWheelEvent_invariant, Hinv.
  - apply animationFrame_at_most_one, Hinv.
  - apply lift_raf; [|exact Hinv]. intros s. unfold onTouchStart.
    destruct (touches event) as [|t1 [|t2 [|t3 ts]]]; try reflexivity.
    destruct hasMultiTouch; reflexivity.
  - apply lift_raf; [|exact Hinv]. intros s. unfold onTouchMove.
    destruct (touches event) as [|t1 [|t2 [|t3 ts]]]; try reflexivity.
    destruct (isPinching s && hasMultiTouch); reflexivity.
  - apply lift_raf; [|exact Hinv]. intros s. unfold onTouchEnd.
    destruct (isPinching s && hasMultiTouch); reflexivity.
Qed.

Lemma run_invariant events : forall w,
  raf_invariant w -> raf_invariant (fst (run w events)).
Proof.
  induction events as [|ev more IH]; intros w Hinv; cbn [InputHandler.run].
  - exact Hinv.
  - pose proof (dispatch_invariant ev w Hinv) as H1.
    destruct (dispatch ev w) as [w1 out1]. cbn [fst] in H1.
    specialize (IH w1 H1). destruct (run w1 more) as [w2 out2]. exact IH.
Qed.

Lemma initial_invariant : raf_invariant initial_world.
Proof. left. split; reflexivity. Qed.

(** Between gestures nothing is stored: entries enter [activeTouches] only
    while [isPinching] is set, and it is cleared whenever the flag is reset. *)
Lemma delete_all_nil (changed : list Touch) :
  fold_left (fun m touch => map_delete (identifier touch) m) changed [] = [].
Proof.
  induction changed as [|t changed IH]; [reflexivity | exact IH].
Qed.

Lemma dispatch_no_stale_touches ev w :
  (isPinching (handler w) = false -> activeTouches (handler w) = []) ->
  isPinching (handler (fst (dispatch ev w))) = false ->
  activeTouches (handler (fst (dispatch ev w))) = [].
Proof.
  intros Hinv.
  destruct ev as [event | | event | event | event]; cbn [InputHandler.dispatch].
  - unfold onWheelEvent. destruct (negb hasScroll); [exact Hinv|].
    destruct (scrollRafId (handler w)); exact Hinv.
  - unfold animationFrame.
    assert (H : forall handles s,
               isPinching (fst (run_frame_callbacks handles s)) = isPinching s /\
               activeTouches (fst (run_frame_callbacks handles s)) = activeTouches s).
    { induction handles as [|h handles IH]; intros s; [split; reflexivity|].
      cbn [run_frame_callbacks].
      assert (Hp : isPinching (fst (processScrollBuffer s)) = isPinching s /\
                   activeTouches (fst (processScrollBuffer s)) = activeTouches s)
        by (unfold processScrollBuffer; destruct (_ || _); split; reflexivity).
      destruct (processScrollBuffer s) as [s1 out1]. cbn [fst] in Hp.
      specialize (IH s1). destruct (run_frame_callbacks handles s1) as [s2 out2].
      cbn [fst] in *. destruct IH as [-> ->]. exact Hp. }
    specialize (H (rafQueue w) (handler w)).
    destruct (run_frame_callbacks (rafQueue w) (handler w)) as [s out].
    cbn [fst handler] in *. destruct H as [-> ->]. exact Hinv.
  - unfold lift, onTouchStart.
    destruct (touches event) as [|t1 [|t2 [|t3 ts]]]; cbn; try exact Hinv; try reflexivity.
    destruct hasMultiTouch; cbn; [discriminate | exact Hinv].
  - unfold lift, onTouchMove.
    destruct (touches event) as [|t1 [|t2 [|t3 ts]]]; cbn; try exact Hinv.
    destruct (isPinching (handler w) && hasMultiTouch) eqn:Hp; cbn; [|exact Hinv].
    apply andb_true_iff in Hp. destruct Hp as [Hp _]. rewrite Hp. discriminate.
  - unfold lift, onTouchEnd.
    destruct (isPinching (handler w) && hasMultiTouch) eqn:Hp; cbn.
    + intros _. apply delete_all_nil.
    + intros Hoff. rewrite (Hinv Hoff). apply delete_all_nil.
Qed.

Lemma run_no_stale_touches events : forall w,
  (isPinching (handler w) = false -> activeTouches (handler w) = []) ->
  isPinching (handler (fst (run w events))) = false ->
  idle (handler (fst (run w events))).
Proof.
  induction events as [|ev more IH]; intros w Hinv; cbn [InputHandler.run].
  - intros Hp. split; [exact Hp | exact (Hinv Hp)].
  - pose proof (dispatch_no_stale_touches ev w Hinv) as H1.
    destruct (dispatch ev w) as [w1 out1]. cbn [fst] in H1.
    specialize (IH w1 H1). destruct (run w1 more) as [w2 out2]. exact IH.
Qed.

End WithCanvas.

(** ** InputHandler: two-finger gestures *)

Section Pinch.
Variable rect : DOMRect.
Variable hasScroll : bool.
Variable Math_sqrt : Q -> Q.

Local Abbreviation dispatch := (dispatch rect hasScroll true Math_sqrt).
Local Abbreviation run := (run rect hasScroll true Math_sqrt).
Local Abbreviation onTouchStart := (onTouchStart rect true Math_sqrt).
Local Abbreviation onTouchMove := (onTouchMove rect true).
Local Abbreviation onTouchEnd := (onTouchEnd true).

Lemma run_app a : forall b w,
  run w (a ++ b)
  = (fst (run (fst (run w a)) b), snd (run w a) ++ snd (run (fst (run w a)) b)).
Proof.
  induction a as [|ev a IH]; intros b w; cbn [app InputHandler.run].
  - cbn. destruct (run w b); reflexivity.
  - destruct (dispatch ev w) as [w1 out1]. rewrite IH.
    destruct (run w1 a) as [w2 out2]. cbn [fst snd].
    destruct (run w2 b) as [w3 out3]. cbn [fst snd]. rewrite app_assoc. reflexivity.
Qed.

Lemma touch_start_tracks event touch1 touch2 s :
  touches event = [touch1; touch2] ->
  identifier touch1 <> identifier touch2 ->
  activeTouches s = [] ->
  tracked (identifier touch1) (identifier touch2) (fst (onTouchStart event s)) /\
  map action_of (snd (onTouchStart event s)) = [Some down].
Proof.
  intros Ht Hne Hempty. unfold InputHandler.onTouchStart. rewrite Ht, Hempty.
  cbn. apply Z.eqb_neq in Hne. rewrite Hne.
  split; [|reflexivity]. split; [reflexivity|]. eexists. eexists. reflexivity.
Qed.

Lemma touch_start_restarts event u1 u2 s :
  touches event = [u1; u2] ->
  map action_of (snd (onTouchStart event s)) = [Some down].
Proof.
  intros Ht. unfold InputHandler.onTouchStart. rewrite Ht. reflexivity.
Qed.

Lemma touch_move_tracks event touch1 touch2 s :
  identifier touch1 <> identifier touch2 ->
  same_contacts touch1 touch2 event ->
  tracked (identifier touch1) (identifier touch2) s ->
  tracked (identifier touch1) (identifier touch2) (fst (onTouchMove event s)) /\
  map action_of (snd (onTouchMove event s)) = [Some move].
Proof.
  intros Hne (a & b & Ht & Hids) (Hpinch & p & q & Hmap).
  unfold InputHandler.onTouchMove. rewrite Ht, Hpinch, Hmap. cbn.
  assert (H12 : (identifier touch1 =? identifier touch2)%Z = false)
    by (apply Z.eqb_neq; exact Hne).
  assert (H21 : (identifier touch2 =? identifier touch1)%Z = false)
    by (apply Z.eqb_neq; congruence).
  split; [|reflexivity]. split; [reflexivity|]. cbn [activeTouches with_touches].
  destruct Hids as [[-> ->] | [-> ->]].
  - rewrite Z.eqb_refl. cbn. rewrite H12, Z.eqb_refl. eexists. eexists. reflexivity.
  - rewrite H12, Z.eqb_refl. cbn. rewrite Z.eqb_refl. eexists. eexists. reflexivity.
Qed.

Lemma touch_end_ends event id1 id2 s :
  tracked id1 id2 s ->
  idle (fst (onTouchEnd event s)) /\
  map action_of (snd (onTouchEnd event s)) = [Some up].
Proof.
  intros (Hpinch & p & q & Hmap).
  unfold InputHandler.onTouchEnd, end_of_pinch. rewrite Hpinch, Hmap. cbn.
  rewrite delete_all_nil. repeat split.
Qed.

Lemma third_contact_ends event id1 id2 s :
  (2 < List.length (touches event))%nat ->
  tracked id1 id2 s ->
  idle (fst (onTouchStart event s)) /\
  map action_of (snd (onTouchStart event s)) = [Some up].
Proof.
  intros Hlen (Hpinch & p & q & Hmap).
  unfold InputHandler.onTouchStart, end_of_pinch.
  destruct (touches event) as [|t1 [|t2 [|t3 ts]]]; cbn in Hlen; try lia.
  rewrite Hpinch, Hmap. cbn. repeat split.
Qed.

Lemma lift_fst f (w : World) : handler (fst (lift f w)) = fst (f (handler w)).
Proof. unfold lift. destruct (f (handler w)); reflexivity. Qed.

Lemma lift_snd f (w : World) : snd (lift f w) = snd (f (handler w)).
Proof. unfold lift. destruct (f (handler w)); reflexivity. Qed.

Lemma run_moves touch1 touch2 moves : forall w,
  identifier touch1 <> identifier touch2 ->
  Forall (same_contacts touch1 touch2) moves ->
  tracked (identifier touch1) (identifier touch2) (handler w) ->
  tracked (identifier touch1) (identifier touch2)
          (handler (fst (run w (map TouchMove moves)))) /\
  map action_of (snd (run w (map TouchMove moves)))
  = repeat (Some move) (List.length moves).
Proof.
  induction moves as [|event moves IH]; intros w Hne Hall Htracked.
  - split; [exact Htracked | reflexivity].
  - inversion Hall as [|? ? Hevent Hrest]; subst.
    cbn [map InputHandler.run InputHandler.dispatch].
    destruct (touch_move_tracks event touch1 touch2 (handler w) Hne Hevent Htracked)
      as [Htracked1 Hout1].
    rewrite <- lift_fst in Htracked1. rewrite <- lift_snd in Hout1.
    destruct (lift (onTouchMove event) w) as [w1 out1]. cbn [fst snd] in *.
    destruct (IH w1 Hne Hrest Htracked1) as [Htracked2 Hout2].
    destruct (run w1 (map TouchMove moves)) as [w2 out2]. cbn [fst snd] in *.
    split; [exact Htracked2|].
    rewrite map_app, Hout1, Hout2. reflexivity.
Qed.

(** From the first two-finger frame through [n] move frames. *)
Lemma run_pinch (w : World) touch1 touch2 e_start moves :
  idle (handler w) ->
  touches e_start = [touch1; touch2] ->
  identifier touch1 <> identifier touch2 ->
  Forall (same_contacts touch1 touch2) moves ->
  tracked (identifier touch1) (identifier touch2)
          (handler (fst (run w (TouchStart e_start :: map TouchMove moves)))) /\
  map action_of (snd (run w (TouchStart e_start :: map TouchMove moves)))
  = Some down :: repeat (Some move) (List.length moves).
Proof.
  intros [_ Hempty] Ht Hne Hall.
  cbn [InputHandler.run InputHandler.dispatch].
  destruct (touch_start_tracks e_start touch1 touch2 (handler w) Ht Hne Hempty)
    as [Htracked1 Hout1].
  rewrite <- lift_fst in Htracked1. rewrite <- lift_snd in Hout1.
  destruct (lift (onTouchStart e_start) w) as [w1 out1]. cbn [fst snd] in *.
  destruct (run_moves touch1 touch2 moves w1 Hne Hall Htracked1) as [Htracked2 Hout2].
  destruct (run w1 (map TouchMove moves)) as [w2 out2]. cbn [fst snd] in *.
  split; [exact Htracked2|].
  rewrite map_app, Hout1, Hout2. reflexivity.
Qed.

End Pinch.

Lemma pointer_ids_of_actions (W H : Z) (out : list Callback) : forall actions,
  map action_of out = map Some actions ->
  map (fun i => (pointerId i, touch_action i)) (flat_map (sendMultiTouch W H) out)
  = flat_map (fun a => [(0%Z, a); (1%Z, a)]) actions.
Proof.
  induction out as [|c out IH]; intros [|a actions]; cbn [map]; try discriminate.
  - reflexivity.
  - intros [= Hc Hrest]. destruct c; cbn in Hc; [discriminate|]. injection Hc as ->.
    cbn [flat_map sendMultiTouch]. rewrite map_app, (IH _ Hrest). reflexivity.
Qed.

Lemma pinch_protocol_actions n :
  flat_map (fun a => [(0%Z, a); (1%Z, a)]) ([down] ++ repeat move n ++ [up])
  = pinch_protocol n.
Proof.
  unfold pinch_protocol. rewrite !flat_map_app. f_equal. f_equal.
  induction n as [|n IH]; [reflexivity|]. cbn [repeat flat_map List.concat].
  rewrite IH. reflexivity.
Qed.

(** Once the handler is idle, the contacts that are left moving and lifting
    call nothing and leave it idle. *)
Lemma leaving_contacts_are_silent
    (rect : DOMRect) (hasScroll : bool) (Math_sqrt : Q -> Q) (later : list Event) :
  forall w : World,
    forallb contact_leaves later = true ->
    idle (handler w) ->
    snd (run rect hasScroll true Math_sqrt w later) = [] /\
    idle (handler (fst (run rect hasScroll true Math_sqrt w later))).
Proof.
  induction later as [|ev later IH]; intros w Hlater Hidle; cbn [run].
  - split; [reflexivity | exact Hidle].
  - cbn [forallb] in Hlater. apply andb_true_iff in Hlater.
    destruct Hlater as [Hev Hlater].
    assert (Hstep : snd (dispatch rect hasScroll true Math_sqrt ev w) = [] /\
                    idle (handler (fst (dispatch rect hasScroll true Math_sqrt ev w)))).
    { destruct ev as [e | | e | e | e]; try discriminate Hev; cbn [dispatch];
        rewrite lift_fst, lift_snd; destruct Hidle as [Hp Hm].
      - unfold onTouchMove. rewrite Hp. cbn [andb].
        destruct (touches e) as [|t1 [|t2 [|t3 ts]]]; cbn [fst snd];
          (split; [reflexivity | split; assumption]).
      - unfold onTouchEnd. rewrite Hp. cbn [andb fst snd].
        split; [reflexivity|]. unfold idle, with_touches. cbn [isPinching activeTouches].
        split; [exact Hp|]. rewrite Hm. apply delete_all_nil. }
    destruct Hstep as [Hout Hidle1].
    destruct (dispatch rect hasScroll true Math_sqrt ev w) as [w1 out1].
    cbn [fst snd] in *.
    destruct (IH w1 Hlater Hidle1) as [Hout2 Hidle2].
    destruct (run rect hasScroll true Math_sqrt w1 later) as [w2 out2].
    cbn [fst snd] in *. rewrite Hout, Hout2. split; [reflexivity | exact Hidle2].
Qed.

(** C5: from an idle handler, two contacts appearing, persisting for N move
    frames and ending make the handler call the multi-touch callback with
    ['down'] once, ['move'] N times and ['up'] once, in that order, which the
    connection sends as pointers 0 and 1 each time; the handler is idle
    afterwards, and this stays so whatever [touchmove] and [touchend] events
    follow while the contacts leave (the second contact moving on and lifting
    after the first is the usual case): no second ['up'] is made.  A third
    contact arriving mid-gesture makes that very [touchstart] emit the ['up']
    of the two tracked contacts and leaves the handler idle; a later
    two-finger [touchstart] begins with a fresh ['down']. *)
Theorem two_finger_gesture
    (rect : DOMRect) (hasScroll : bool) (Math_sqrt : Q -> Q) (W H : Z)
    (w : World) (touch1 touch2 u1 u2 : Touch)
    (e_start e_end e_third e_restart : TouchEvent)
    (moves : list TouchEvent) (later : list Event) :
  idle (handler w) ->
  touches e_start = [touch1; touch2] ->
  identifier touch1 <> identifier touch2 ->
  Forall (same_contacts touch1 touch2) moves ->
  forallb contact_leaves later = true ->
  let run := run rect hasScroll true Math_sqrt in
  let dispatch := dispatch rect hasScroll true Math_sqrt in
  let gesture := TouchStart e_start :: map TouchMove moves in
  (let whole := gesture ++ TouchEnd e_end :: later in
   let out := snd (run w whole) in
   map action_of out = map Some ([down] ++ repeat move (List.length moves) ++ [up]) /\
   map (fun i => (pointerId i, touch_action i)) (flat_map (sendMultiTouch W H) out)
   = pinch_protocol (List.length moves) /\
   idle (handler (fst (run w whole)))) /\
  ((2 < List.length (touches e_third))%nat ->
   touches e_restart = [u1; u2] ->
   let w1 := fst (run w gesture) in
   let w2 := fst (dispatch (TouchStart e_third) w1) in
   map action_of (snd (run w gesture))
   = map Some ([down] ++ repeat move (List.length moves)) /\
   map action_of (snd (dispatch (TouchStart e_third) w1)) = [Some up] /\
   idle (handler w2) /\
   map action_of (snd (dispatch (TouchStart e_restart) w2)) = [Some down]).
Proof.
  intros Hidle Ht Hne Hall Hlater. cbv zeta.
  destruct (run_pinch rect hasScroll Math_sqrt w touch1 touch2 e_start moves
              Hidle Ht Hne Hall) as [Htracked Hout].
  assert (Hmoves : forall n, repeat (Some move) n = map Some (repeat move n)).
  { induction n as [|n IH]; [reflexivity|]. cbn. rewrite IH. reflexivity. }
  split.
  - assert (Hwhole :
      map action_of
        (snd (InputHandler.run rect hasScroll true Math_sqrt w
                ((TouchStart e_start :: map TouchMove moves)
                   ++ TouchEnd e_end :: later)))
      = map Some ([down] ++ repeat move (List.length moves) ++ [up]) /\
      idle (handler (fst (InputHandler.run rect hasScroll true Math_sqrt w
                ((TouchStart e_start :: map TouchMove moves)
                   ++ TouchEnd e_end :: later))))).
    { rewrite run_app. cbn [fst snd]. rewrite map_app, Hout.
      cbn [InputHandler.run InputHandler.dispatch].
      destruct (touch_end_ends e_end _ _ _ Htracked) as [Hidle1 Hup].
      rewrite <- lift_snd in Hup. rewrite <- lift_fst in Hidle1.
      destruct (lift (InputHandler.onTouchEnd true e_end) _) as [w2 out2].
      cbn [fst snd] in *.
      destruct (leaving_contacts_are_silent rect hasScroll Math_sqrt later w2
                  Hlater Hidle1) as [Hsilent Hidle2].
      destruct (InputHandler.run rect hasScroll true Math_sqrt w2 later)
        as [w3 out3].
      cbn [fst snd] in *. subst out3. rewrite app_nil_r, Hup.
      split; [|exact Hidle2].
      cbn [app map]. rewrite map_app, Hmoves. reflexivity. }
    destruct Hwhole as [Hactions Hidle']. split; [exact Hactions|]. split; [|exact Hidle'].
    rewrite (pointer_ids_of_actions W H _ _ Hactions). apply pinch_protocol_actions.
  - intros Hthird Hrestart.
    split; [|split; [|split]].
    + rewrite Hout. cbn [app map]. rewrite Hmoves. reflexivity.
    + cbn [InputHandler.dispatch]. rewrite lift_snd.
      apply (third_contact_ends rect Math_sqrt e_third _ _ _ Hthird Htracked).
    + cbn [InputHandler.dispatch]. rewrite lift_fst.
      apply (third_contact_ends rect Math_sqrt e_third _ _ _ Hthird Htracked).
    + cbn [InputHandler.dispatch]. rewrite lift_snd.
      apply (touch_start_restarts rect Math_sqrt e_restart u1 u2 _ Hrestart).
Qed.

Lemma two_finger_gesture_witness :
  let start := touch_event [touch_at 0 200 200; touch_at 1 400 300] in
  let moved := touch_event [touch_at 0 150 150; touch_at 1 450 350] in
  let first_lifts :=
    {| touches := [touch_at 1 450 350]; changedTouches := [touch_at 0 150 150] |} in
  let second_moves := touch_event [touch_at 1 460 360] in
  let second_lifts :=
    {| touches := []; changedTouches := [touch_at 1 460 360] |} in
  let third :=
    touch_event [touch_at 0 200 200; touch_at 1 400 300; touch_at 2 500 400] in
  let gesture := TouchStart start :: map TouchMove [moved; moved] in
  let whole :=
    gesture ++ [TouchEnd first_lifts; TouchMove second_moves; TouchEnd second_lifts] in
  let w1 := fst (run test_rect true true isqrt_stub initial_world gesture) in
  map action_of (snd (run test_rect true true isqrt_stub initial_world whole))
  = [Some down; Some move; Some move; Some up] /\
  idle (handler (fst (run test_rect true true isqrt_stub initial_world whole))) /\
  map action_of (snd (dispatch test_rect true true isqrt_stub (TouchStart third) w1))
  = [Some up] /\
  map action_of
    (snd (dispatch test_rect true true isqrt_stub (TouchStart start)
            (fst (dispatch test_rect true true isqrt_stub (TouchStart third) w1))))
  = [Some down].
Proof.
  cbv zeta.
  destruct (two_finger_gesture test_rect true isqrt_stub 1080 1920 initial_world
              (touch_at 0 200 200) (touch_at 1 400 300)
              (touch_at 0 200 200) (touch_at 1 400 300)
              (touch_event [touch_at 0 200 200; touch_at 1 400 300])
              {| touches := [touch_at 1 450 350];
                 changedTouches := [touch_at 0 150 150] |}
              (touch_event [touch_at 0 200 200; touch_at 1 400 300; touch_at 2 500 400])
              (touch_event [touch_at 0 200 200; touch_at 1 400 300])
              [touch_event [touch_at 0 150 150; touch_at 1 450 350];
               touch_event [touch_at 0 150 150; touch_at 1 450 350]]
              [TouchMove (touch_event [touch_at 1 460 360]);
               TouchEnd {| touches := []; changedTouches := [touch_at 1 460 360] |}])
    as [(Hfull & _ & Hidle) Hthird].
  - split; reflexivity.
  - reflexivity.
  - discriminate.
  - repeat constructor;
      (exists (touch_at 0 150 150), (touch_at 1 450 350);
       split; [reflexivity | left; split; reflexivity]).
  - reflexivity.
  - destruct Hthird as (_ & Hup & _ & Hdown).
    + cbn. lia.
    + reflexivity.
    + split; [exact Hfull | split; [exact Hidle | split; [exact Hup | exact Hdown]]].
Defined.

End InputHandlerFacts.

(** ** InputHandler: wheel batching in double precision *)

Module ScrollWheelFacts.
Import ScrollWheel.
Local Open Scope float_scope.

(** A value at or below another does not exceed it. *)
Lemma leb_not_gtb (a b : float) : (a <=? b) = true -> (b <? a) = false.
Proof.
  rewrite leb_spec, ltb_spec. unfold SFleb, SFltb, SFcompare.
  destruct (Prim2SF a) as [sa | sa | | sa ma ea], (Prim2SF b) as [sb | sb | | sb mb eb];
    try destruct sa; try destruct sb; try reflexivity; try discriminate.
  - rewrite (Z.compare_antisym ea eb).
    destruct (ea ?= eb)%Z; cbn [CompOpp]; try reflexivity; try discriminate.
    change (PosDef.Pos.compare_cont Eq mb ma) with (Pos.compare mb ma).
    change (PosDef.Pos.compare_cont Eq ma mb) with (Pos.compare ma mb).
    rewrite (Pos.compare_antisym ma mb).
    destruct (ma ?= mb)%positive; cbn; try reflexivity; discriminate.
  - rewrite (Z.compare_antisym ea eb).
    destruct (ea ?= eb)%Z; cbn [CompOpp]; try reflexivity; try discriminate.
    change (PosDef.Pos.compare_cont Eq mb ma) with (Pos.compare mb ma).
    change (PosDef.Pos.compare_cont Eq ma mb) with (Pos.compare ma mb).
    rewrite (Pos.compare_antisym ma mb).
    destruct (ma ?= mb)%positive; cbn; try reflexivity; discriminate.
Qed.

Section WithCanvas.
Variable rect : DOMRect.
Variable hasScroll : bool.

Local Abbreviation dispatch := (dispatch rect hasScroll).
Local Abbreviation run := (run rect hasScroll).

Lemma float_processScrollBuffer_spec s :
  scrollRafId (fst (processScrollBuffer s)) = None /\
  snd (processScrollBuffer s)
  = (if exceeds (scrollBufferX s) || exceeds (scrollBufferY s)
     then [onScroll (lastScrollX s) (lastScrollY s) (scrollBufferX s) (scrollBufferY s)]
     else []).
Proof.
  unfold processScrollBuffer, exceeds.
  destruct (_ || _); cbn; split; reflexivity.
Qed.

Lemma float_frame_at_most_one w :
  raf_invariant w ->
  (List.length (snd (animationFrame w)) <= 1)%nat /\
  raf_invariant (fst (animationFrame w)).
Proof.
  intros [[Hid Hq] | (id & Hid & Hq)]; unfold animationFrame; rewrite Hq; cbn.
  - split; [lia|]. left. cbn. split; [exact Hid | reflexivity].
  - pose proof (float_processScrollBuffer_spec (handler w)) as [Hnone Hout].
    destruct (processScrollBuffer (handler w)) as [s1 out1]. cbn in *.
    rewrite app_nil_r. split.
    + rewrite Hout. destruct (_ || _); cbn; lia.
    + left. cbn. split; [exact Hnone | reflexivity].
Qed.

Lemma float_wheel_invariant event w :
  raf_invariant w -> raf_invariant (fst (onWheelEvent rect hasScroll event w)).
Proof.
  intros Hinv. unfold onWheelEvent.
  destruct (negb hasScroll); [exact Hinv|].
  destruct ((deltaMode event =? 1)%Z); [|destruct ((deltaMode event =? 2)%Z)];
    (destruct Hinv as [[Hid Hq] | (id & Hid & Hq)]; rewrite Hid; cbn; right;
     [ exists (nextHandle w); rewrite Hq; split; reflexivity
     | exists id; split; [reflexivity | exact Hq] ]).
Qed.

Lemma float_run_invariant events : forall w,
  raf_invariant w -> raf_invariant (fst (run w events)).
Proof.
  induction events as [|ev more IH]; intros w Hinv; cbn [ScrollWheel.run].
  - exact Hinv.
  - assert (H1 : raf_invariant (fst (dispatch ev w))).
    { destruct ev as [event|]; cbn [ScrollWheel.dispatch].
      - apply float_wheel_invariant, Hinv.
      - apply float_frame_at_most_one, Hinv. }
    destruct (dispatch ev w) as [w1 out1]. cbn [fst] in H1.
    specialize (IH w1 H1). destruct (run w1 more) as [w2 out2]. exact IH.
Qed.

End WithCanvas.

Lemma float_initial_invariant : raf_invariant initial_world.
Proof. left. split; reflexivity. Qed.

Lemma accumulated_snoc delta wheels e :
  accumulated delta (wheels ++ [e])
  = accumulated delta wheels + - pixels (deltaMode e) (delta e) / 200.
Proof.
  unfold accumulated. rewrite fold_left_app. reflexivity.
Qed.

Section Scroll.
Variable rect : DOMRect.

Local Abbreviation run := (run rect true).

(** What one wheel event does to a handler that has a scroll callback. *)
Lemma float_wheel_step e w :
  raf_invariant w ->
  let w1 := fst (onWheelEvent rect true e w) in
  snd (onWheelEvent rect true e w) = [] /\
  scrollBufferX (handler w1)
  = scrollBufferX (handler w) + - pixels (deltaMode e) (deltaX e) / 200 /\
  scrollBufferY (handler w1)
  = scrollBufferY (handler w) + - pixels (deltaMode e) (deltaY e) / 200 /\
  (lastScrollX (handler w1), lastScrollY (handler w1))
  = getNormalizedCoordsFromMouse rect e /\
  (exists id, scrollRafId (handler w1) = Some id /\ rafQueue w1 = [id]).
Proof.
  intros Hinv. cbv zeta. unfold onWheelEvent, pixels. cbn [negb].
  destruct (Z.eqb_spec (deltaMode e) 1) as [-> | H1].
  - destruct Hinv as [[Hid Hq] | (id & Hid & Hq)]; rewrite Hid; cbn; rewrite ?Hq;
      repeat split; eexists; split; try reflexivity; eassumption.
  - destruct (Z.eqb_spec (deltaMode e) 2) as [-> | H2].
    + destruct Hinv as [[Hid Hq] | (id & Hid & Hq)]; rewrite Hid; cbn; rewrite ?Hq;
        repeat split; eexists; split; try reflexivity; eassumption.
    + assert (Hp : forall d : float,
                 match deltaMode e with 1%Z => d * 16 | 2%Z => d * 100 | _ => d end = d).
      { intros d. destruct (deltaMode e) as [|[p|[p|p|]|]|p];
          try reflexivity; congruence. }
      rewrite !Hp.
      destruct Hinv as [[Hid Hq] | (id & Hid & Hq)]; rewrite Hid; cbn; rewrite ?Hq;
        repeat split; eexists; split; try reflexivity; eassumption.
Qed.

(** What a frame boundary does. *)
Lemma float_frame_step w :
  raf_invariant w ->
  let w1 := fst (animationFrame w) in
  let X := scrollBufferX (handler w) in
  let Y := scrollBufferY (handler w) in
  rafQueue w1 = [] /\
  lastScrollX (handler w1) = lastScrollX (handler w) /\
  lastScrollY (handler w1) = lastScrollY (handler w) /\
  (rafQueue w = [] -> snd (animationFrame w) = [] /\ handler w1 = handler w) /\
  (rafQueue w <> [] ->
   snd (animationFrame w)
   = (if exceeds X || exceeds Y
      then [onScroll (lastScrollX (handler w)) (lastScrollY (handler w)) X Y]
      else []) /\
   scrollBufferX (handler w1) = (if exceeds X || exceeds Y then 0 else X) /\
   scrollBufferY (handler w1) = (if exceeds X || exceeds Y then 0 else Y)).
Proof.
  intros [[Hid Hq] | (id & Hid & Hq)]; cbv zeta; unfold animationFrame; rewrite Hq;
    cbn [run_frame_callbacks].
  - cbn. split; [reflexivity|]. split; [reflexivity|]. split; [reflexivity|].
    split; [intros _; split; reflexivity|].
    intros Hne. exfalso. apply Hne. reflexivity.
  - unfold processScrollBuffer, exceeds.
    destruct (_ || _); cbn;
      (split; [reflexivity|]; split; [reflexivity|]; split; [reflexivity|];
       split; [intros Hnil; discriminate Hnil|]; intros _; repeat split).
Qed.

(** A run of wheel events makes no callback, adds each quotient to the
    buffers in turn, remembers the last position and leaves one frame
    callback waiting. *)
Lemma float_wheels_accumulate wheels : forall w,
  raf_invariant w ->
  let w' := fst (run w (map Wheel wheels)) in
  snd (run w (map Wheel wheels)) = [] /\
  scrollBufferX (handler w')
  = fold_left (fun buffer e => buffer + - pixels (deltaMode e) (deltaX e) / 200)
              wheels (scrollBufferX (handler w)) /\
  scrollBufferY (handler w')
  = fold_left (fun buffer e => buffer + - pixels (deltaMode e) (deltaY e) / 200)
              wheels (scrollBufferY (handler w)) /\
  (wheels <> [] -> exists id, scrollRafId (handler w') = Some id /\ rafQueue w' = [id]) /\
  (wheels = [] -> w' = w) /\
  (forall earlier e, wheels = earlier ++ [e] ->
     (lastScrollX (handler w'), lastScrollY (handler w'))
     = getNormalizedCoordsFromMouse rect e).
Proof.
  induction wheels as [|e more IH]; intros w Hinv; cbv zeta.
  - cbn. repeat split; try reflexivity.
    + intros H. exfalso. apply H. reflexivity.
    + intros [|? ?] ? H; discriminate H.
  - cbn [map ScrollWheel.run dispatch fold_left].
    pose proof (float_wheel_invariant rect true e w Hinv) as Hinv1.
    pose proof (float_wheel_step e w Hinv) as Hstep. cbv zeta in Hstep.
    destruct (onWheelEvent rect true e w) as [w1 out1]. cbn [fst snd] in *.
    destruct Hstep as (Hout & Hx & Hy & Hpos & Hqueue).
    specialize (IH w1 Hinv1). cbv zeta in IH.
    destruct (run w1 (map Wheel more)) as [w2 out2]. cbn [fst snd] in *.
    destruct IH as (Hout2 & Hx2 & Hy2 & Hq2 & Hsame & Hlast).
    rewrite Hout, Hout2, Hx2, Hy2, Hx, Hy.
    split; [reflexivity|]. split; [reflexivity|]. split; [reflexivity|].
    split; [|split; [discriminate|]].
    + intros _. destruct more as [|e' more'].
      * rewrite (Hsame eq_refl). exact Hqueue.
      * apply Hq2. discriminate.
    + intros earlier e0 Heq. destruct more as [|e' more'].
      * rewrite (Hsame eq_refl).
        destruct earlier as [|a [|b earlier]]; try discriminate Heq.
        injection Heq as <-. exact Hpos.
      * destruct earlier as [|a earlier]; [discriminate Heq|].
        injection Heq as _ Heq. apply (Hlast earlier e0 Heq).
Qed.

(** Every callback of a run carries the running sums of a stretch of
    consecutive wheel events and the position of the last of them; the
    stretches follow one another without gap or overlap, and the buffers hold
    the running sums of the events after the last stretch. *)
Lemma float_run_stretches events : forall w pending,
  raf_invariant w ->
  scrollBufferX (handler w) = accumulated deltaX pending ->
  scrollBufferY (handler w) = accumulated deltaY pending ->
  (forall earlier e, pending = earlier ++ [e] ->
     (lastScrollX (handler w), lastScrollY (handler w))
     = getNormalizedCoordsFromMouse rect e) ->
  (rafQueue w = [] ->
   exceeds (scrollBufferX (handler w)) || exceeds (scrollBufferY (handler w)) = false) ->
  let w' := fst (run w events) in
  exists stretches rest,
    pending ++ wheels_of events = List.concat stretches ++ rest /\
    Forall2 (fun c stretch =>
               exists earlier e,
                 stretch = earlier ++ [e] /\
                 c = onScroll (fst (getNormalizedCoordsFromMouse rect e))
                              (snd (getNormalizedCoordsFromMouse rect e))
                              (accumulated deltaX stretch)
                              (accumulated deltaY stretch))
            (snd (run w events)) stretches /\
    scrollBufferX (handler w') = accumulated deltaX rest /\
    scrollBufferY (handler w') = accumulated deltaY rest /\
    (rafQueue w' = [] ->
     exceeds (scrollBufferX (handler w')) || exceeds (scrollBufferY (handler w')) = false).
Proof.
  induction events as [|ev more IH]; intros w pending Hinv Hx Hy Hpos Hsmall; cbv zeta.
  - exists [], pending. cbn. rewrite app_nil_r.
    split; [reflexivity|]. split; [constructor|].
    split; [exact Hx|]. split; [exact Hy | exact Hsmall].
  - destruct ev as [e|]; cbn [ScrollWheel.run dispatch wheels_of flat_map].
    + pose proof (float_wheel_invariant rect true e w Hinv) as Hinv1.
      pose proof (float_wheel_step e w Hinv) as Hstep. cbv zeta in Hstep.
      destruct (onWheelEvent rect true e w) as [w1 out1]. cbn [fst snd] in *.
      destruct Hstep as (Hout & Hx1 & Hy1 & Hpos1 & (id & Hid & Hqueue)).
      destruct (IH w1 (pending ++ [e]) Hinv1) as (stretches & rest & Hsplit & Hcalls & H).
      * rewrite Hx1, Hx, accumulated_snoc. reflexivity.
      * rewrite Hy1, Hy, accumulated_snoc. reflexivity.
      * intros earlier e0 Heq. apply app_inj_tail in Heq. destruct Heq as [_ <-].
        exact Hpos1.
      * rewrite Hqueue. discriminate.
      * cbv zeta in H. fold (wheels_of more).
        destruct (run w1 more) as [w2 out2]. cbn [fst snd] in *.
        exists stretches, rest. rewrite Hout. cbn [app].
        split; [|split; [exact Hcalls | exact H]].
        rewrite <- Hsplit, <- app_assoc. reflexivity.
    + fold (wheels_of more). cbn [app].
      pose proof (float_frame_at_most_one w Hinv) as [_ Hinv1].
      pose proof (float_frame_step w Hinv) as Hstep. cbv zeta in Hstep.
      destruct (animationFrame w) as [w1 out1]. cbn [fst snd] in *.
      destruct Hstep as (Hq1 & HlastX & HlastY & Hidle & Hwaiting).
      destruct (list_eq_dec Nat.eq_dec (rafQueue w) []) as [Hq | Hq].
      * destruct (Hidle Hq) as (Hout & Hsame).
        destruct (IH w1 pending Hinv1) as (stretches & rest & Hsplit & Hcalls & H).
        { rewrite Hsame. exact Hx. }
        { rewrite Hsame. exact Hy. }
        { rewrite Hsame. exact Hpos. }
        { intros _. rewrite Hsame. apply Hsmall, Hq. }
        cbv zeta in H.
        destruct (run w1 more) as [w2 out2]. cbn [fst snd] in *.
        exists stretches, rest. rewrite Hout. cbn [app].
        split; [exact Hsplit | split; [exact Hcalls | exact H]].
      * destruct (Hwaiting Hq) as (Hout & Hx1 & Hy1).
        destruct (exceeds (scrollBufferX (handler w)) || exceeds (scrollBufferY (handler w)))
          eqn:Hflush.
        -- assert (Hpending : exists earlier e, pending = earlier ++ [e]).
           { destruct pending as [|a pending _] using rev_ind.
             - rewrite Hx, Hy in Hflush. vm_compute in Hflush. discriminate Hflush.
             - exists pending, a. reflexivity. }
           destruct Hpending as (earlier & e & Hpending).
           pose proof (Hpos earlier e Hpending) as Hlast.
           destruct (IH w1 [] Hinv1 Hx1 Hy1) as (stretches & rest & Hsplit & Hcalls & H).
           { intros [|? ?] ? Heq; discriminate Heq. }
           { intros _. rewrite Hx1, Hy1. reflexivity. }
           cbv zeta in H.
           destruct (run w1 more) as [w2 out2]. cbn [fst snd] in *.
           exists (pending :: stretches), rest. cbn [List.concat app].
           split; [rewrite <- app_assoc, <- Hsplit; reflexivity|].
           split; [|exact H].
           rewrite Hout. cbn [app]. constructor; [|exact Hcalls].
           exists earlier, e. split; [exact Hpending|].
           rewrite <- Hlast, <- Hx, <- Hy. reflexivity.
        -- destruct (IH w1 pending Hinv1) as (stretches & rest & Hsplit & Hcalls & H).
           { rewrite Hx1. exact Hx. }
           { rewrite Hy1. exact Hy. }
           { rewrite HlastX, HlastY. exact Hpos. }
           { intros _. rewrite Hx1, Hy1. exact Hflush. }
           cbv zeta in H.
           destruct (run w1 more) as [w2 out2]. cbn [fst snd] in *.
           exists stretches, rest. rewrite Hout. cbn [app].
           split; [exact Hsplit | split; [exact Hcalls | exact H]].
Qed.

End Scroll.

(** A wheel turned down by 20 pixels scrolls by a negative amount. *)
Example wheel_down_scrolls_negative :
  (accumulated deltaY [wheel_at 20] <? 0) = true /\
  snd (animationFrame (fst (run test_rect true initial_world [Wheel (wheel_at 20)])))
  = [onScroll 0.5 0.5 0 (accumulated deltaY [wheel_at 20])].
Proof. split; vm_compute; reflexivity. Qed.

(** C8, as stated, fails by rounding: after three wheel events of 20 pixels
    the frame flushes the double -0.30000000000000004, the sum of three
    quotients -20 / 200, while the 60 accumulated pixels divided by 200 and
    sign-inverted are the double -0.3. *)
Lemma flushed_sum_is_not_the_scaled_total :
  let wheels := [wheel_at 20; wheel_at 20; wheel_at 20] in
  snd (animationFrame (fst (run test_rect true initial_world (map Wheel wheels))))
  = [onScroll 0.5 0.5 0 (-0x1.3333333333334p-2)] /\
  - (20 + 20 + 20) / 200 = -0x1.3333333333333p-2 /\
  -0x1.3333333333334p-2 <> -0x1.3333333333333p-2.
Proof.
  cbv zeta. split; [vm_compute; reflexivity|]. split; [vm_compute; reflexivity|].
  intros H. apply (f_equal Prim2SF) in H. vm_compute in H. discriminate H.
Qed.

(** C8 (amended): wheel events call nothing; each adds its pixel delta,
    sign-inverted and divided by 200, to the buffers, so that a buffer holds
    the running double-precision sum of the quotients in order of arrival,
    and the handler remembers the position of the last event.  The frame
    boundary that follows calls the scroll callback once, with that position
    and the two sums, if one of the magnitudes exceeds 0.0001, and not at all
    otherwise; in particular not when both magnitudes are at or below 0.0001,
    and the buffers then keep their contents.  Whatever the events were, a
    frame boundary makes at most one call. *)
Theorem scroll_batching (rect : DOMRect) (hasScroll : bool)
    (wheels : list WheelEvent) (events : list Event) :
  let w1 := fst (run rect true initial_world (map Wheel wheels)) in
  let X := scrollBufferX (handler w1) in
  let Y := scrollBufferY (handler w1) in
  snd (run rect true initial_world (map Wheel wheels)) = [] /\
  X = accumulated deltaX wheels /\
  Y = accumulated deltaY wheels /\
  (forall earlier e, wheels = earlier ++ [e] ->
     (lastScrollX (handler w1), lastScrollY (handler w1))
     = getNormalizedCoordsFromMouse rect e) /\
  snd (animationFrame w1)
  = (if (THRESHOLD <? abs X) || (THRESHOLD <? abs Y)
     then [onScroll (lastScrollX (handler w1)) (lastScrollY (handler w1)) X Y]
     else []) /\
  ((abs X <=? THRESHOLD) = true -> (abs Y <=? THRESHOLD) = true ->
   snd (animationFrame w1) = [] /\
   scrollBufferX (handler (fst (animationFrame w1))) = X /\
   scrollBufferY (handler (fst (animationFrame w1))) = Y) /\
  (List.length
     (snd (animationFrame (fst (run rect hasScroll initial_world events)))) <= 1)%nat.
Proof.
  cbv zeta.
  destruct (float_wheels_accumulate rect wheels initial_world float_initial_invariant)
    as (Hout & Hx & Hy & Hqueue & Hsame & Hlast).
  pose proof (float_run_invariant rect true (map Wheel wheels) initial_world
                float_initial_invariant) as Hinv.
  set (w1 := fst (run rect true initial_world (map Wheel wheels))) in *.
  destruct (float_frame_step w1 Hinv) as (_ & _ & _ & Hidle & Hwaiting).
  assert (Hframe :
    snd (animationFrame w1)
    = (if exceeds (scrollBufferX (handler w1)) || exceeds (scrollBufferY (handler w1))
       then [onScroll (lastScrollX (handler w1)) (lastScrollY (handler w1))
               (scrollBufferX (handler w1)) (scrollBufferY (handler w1))]
       else []) /\
    scrollBufferX (handler (fst (animationFrame w1)))
    = (if exceeds (scrollBufferX (handler w1)) || exceeds (scrollBufferY (handler w1))
       then 0 else scrollBufferX (handler w1)) /\
    scrollBufferY (handler (fst (animationFrame w1)))
    = (if exceeds (scrollBufferX (handler w1)) || exceeds (scrollBufferY (handler w1))
       then 0 else scrollBufferY (handler w1))).
  { destruct wheels as [|e more].
    - rewrite (Hsame eq_refl). vm_compute. repeat split.
    - destruct Hqueue as (id & _ & Hq); [discriminate|].
      apply Hwaiting. rewrite Hq. discriminate. }
  destruct Hframe as (Hflush & HkeepX & HkeepY).
  split; [exact Hout|].
  split; [exact Hx|].
  split; [exact Hy|].
  split; [exact Hlast|].
  split; [exact Hflush|].
  split.
  - intros HX HY. rewrite Hflush, HkeepX, HkeepY. unfold exceeds.
    rewrite (leb_not_gtb _ _ HX), (leb_not_gtb _ _ HY). repeat split.
  - apply float_frame_at_most_one, float_run_invariant, float_initial_invariant.
Qed.

(** X20: no scroll is lost or sent twice.  For every sequence of wheel events
    and frame boundaries, the wheel events split, in order, into consecutive
    non-empty stretches followed by a rest; the scroll callbacks made are, in
    order, one for each stretch, carrying the position of its last event and
    the running sums of its quotients from an empty buffer; the buffers hold
    the running sums of the rest; and when no frame callback is waiting,
    neither buffered magnitude exceeds the threshold. *)
Theorem wheel_events_are_flushed_once (rect : DOMRect) (events : list Event) :
  let w' := fst (run rect true initial_world events) in
  exists stretches rest,
    wheels_of events = List.concat stretches ++ rest /\
    Forall2 (fun c stretch =>
               exists earlier e,
                 stretch = earlier ++ [e] /\
                 c = onScroll (fst (getNormalizedCoordsFromMouse rect e))
                              (snd (getNormalizedCoordsFromMouse rect e))
                              (accumulated deltaX stretch)
                              (accumulated deltaY stretch))
            (snd (run rect true initial_world events)) stretches /\
    scrollBufferX (handler w') = accumulated deltaX rest /\
    scrollBufferY (handler w') = accumulated deltaY rest /\
    (rafQueue w' = [] ->
     exceeds (scrollBufferX (handler w')) = false /\
     exceeds (scrollBufferY (handler w')) = false).
Proof.
  cbv zeta.
  destruct (float_run_stretches rect events initial_world [] float_initial_invariant
              eq_refl eq_refl)
    as (stretches & rest & Hsplit & Hcalls & Hx & Hy & Hsmall).
  - intros [|? ?] ? Heq; discriminate Heq.
  - intros _. reflexivity.
  - exists stretches, rest.
    split; [exact Hsplit|]. split; [exact Hcalls|].
    split; [exact Hx|]. split; [exact Hy|].
    intros Hq. apply orb_false_iff, Hsmall, Hq.
Qed.

End ScrollWheelFacts.

(** ** iOSConnection: messages *)

Module IOSMessagesFacts.
Import IOSConnection IOSMessages IOSDropped IOSConnectionFacts.
Local Open Scope Z_scope.

Section WithDecoders.
Variable toString_utf8 : Buffer -> string.
Variable JSON_parse : string -> option InfoJson.

Local Abbreviation processMessage := (processMessage toString_utf8 JSON_parse).
Local Abbreviation processMessages := (processMessages toString_utf8 JSON_parse).
Local Abbreviation onData := (onData toString_utf8 JSON_parse).
Local Abbreviation onChunks := (onChunks toString_utf8 JSON_parse).

Lemma processMessages_app a : forall b d,
  processMessages (a ++ b) d
  = (fst (processMessages b (fst (processMessages a d))),
     snd (processMessages a d) ++ snd (processMessages b (fst (processMessages a d)))).
Proof.
  induction a as [|m a IH]; intros b d; cbn [app IOSMessages.processMessages].
  - cbn. destruct (processMessages b d); reflexivity.
  - destruct (processMessage m d) as [d1 out1]. rewrite IH.
    destruct (processMessages a d1) as [d2 out2]. cbn [fst snd].
    destruct (processMessages b d2) as [d3 out3]. cbn [fst snd].
    rewrite app_assoc. reflexivity.
Qed.

(** The listener is the framing of [feed] followed by the handlers. *)
Lemma onChunks_feed chunks : forall c,
  onChunks chunks c
  = ({| messageBuffer := snd (feed (messageBuffer c) chunks);
        device := fst (processMessages (fst (feed (messageBuffer c) chunks)) (device c)) |},
     snd (processMessages (fst (feed (messageBuffer c) chunks)) (device c))).
Proof.
  induction chunks as [|chunk more IH]; intros c;
    cbn [IOSMessages.onChunks feed].
  - destruct c; reflexivity.
  - unfold IOSMessages.onData.
    destruct (handleHelperData (messageBuffer c) chunk) as [calls buf].
    destruct (processMessages calls (device c)) as [d1 out1] eqn:H1.
    rewrite IH. cbn [messageBuffer device].
    destruct (feed buf more) as [calls' buf']. cbn [fst snd].
    rewrite processMessages_app, H1. reflexivity.
Qed.

(** Any chunking of a stream of valid frames is handled as the frames one by
    one. *)
Lemma onChunks_stream frames chunks c :
  Forall valid_frame frames ->
  messageBuffer c = empty_buffer ->
  List.concat chunks = stream frames ->
  onChunks chunks c
  = ({| messageBuffer := empty_buffer;
        device := fst (processMessages (delivered frames) (device c)) |},
     snd (processMessages (delivered frames) (device c))).
Proof.
  intros Hvalid Hbuf Hcat. rewrite onChunks_feed, Hbuf.
  rewrite (feed_concat chunks empty_buffer (processBuffer_equation_1)).
  cbn [app empty_buffer]. rewrite Hcat, (processBuffer_stream frames Hvalid).
  reflexivity.
Qed.

(** A message the handlers drop: an unknown type (the device list included),
    a VIDEO_CONFIG shorter than its two dimensions, a VIDEO_FRAME shorter than
    its flags and PTS. *)
Lemma processMessage_dropped m d :
  dropped m -> processMessage m d = (d, []).
Proof.
  unfold dropped, IOSMessages.processMessage.
  intros [(H2 & H3 & H4 & H5 & H6) | [[Ht Hlen] | [Ht Hlen]]].
  - apply Z.eqb_neq in H2, H3, H4, H5, H6.
    unfold MessageType.DEVICE_INFO, MessageType.VIDEO_CONFIG, MessageType.VIDEO_FRAME,
      MessageType.ERROR, MessageType.STATUS.
    rewrite H2, H3, H4, H5, H6. reflexivity.
  - rewrite Ht. cbn. unfold handleVideoConfig.
    destruct (payload m) as [|? [|? [|? [|? [|? [|? [|? [|? ?]]]]]]]];
      try reflexivity. cbn in Hlen. lia.
  - rewrite Ht. cbn. unfold handleVideoFrame.
    destruct (payload m) as [|? [|? [|? [|? [|? [|? [|? [|? [|? ?]]]]]]]]];
      try reflexivity. cbn in Hlen. lia.
Qed.

(** X1: a dropped message in the middle of a stream changes nothing: for any
    chunking, the callbacks made and the fields left are those of the stream
    without it. *)
Theorem dropped_message_is_skipped
    (before after : list (byte * Buffer)) (t : byte) (p : Buffer)
    (chunks chunks' : list Buffer) (c : Connection) :
  Forall valid_frame before -> Forall valid_frame after -> valid_frame (t, p) ->
  dropped {| type := byte_val t; payload := p |} ->
  messageBuffer c = empty_buffer ->
  List.concat chunks = stream (before ++ (t, p) :: after) ->
  List.concat chunks' = stream (before ++ after) ->
  onChunks chunks c = onChunks chunks' c.
Proof.
  intros Hb Ha Hv Hdrop Hbuf Hcat Hcat'.
  assert (Hall : Forall valid_frame (before ++ (t, p) :: after)).
  { apply Forall_app. split; [exact Hb | constructor; assumption]. }
  assert (Hall' : Forall valid_frame (before ++ after)).
  { apply Forall_app. split; assumption. }
  rewrite (onChunks_stream _ chunks c Hall Hbuf Hcat).
  rewrite (onChunks_stream _ chunks' c Hall' Hbuf Hcat').
  unfold delivered. rewrite !map_app. cbn [map fst snd].
  rewrite !processMessages_app. cbn [fst snd].
  set (d1 := fst (processMessages _ (device c))).
  cbn [IOSMessages.processMessages].
  rewrite (processMessage_dropped _ d1 Hdrop). cbn [app].
  destruct (processMessages _ d1) as [d2 out2]. reflexivity.
Qed.

(** X2: the configuration message written by the helper, cut into chunks in
    any way, sets both dimensions and hands SPS and PPS to the renderer as a
    configuration unit that is not a key frame. *)
Theorem video_config_round_trip
    (WIDTH HEIGHT : Z) (spsData ppsData : Buffer) (chunks : list Buffer)
    (c : Connection) :
  0 <= WIDTH < 2 ^ 32 -> 0 <= HEIGHT < 2 ^ 32 ->
  Z.of_nat (List.length (spsData ++ ppsData)) + 8 < 2 ^ 32 ->
  messageBuffer c = empty_buffer ->
  List.concat chunks = writeMessage x03 (configPayload WIDTH HEIGHT spsData ppsData) ->
  onChunks chunks c
  = ({| messageBuffer := empty_buffer;
        device := {| _deviceWidth := WIDTH; _deviceHeight := HEIGHT;
                     _deviceInfo := _deviceInfo (device c) |} |},
     [ onStatus ("Streaming at " ++ WDAClient.number_to_string WIDTH ++ "x"
                   ++ WDAClient.number_to_string HEIGHT)%string;
       onVideoFrame (spsData ++ ppsData) true false (Some WIDTH) (Some HEIGHT) "h264" ]).
Proof.
  intros HW HH Hlen Hbuf Hcat.
  assert (Hvalid : Forall valid_frame [(x03, configPayload WIDTH HEIGHT spsData ppsData)]).
  { constructor; [|constructor]. unfold valid_frame, configPayload. cbn [snd].
    rewrite !length_app. cbn [List.length writeUInt32BE].
    rewrite length_app in Hlen. lia. }
  rewrite (onChunks_stream _ chunks c Hvalid Hbuf).
  - destruct (read_write_UInt32BE WIDTH HW) as [_ HrW].
    destruct (read_write_UInt32BE HEIGHT HH) as [_ HrH].
    unfold delivered, configPayload, writeUInt32BE.
    cbn [map fst snd IOSMessages.processMessages app].
    unfold IOSMessages.processMessage. cbn [type payload].
    change (byte_val x03 =? MessageType.DEVICE_INFO) with false.
    change (byte_val x03 =? MessageType.VIDEO_CONFIG) with true.
    cbn iota. unfold handleVideoConfig. rewrite HrW, HrH. reflexivity.
  - unfold stream. cbn [map List.concat fst snd]. rewrite app_nil_r. exact Hcat.
Qed.

(** X3: a frame message written by the helper, cut into chunks in any way,
    reaches the renderer with the same bytes; bit 0 of the flag byte comes out
    as [isKeyFrame] and bit 1 as [isConfig]; the PTS is ignored and the
    dimensions are left alone. *)
Theorem video_frame_round_trip
    (flags pts : Z) (data : Buffer) (chunks : list Buffer) (c : Connection) :
  0 <= flags < 256 ->
  Z.of_nat (List.length data) + 9 < 2 ^ 32 ->
  messageBuffer c = empty_buffer ->
  List.concat chunks = writeMessage x04 (framePayload flags pts data) ->
  onChunks chunks c
  = ({| messageBuffer := empty_buffer; device := device c |},
     [ onVideoFrame data (Z.testbit flags 1) (Z.testbit flags 0) None None "h264" ]).
Proof.
  intros Hflags Hlen Hbuf Hcat.
  assert (Hvalid : Forall valid_frame [(x04, framePayload flags pts data)]).
  { constructor; [|constructor]. unfold valid_frame, framePayload. cbn [snd].
    cbn [List.length]. rewrite !length_app. cbn [List.length writeUInt32BE]. lia. }
  rewrite (onChunks_stream _ chunks c Hvalid Hbuf).
  - unfold delivered, framePayload, writeUInt32BE.
    cbn [map fst snd IOSMessages.processMessages app].
    unfold IOSMessages.processMessage. cbn [type payload].
    change (byte_val x04 =? MessageType.DEVICE_INFO) with false.
    change (byte_val x04 =? MessageType.VIDEO_CONFIG) with false.
    change (byte_val x04 =? MessageType.VIDEO_FRAME) with true.
    cbn iota. unfold handleVideoFrame.
    rewrite byte_val_of_Z, Z.mod_small by lia.
    assert (H0 : negb (Z.land flags 1 =? 0) = Z.testbit flags 0).
    { change 1 with (Z.ones 1). rewrite Z.land_ones by lia.
      rewrite Z.bit0_odd, <- Z.negb_even.
      destruct (Z.even flags) eqn:He.
      - apply Z.even_spec in He. destruct He as [k ->].
        rewrite Z.mul_comm, Z_mod_mult. reflexivity.
      - rewrite <- Z.negb_odd in He. apply negb_false_iff, Z.odd_spec in He.
        destruct He as [k ->]. rewrite Z.add_comm, Z.mul_comm, Z_mod_plus_full.
        reflexivity. }
    assert (H1 : negb (Z.land flags 2 =? 0) = Z.testbit flags 1).
    { change 2 with (Z.shiftl 1 1).
      destruct (Z.testbit flags 1) eqn:Hb.
      - apply negb_true_iff, Z.eqb_neq. intros Hz.
        assert (Hbit : Z.testbit (Z.land flags (Z.shiftl 1 1)) 1 = true).
        { rewrite Z.land_spec, Hb. reflexivity. }
        rewrite Hz in Hbit. discriminate.
      - apply negb_false_iff, Z.eqb_eq. apply Z.bits_inj'. intros n Hn.
        rewrite Z.land_spec, Z.bits_0.
        destruct (Z.eq_dec n 1) as [->|Hne]; [rewrite Hb; reflexivity|].
        rewrite Z.shiftl_spec by lia.
        replace (Z.testbit 1 (n - 1)) with false; [apply andb_false_r|].
        symmetry. destruct (Z.ltb_spec (n - 1) 0) as [Hneg|Hpos].
        + apply Z.testbit_neg_r. lia.
        + apply Z.bits_above_log2; [lia|]. change (Z.log2 1) with 0. lia. }
    rewrite H0, H1. destruct c as [buf d]. reflexivity.
  - unfold stream. cbn [map List.concat fst snd]. rewrite app_nil_r. exact Hcat.
Qed.

End WithDecoders.

End IOSMessagesFacts.


Module IOSMessagesWitnesses.
Import IOSConnection IOSMessages IOSDropped IOSMessagesFacts.
Local Open Scope Z_scope.

Lemma dropped_message_is_skipped_witness :
  onChunks (fun _ => EmptyString) (fun _ => None)
    [[x04; x00; x00; x00]; [x09; x01; x00; x00; x00; x00; x00; x00; x00; x00];
     [x03; x00; x00; x00; x02; x07]; [x08; x04; x00; x00; x00; x09; x00; x00];
     [x00; x00; x00; x00; x00; x00; x01]] new_connection
  = onChunks (fun _ => EmptyString) (fun _ => None)
    [[x04; x00; x00; x00; x09; x01; x00; x00; x00; x00; x00; x00; x00; x00; x04];
     [x00; x00; x00; x09; x00; x00; x00; x00; x00; x00; x00; x00; x01]] new_connection.
Proof.
  apply (dropped_message_is_skipped (fun _ => EmptyString) (fun _ => None)
           [(x04, [x01; x00; x00; x00; x00; x00; x00; x00; x00])]
           [(x04, [x00; x00; x00; x00; x00; x00; x00; x00; x01])]
           x03 [x07; x08]).
  - repeat constructor.
  - repeat constructor.
  - reflexivity.
  - right. left. split; [reflexivity | simpl; lia].
  - reflexivity.
  - vm_compute. reflexivity.
  - vm_compute. reflexivity.
Defined.

Lemma video_config_round_trip_witness :
  onChunks (fun _ => EmptyString) (fun _ => None)
    [[x03; x00; x00]; [x00; x0b; x00; x00; x07]; []; [x80; x00; x00; x04; x38; x67; x42];
     [x68]] new_connection
  = ({| messageBuffer := empty_buffer;
        device := {| _deviceWidth := 1920; _deviceHeight := 1080; _deviceInfo := None |} |},
     [ onStatus "Streaming at 1920x1080";
       onVideoFrame [x67; x42; x68] true false (Some 1920) (Some 1080) "h264" ]).
Proof.
  apply (video_config_round_trip (fun _ => EmptyString) (fun _ => None)
           1920 1080 [x67; x42] [x68]).
  - lia.
  - lia.
  - simpl. lia.
  - reflexivity.
  - vm_compute. reflexivity.
Defined.

Lemma video_frame_round_trip_witness :
  onChunks (fun _ => EmptyString) (fun _ => None)
    [[x04]; [x00; x00; x00; x0b; x01; x00; x00; x00; x01]; [x00; x00; x00; x02; x65];
     [x88]] new_connection
  = ({| messageBuffer := empty_buffer; device := device new_connection |},
     [ onVideoFrame [x65; x88] false true None None "h264" ]).
Proof.
  apply (video_frame_round_trip (fun _ => EmptyString) (fun _ => None)
           1 4294967298 [x65; x88]).
  - lia.
  - simpl. lia.
  - reflexivity.
  - vm_compute. reflexivity.
Defined.

End IOSMessagesWitnesses.

(** ** iOSDeviceManager: the device-list scan *)

Module IOSDeviceManagerFacts.
Import IOSConnection IOSDeviceManager IOSConnectionFacts.
Local Open Scope Z_scope.

Lemma scan_processBuffer (turns : nat) : forall (buffer : Buffer) (offset : nat),
  (List.length buffer - offset <= turns)%nat ->
  scan turns buffer offset
  = option_map payload
      (find (fun m => type m =? MessageType.DEVICE_LIST)
            (fst (processBuffer (skipn offset buffer)))).
Proof.
  induction turns as [|turns IH]; intros buffer offset Hfuel.
  - cbn [scan]. rewrite skipn_all2 by lia. rewrite processBuffer_equation_1. reflexivity.
  - cbn [scan]. unfold turn.
    destruct (Nat.leb_spec (offset + 5) (List.length buffer)) as [Hfive|Hshort].
    + assert (Hlen : (List.length (skipn offset buffer) = List.length buffer - offset)%nat)
        by apply length_skipn.
      destruct (skipn offset buffer) as [|t [|b0 [|b1 [|b2 [|b3 rest]]]]] eqn:Hskip;
        cbn [List.length] in Hlen; try lia.
      set (n := Z.to_nat (readUInt32BE b0 b1 b2 b3)).
      assert (Hrest : skipn (offset + 5) buffer = rest).
      { rewrite Nat.add_comm, <- skipn_skipn, Hskip. reflexivity. }
      destruct (Nat.ltb_spec (List.length buffer) (offset + 5 + n)) as [Hinc|Hcomp].
      * rewrite (processBuffer_incomplete t b0 b1 b2 b3 rest) by (fold n; lia).
        reflexivity.
      * rewrite (processBuffer_complete t b0 b1 b2 b3 rest) by (fold n; lia).
        fold n. destruct (processBuffer (skipn n rest)) as [ms remaining] eqn:Hnext.
        cbn [fst find type].
        destruct (byte_val t =? MessageType.DEVICE_LIST).
        -- cbn [option_map payload]. unfold subarray. rewrite Hrest.
           replace (offset + 5 + n - (offset + 5))%nat with n by lia. reflexivity.
        -- rewrite IH by lia.
           replace (offset + 5 + n)%nat with (n + (offset + 5))%nat by lia.
           rewrite <- skipn_skipn, Hrest, Hnext. reflexivity.
    + rewrite processBuffer_short; [reflexivity|].
      rewrite length_skipn. lia.
Qed.

(** X4: the scan of the device manager and the framing of the connection
    agree: on every buffer the scan returns the payload of the first
    DEVICE_LIST message the connection would deliver, and nothing when there
    is none. *)
Theorem findDeviceList_first_delivered (buffer : Buffer) :
  findDeviceList buffer
  = option_map payload
      (find (fun m => type m =? MessageType.DEVICE_LIST) (fst (processBuffer buffer))).
Proof.
  unfold findDeviceList. rewrite scan_processBuffer by lia. reflexivity.
Qed.

End IOSDeviceManagerFacts.


(** ** CodecUtils: which SPS is found, defaults, codec strings *)

Module CodecUtilsMoreFacts.
Import CodecUtils AnnexB CodecStrings CodecUtilsFacts.
Local Open Scope string_scope.
Local Open Scope list_scope.
Local Open Scope Z_scope.

Lemma skipn_at {A} (l : list A) (n : nat) (a : A) :
  nth_error l n = Some a ->
  exists pre rest, l = pre ++ a :: rest /\ skipn n l = a :: rest /\ List.length pre = n.
Proof.
  intros H. destruct (nth_error_split l n H) as (pre & rest & -> & Hlen).
  exists pre, rest. repeat split; [|assumption].
  rewrite skipn_app, skipn_all2 by lia.
  replace (n - List.length pre)%nat with 0%nat by lia. reflexivity.
Qed.

Lemma sps_header_is_a_byte d (n : nat) :
  (Z.land (to_int32 (at_ d n)) 31 =? H264NALUnitType.SPS) = true ->
  exists b, nth_error d n = Some b /\ is_h264_sps b.
Proof.
  unfold at_, to_int32. destruct (nth_error d n) as [b|]; [|discriminate].
  intros H. exists b. split; [reflexivity|]. apply Z.eqb_eq in H. exact H.
Qed.

Lemma no_sps_header_at d k :
  findH264SPS_body d k = None ->
  forall b, nal_header_at d k b -> h264_nal_type b <> 7.
Proof.
  intros Hnone b Hn Hb.
  assert (Ht : header_test sps_test d k = true).
  { apply (header_test_spec sps_test d k eq_refl). exists b. split; [exact Hn|].
    apply sps_test_spec. exact Hb. }
  apply findH264SPS_body_test in Ht. contradiction.
Qed.

(** X5: when [findH264SPS] finds something, it is the rest of the buffer from
    the header byte of the first type-7 unit of the scan window, start code
    stripped and everything after the unit included; when it finds nothing,
    no start code of the window is followed by a type-7 header. *)
Theorem findH264SPS_first_in_window (config : Uint8Array) :
  match findH264SPS config with
  | Some spsData =>
      exists (i : nat) (b : byte) (pre rest : Uint8Array),
        (i + 4 < List.length config)%nat /\
        config = pre ++ b :: rest /\ spsData = b :: rest /\ is_h264_sps b /\
        ((start_code3_at config i /\ List.length pre = (i + 3)%nat) \/
         (start_code4_at config i /\ List.length pre = (i + 4)%nat)) /\
        (forall k b', (k < i)%nat -> nal_header_at config k b' -> h264_nal_type b' <> 7)
  | None =>
      forall i b, (i + 4 < List.length config)%nat ->
                  nal_header_at config i b -> h264_nal_type b <> 7
  end.
Proof.
  unfold findH264SPS.
  destruct (for_range (findH264SPS_body config) 0 (List.length config - 4))
    as [spsData|] eqn:Hr.
  - apply for_range_some in Hr. destruct Hr as (j & Hj & Hb & Hfirst).
    assert (Hbefore : forall k b', (k < j)%nat -> nal_header_at config k b' ->
                                   h264_nal_type b' <> 7).
    { intros k b' Hk. apply no_sps_header_at. apply Hfirst. lia. }
    unfold findH264SPS_body in Hb.
    destruct (start_code_offset_spec config j) as [[H E]|[[H E]|[H E]]];
      rewrite E in Hb; cbn [Nat.ltb Nat.leb] in Hb; [| |discriminate];
      destruct (Z.land _ 31 =? H264NALUnitType.SPS) eqn:Ht; try discriminate;
      injection Hb as <-;
      destruct (sps_header_is_a_byte _ _ Ht) as (b & Hnth & Hsps);
      destruct (skipn_at _ _ _ Hnth) as (pre & rest & Hcfg & Hskip & Hlen);
      exists j, b, pre, rest; unfold subarray_from;
      (split; [lia|]); (split; [exact Hcfg|]); (split; [exact Hskip|]);
      (split; [exact Hsps|]); (split; [|exact Hbefore]).
    + left. split; assumption.
    + right. split; assumption.
  - intros i b Hi. apply no_sps_header_at.
    apply (proj1 (for_range_none _ _ _) Hr). lia.
Qed.

(** X6: with the codec argument left out, [parseConfigDimensions] is
    [parseH264SPSDimensions] on every buffer and for every parser: detection
    adds nothing, since both depend on the same SPS scan; and whatever the
    codec argument, it returns normally. *)
Theorem parseConfigDimensions_without_codec
    (parseSPS : Uint8Array -> Completion SPS) (config : Uint8Array) :
  parseConfigDimensions parseSPS config None = parseH264SPSDimensions parseSPS config /\
  (forall codec, exists r, parseConfigDimensions parseSPS config codec = Normal r).
Proof.
  assert (Htotal : exists r, parseH264SPSDimensions parseSPS config = Normal r).
  { unfold parseH264SPSDimensions.
    destruct (findH264SPS config) as [spsData|]; [|eauto].
    destruct (parseSPS spsData) as [sps|e]; cbn [cbind try_catch]; [|eauto].
    destruct (dimensions_of_sps sps); cbn [cbind try_catch]; eauto. }
  assert (Hnone : parseConfigDimensions parseSPS config None
                  = parseH264SPSDimensions parseSPS config).
  { unfold parseConfigDimensions, detectCodec, parseH264SPSDimensions.
    destruct (findH264SPS config) as [spsData|]; [reflexivity|].
    destruct (findH265ConfigNAL config); reflexivity. }
  split; [exact Hnone|].
  intros [[| |]|]; try (rewrite Hnone); try exact Htotal;
    unfold parseConfigDimensions; eauto.
Qed.

(** X7: what [detectCodec] answers, exactly: ['h264'] if and only if the scan
    window holds a type-7 header; ['h265'] if and only if it holds none and
    holds a header of type 32, 33 or 34; [null] if and only if it holds
    neither; ['av1'] never. *)
Theorem detectCodec_exact (config : Uint8Array) :
  (detectCodec config = Some h264 <-> contains_nal_in_window config is_h264_sps) /\
  (detectCodec config = Some h265 <->
     ~ contains_nal_in_window config is_h264_sps /\
     contains_nal_in_window config is_h265_config) /\
  (detectCodec config = None <->
     ~ contains_nal_in_window config is_h264_sps /\
     ~ contains_nal_in_window config is_h265_config) /\
  detectCodec config <> Some av1.
Proof.
  pose proof (findH264SPS_found config) as Hsps.
  pose proof (findH265ConfigNAL_found config) as Hcfg.
  unfold detectCodec.
  destruct (findH264SPS config) as [s|].
  - assert (H : contains_nal_in_window config is_h264_sps) by (apply Hsps; congruence).
    repeat split; intros; try congruence; tauto.
  - assert (H : ~ contains_nal_in_window config is_h264_sps).
    { intros H. apply Hsps in H. congruence. }
    destruct (findH265ConfigNAL config).
    + assert (H' : contains_nal_in_window config is_h265_config) by (apply Hcfg; reflexivity).
      repeat split; intros; try congruence; tauto.
    + assert (H' : ~ contains_nal_in_window config is_h265_config).
      { intros H'. apply Hcfg in H'. discriminate. }
      repeat split; intros; try congruence; tauto.
Qed.

Lemma two_hex_digits n :
  0 <= n < 256 ->
  String.length (padStart (toString16 n) 2 "0") = 2%nat /\
  hex_value (padStart (toString16 n) 2 "0") = Some n.
Proof.
  intros Hn.
  assert (Hall : forallb
            (fun k => let s := padStart (toString16 (Z.of_nat k)) 2 "0" in
                      (String.length s =? 2)%nat &&
                      match hex_value s with
                      | Some v => v =? Z.of_nat k
                      | None => false
                      end) (seq 0 256) = true) by (vm_compute; reflexivity).
  rewrite forallb_forall in Hall.
  specialize (Hall (Z.to_nat n)). rewrite Z2Nat.id in Hall by lia.
  assert (Hin : In (Z.to_nat n) (seq 0 256)) by (apply in_seq; lia).
  apply Hall in Hin. cbv zeta in Hin. apply andb_true_iff in Hin.
  destruct Hin as [Hlen Hval]. apply Nat.eqb_eq in Hlen.
  split; [exact Hlen|].
  destruct (hex_value _) as [v|]; [|discriminate].
  apply Z.eqb_eq in Hval. congruence.
Qed.

(** X8: for an SPS whose profile, compatibility and level are bytes, the
    H.264 codec string is [avc1.] followed by three groups of exactly two
    lower-case hexadecimal digits whose values are those three fields, in
    that order. *)
Theorem generateCodecString_encodes_profile
    (parseSPS : Uint8Array -> Completion SPSProfile) (config spsData : Uint8Array)
    (sps : SPSProfile) (profile_byte compatibility_byte level_byte : Z) :
  findH264SPS config = Some spsData ->
  parseSPS spsData = Normal sps ->
  profile_idc sps = Some profile_byte ->
  profile_compatibility sps = Some compatibility_byte ->
  level_idc sps = Some level_byte ->
  0 <= profile_byte < 256 ->
  0 <= compatibility_byte < 256 ->
  0 <= level_byte < 256 ->
  exists p c l : string,
    generateCodecString parseSPS h264 (Some config) = Normal ("avc1." ++ p ++ c ++ l)%string /\
    String.length p = 2%nat /\ String.length c = 2%nat /\ String.length l = 2%nat /\
    hex_value p = Some profile_byte /\
    hex_value c = Some compatibility_byte /\
    hex_value l = Some level_byte.
Proof.
  intros Hfind Hparse Hprofile Hcompat Hlevel Hp Hc Hl.
  destruct (two_hex_digits _ Hp) as [Hp1 Hp2].
  destruct (two_hex_digits _ Hc) as [Hc1 Hc2].
  destruct (two_hex_digits _ Hl) as [Hl1 Hl2].
  exists (padStart (toString16 profile_byte) 2 "0"),
         (padStart (toString16 compatibility_byte) 2 "0"),
         (padStart (toString16 level_byte) 2 "0").
  unfold generateCodecString, extractH264SPSInfo. rewrite Hfind, Hparse.
  cbn [cbind try_catch profile constraint level].
  rewrite Hprofile, Hcompat, Hlevel. cbn [two_digits cbind].
  repeat split; assumption.
Qed.

Lemma generateCodecString_encodes_profile_witness :
  exists p c l : string,
    generateCodecString
      (fun _ => Normal {| profile_idc := Some 100; profile_compatibility := Some 0;
                          level_idc := Some 40 |})
      h264 (Some H264_SPS_1920x1080) = Normal ("avc1." ++ p ++ c ++ l)%string /\
    String.length p = 2%nat /\ String.length c = 2%nat /\ String.length l = 2%nat /\
    hex_value p = Some 100 /\ hex_value c = Some 0 /\ hex_value l = Some 40.
Proof.
  apply (generateCodecString_encodes_profile
           (fun _ => Normal {| profile_idc := Some 100; profile_compatibility := Some 0;
                               level_idc := Some 40 |})
           H264_SPS_1920x1080 (skipn 4 H264_SPS_1920x1080)
           {| profile_idc := Some 100; profile_compatibility := Some 0;
              level_idc := Some 40 |}
           100 0 40).
  - reflexivity.
  - reflexivity.
  - reflexivity.
  - reflexivity.
  - reflexivity.
  - lia.
  - lia.
  - lia.
Defined.

Example codec_string_of_fixture :
  generateCodecString
    (fun _ => Normal {| profile_idc := Some 100; profile_compatibility := Some 0;
                        level_idc := Some 40 |})
    h264 (Some H264_SPS_1920x1080) = Normal "avc1.640028".
Proof. vm_compute. reflexivity. Qed.

(** A unit cut short after its first payload byte, read by a parser that
    leaves the fields it could not reach undefined: the call throws. *)
Example codec_string_of_truncated_sps :
  findH264SPS [x00; x00; x00; x01; x67; x00] = Some [x67; x00] /\
  exists e,
    generateCodecString
      (fun _ => Normal {| profile_idc := None; profile_compatibility := None;
                          level_idc := None |})
      h264 (Some [x00; x00; x00; x01; x67; x00]) = Throw e.
Proof. split; [reflexivity | eexists; reflexivity]. Qed.

(** X9: when [generateCodecString] returns and when it throws.  For H.264 it
    returns the default [avc1.42001f] when no configuration is given, when
    the scan window holds no type-7 header, and when the parser throws; the
    H.265 and AV1 strings do not depend on the configuration.  It throws, a
    [TypeError] from [toString] outside any [try], exactly when the codec is
    H.264, a type-7 unit is found, the parser returns, and one of the three
    properties read from its result is undefined. *)
Theorem generateCodecString_defaults
    (parseSPS : Uint8Array -> Completion SPSProfile) :
  generateCodecString parseSPS h264 None = Normal "avc1.42001f" /\
  (forall config, ~ contains_nal_in_window config is_h264_sps ->
     generateCodecString parseSPS h264 (Some config) = Normal "avc1.42001f") /\
  (forall config spsData e,
     findH264SPS config = Some spsData -> parseSPS spsData = Throw e ->
     generateCodecString parseSPS h264 (Some config) = Normal "avc1.42001f") /\
  (forall config, generateCodecString parseSPS h265 config = Normal "hev1.1.6.L93.B0") /\
  (forall config, generateCodecString parseSPS av1 config = Normal "av01.0.05M.08") /\
  (forall codec config,
     (exists e, generateCodecString parseSPS codec config = Throw e) <->
     codec = h264 /\
     exists c spsData sps,
       config = Some c /\ findH264SPS c = Some spsData /\
       parseSPS spsData = Normal sps /\
       (profile_idc sps = None \/ profile_compatibility sps = None \/
        level_idc sps = None)).
Proof.
  split; [reflexivity|].
  split.
  { intros config Hno. unfold generateCodecString, extractH264SPSInfo.
    destruct (findH264SPS config) as [spsData|] eqn:Hfind; [|reflexivity].
    exfalso. apply Hno. apply findH264SPS_found. congruence. }
  split.
  { intros config spsData e Hfind Hthrow.
    unfold generateCodecString, extractH264SPSInfo. rewrite Hfind, Hthrow. reflexivity. }
  split; [reflexivity|]. split; [reflexivity|].
  intros codec config. split.
  - intros [e He]. destruct codec; cbn [generateCodecString] in He; try discriminate He.
    split; [reflexivity|].
    destruct config as [c|]; cbn [cbind] in He; [|discriminate He].
    unfold extractH264SPSInfo in He.
    destruct (findH264SPS c) as [spsData|] eqn:Hfind; cbn [cbind] in He;
      [|discriminate He].
    destruct (parseSPS spsData) as [sps|e'] eqn:Hparse; cbn [cbind try_catch] in He;
      [|discriminate He].
    exists c, spsData, sps. repeat split; try assumption.
    cbn [profile constraint level] in He.
    destruct (profile_idc sps); [|left; reflexivity].
    destruct (profile_compatibility sps); [|right; left; reflexivity].
    destruct (level_idc sps); [|right; right; reflexivity].
    discriminate He.
  - intros [-> (c & spsData & sps & -> & Hfind & Hparse & Hundef)].
    unfold generateCodecString, extractH264SPSInfo. rewrite Hfind, Hparse.
    cbn [cbind try_catch profile constraint level].
    destruct (profile_idc sps); [|eexists; reflexivity].
    destruct (profile_compatibility sps); [|eexists; reflexivity].
    destruct (level_idc sps); [|eexists; reflexivity].
    destruct Hundef as [H|[H|H]]; discriminate H.
Qed.

End CodecUtilsMoreFacts.


(** ** WDAClient: runs of calls *)

Module WDAClientRunsFacts.
Import WDAClient WDAClientRuns WDAClientFacts.
Local Open Scope string_scope.
Local Open Scope list_scope.

Lemma prefix_append_both (s a b : string) :
  String.prefix (s ++ a) (s ++ b) = String.prefix a b.
Proof.
  induction s as [|c s IH]; simpl; [reflexivity|].
  destruct (ascii_dec c c) as [_|Hne]; [exact IH | congruence].
Qed.

Lemma prefix_append (s t : string) : String.prefix s (s ++ t) = true.
Proof.
  induction s as [|c s IH]; simpl; [destruct t; reflexivity|].
  destruct (ascii_dec c c) as [_|Hne]; [exact IH | congruence].
Qed.

(** Every path under a session begins with [/session/<id>/]. *)
Lemma session_path_prefix (sid rest : string) :
  String.prefix ("/session/" ++ sid ++ "/") ("/session/" ++ sid ++ "/" ++ rest) = true.
Proof.
  rewrite (prefix_append_both "/session/"), prefix_append_both.
  apply (prefix_append "/").
Qed.

Section WithServer.
Variable Server : Type.
Variable fetch : Server -> Request -> Server * FetchResult.
Variable Math_sqrt : Q -> Q.

Local Abbreviation perform := (perform fetch Math_sqrt).
Local Abbreviation run_calls := (run_calls fetch Math_sqrt).
Local Abbreviation run_later := (run_later fetch Math_sqrt).

(** Every action call starts with [ensureSession]. *)
Lemma perform_starts_with_ensureSession (call : Call) :
  exists k : string -> M Server unit,
    forall w, perform call w = bind (ensureSession fetch) k w.
Proof.
  destruct call; eexists; intros w; reflexivity.
Qed.

Lemma perform_after_ensureSession call (w w1 : World Server) sid :
  ensureSession fetch w = (w1, Normal sid) -> perform call w = perform call w1.
Proof.
  intros H. destruct (perform_starts_with_ensureSession call) as (k & Hk).
  rewrite !Hk. unfold bind. rewrite H.
  destruct (ensureSession_spec _ _ _ _ _ H) as (_ & _ & _ & _ & Hs & Ht).
  rewrite (ensureSession_reuse _ _ w1 sid Hs Ht). reflexivity.
Qed.

Lemma perform_when_ensureSession_throws call (w w1 : World Server) e :
  ensureSession fetch w = (w1, Throw e) -> perform call w = (w1, Throw e).
Proof.
  intros H. destruct (perform_starts_with_ensureSession call) as (k & Hk).
  rewrite Hk. unfold bind. rewrite H. reflexivity.
Qed.

Lemma ensureSession_throws (w w1 : World Server) e :
  ensureSession fetch w = (w1, Throw e) ->
  client w1 = client w /\ sent w1 = sent w ++ [session_request].
Proof.
  unfold ensureSession, bind, get_client.
  assert (Hc : createSession fetch w = (w1, Throw e) ->
               client w1 = client w /\ sent w1 = sent w ++ [session_request]).
  { intros H. apply createSession_spec in H. destruct H as (Hs & Ha & Hx & Hy & Hid).
    split; [|exact Hs].
    destruct (client w1), (client w). cbn in *. congruence. }
  destruct (sessionId (client w)) as [id|]; [|exact Hc].
  destruct (truthy (Some id)); [discriminate | exact Hc].
Qed.

Lemma ensureSession_fresh (w w1 : World Server) r :
  sessionId (client w) = None ->
  ensureSession fetch w = (w1, r) -> sent w1 = sent w ++ [session_request].
Proof.
  unfold ensureSession, bind, get_client. intros ->. intros H.
  apply createSession_spec in H. tauto.
Qed.

(** One action call with a session id stored. *)
Lemma perform_stored call (w w' : World Server) r sid :
  sessionId (client w) = Some sid -> sid <> "" ->
  perform call w = (w', r) ->
  sessionId (client w') = Some sid /\
  exists act,
    sent w' = sent w ++ act /\ (List.length act <= 1)%nat /\
    Forall (fun q => String.prefix ("/session/" ++ sid ++ "/") (path q) = true /\
                     is_session_request q = false) act /\
    (List.length (filter is_action_request act) + Nat.b2n (touchActive (client w'))
     <= Nat.b2n (touchActive (client w)) + Nat.b2n (is_down call))%nat /\
    (List.length (filter is_action_request act) <= Nat.b2n (is_up call))%nat.
Proof.
  intros Hsid Hne. pose proof (truthy_nonempty sid Hne) as Ht.
  assert (Hnone : forall c, is_down c = false ->
             (w, Normal tt) = (w', r) ->
             sessionId (client w') = Some sid /\
             exists act,
               sent w' = sent w ++ act /\ (List.length act <= 1)%nat /\
               Forall (fun q => String.prefix ("/session/" ++ sid ++ "/") (path q) = true /\
                                is_session_request q = false) act /\
               (List.length (filter is_action_request act)
                + Nat.b2n (touchActive (client w'))
                <= Nat.b2n (touchActive (client w)) + Nat.b2n (is_down c))%nat /\
               (List.length (filter is_action_request act) <= Nat.b2n (is_up c))%nat).
  { intros c Hc [= <- <-]. split; [exact Hsid|]. exists []. rewrite app_nil_r.
    cbn [List.length filter]. repeat split; auto; lia. }
  assert (Hone : forall c method rest body,
             is_down c = false ->
             is_session_request {| method := method; path := "/session/" ++ sid ++ "/" ++ rest;
                                   body := body |} = false ->
             is_action_request {| method := method; path := "/session/" ++ sid ++ "/" ++ rest;
                                  body := body |} = false ->
             bind (request fetch method ("/session/" ++ sid ++ "/" ++ rest) body)
                  (fun _ => ret tt) w = (w', r) ->
             sessionId (client w') = Some sid /\
             exists act,
               sent w' = sent w ++ act /\ (List.length act <= 1)%nat /\
               Forall (fun q => String.prefix ("/session/" ++ sid ++ "/") (path q) = true /\
                                is_session_request q = false) act /\
               (List.length (filter is_action_request act)
                + Nat.b2n (touchActive (client w'))
                <= Nat.b2n (touchActive (client w)) + Nat.b2n (is_down c))%nat /\
               (List.length (filter is_action_request act) <= Nat.b2n (is_up c))%nat).
  { intros c method rest body Hc Hns Hna H.
    apply request_then_ret in H. destruct H as [Hcl Hs].
    split; [rewrite Hcl; exact Hsid|].
    eexists. split; [exact Hs|]. cbn [List.length filter]. rewrite Hna, Hcl.
    cbn [List.length]. repeat split; auto; try lia.
    constructor; [|constructor]. split; [apply session_path_prefix | exact Hns]. }
  destruct call as [action x y | x y dx dy | text | button]; cbn [WDAClient.perform].
  - unfold touch, bind at 1. rewrite (ensureSession_reuse _ _ w sid Hsid Ht).
    unfold bind at 1, get_client.
    destruct action.
    + unfold set_client. intros H. injection H as <- <-. cbn.
      split; [exact Hsid|]. exists []. rewrite app_nil_r. cbn.
      repeat split; auto. destruct (touchActive (client w)); cbn; lia.
    + intros H. apply (Hnone (CallTouch move x y)); [reflexivity|].
      destruct (touchActive (client w)); exact H.
    + destruct (touchActive (client w)) eqn:Hactive.
      * unfold bind at 1, set_client.
        set (w0 := {| client := _; server := server w; sent := sent w |}).
        intros H.
        assert (Hreq : exists q, client w' = client w0 /\ sent w' = sent w0 ++ [q] /\
                                 String.prefix ("/session/" ++ sid ++ "/") (path q) = true /\
                                 is_session_request q = false).
        { destruct (Qltb (distance Math_sqrt (client w) x y) 10);
            [unfold performTap in H | unfold performSwipe in H];
            apply request_then_ret in H; destruct H as [Hc Hs];
            (eexists; split; [exact Hc|]; split; [exact Hs|]);
            (split; [apply (session_path_prefix sid "actions") | reflexivity]). }
        destruct Hreq as (q & Hc & Hs & Hp & Hq).
        rewrite Hc. cbn [client sessionId touchActive w0].
        split; [exact Hsid|]. exists [q]. split; [exact Hs|].
        split; [cbn; lia|]. split; [constructor; [split; assumption | constructor]|].
        cbn [filter]. destruct (is_action_request q); cbn; lia.
      * intros H. apply (Hnone (CallTouch up x y)); [reflexivity | exact H].
  - unfold scroll, bind at 1. rewrite (ensureSession_reuse _ _ w sid Hsid Ht).
    destruct (Qgeb (Qabs dy) (Qabs dx) && Qgtb (Qabs dy) (1 # 1000)).
    + apply (Hone (CallScroll x y dx dy) POST "wda/scroll"); reflexivity.
    + destruct (Qgtb (Qabs dx) (1 # 1000)).
      * apply (Hone (CallScroll x y dx dy) POST "wda/scroll"); reflexivity.
      * apply (Hnone (CallScroll x y dx dy)). reflexivity.
  - unfold typeText, bind at 1. rewrite (ensureSession_reuse _ _ w sid Hsid Ht).
    apply (Hone (CallTypeText text) POST "wda/keys"); reflexivity.
  - unfold pressButton, bind at 1. rewrite (ensureSession_reuse _ _ w sid Hsid Ht).
    apply (Hone (CallPressButton button) POST "wda/pressButton"); reflexivity.
Qed.

(** One action call from any state: a session is created first when none is
    stored, then the call proceeds as with a stored one. *)
Lemma perform_any call (w w' : World Server) r :
  perform call w = (w', r) ->
  exists pre act,
    sent w' = sent w ++ pre ++ act /\
    (pre = [] \/ pre = [session_request]) /\
    (List.length act <= 1)%nat /\
    (List.length (filter is_action_request act) + Nat.b2n (touchActive (client w'))
     <= Nat.b2n (touchActive (client w)) + Nat.b2n (is_down call))%nat /\
    (List.length (filter is_action_request act) <= Nat.b2n (is_up call))%nat /\
    (session_ok (client w) -> session_ok (client w')).
Proof.
  intros H. destruct (ensureSession fetch w) as [w1 [sid|e]] eqn:He.
  - rewrite (perform_after_ensureSession call w w1 sid He) in H.
    destruct (ensureSession_spec _ _ _ _ _ He) as (Hpre & Ha & _ & _ & Hs & Ht).
    assert (Hne : sid <> "").
    { intros ->. discriminate Ht. }
    destruct (perform_stored call w1 w' r sid Hs Hne H)
      as (Hs' & act & Hsent & Hlen & _ & Hbal & Hup).
    exists (skipn (List.length (sent w)) (sent w1)), act.
    assert (Hskip : sent w1 = sent w ++ skipn (List.length (sent w)) (sent w1)).
    { destruct Hpre as [-> | ->].
      - rewrite skipn_all, app_nil_r. reflexivity.
      - rewrite skipn_app, skipn_all, Nat.sub_diag. reflexivity. }
    split; [rewrite Hsent, app_assoc, <- Hskip; reflexivity|].
    split.
    { destruct Hpre as [-> | ->].
      - left. apply skipn_all.
      - right. rewrite skipn_app, skipn_all, Nat.sub_diag. reflexivity. }
    split; [exact Hlen|]. split; [rewrite <- Ha; exact Hbal|]. split; [exact Hup|].
    intros _. unfold session_ok. rewrite Hs'. exact Hne.
  - rewrite (perform_when_ensureSession_throws call w w1 e He) in H.
    injection H as <- <-.
    destruct (ensureSession_throws _ _ _ He) as [Hc Hs].
    exists [session_request], []. rewrite app_nil_r, Hc. cbn [List.length filter].
    repeat split; auto; lia.
Qed.

Lemma run_calls_app (a b : list Call) : forall w : World Server,
  run_calls (a ++ b) w = run_calls b (run_calls a w).
Proof.
  induction a as [|call a IH]; intros w; cbn [app WDAClientRuns.run_calls];
    [reflexivity | apply IH].
Qed.

Lemma run_calls_stored (calls : list Call) : forall (w : World Server) sid,
  sessionId (client w) = Some sid -> sid <> "" ->
  sessionId (client (run_calls calls w)) = Some sid /\
  exists reqs,
    sent (run_calls calls w) = sent w ++ reqs /\
    (List.length reqs <= List.length calls)%nat /\
    Forall (fun q => String.prefix ("/session/" ++ sid ++ "/") (path q) = true /\
                     is_session_request q = false) reqs.
Proof.
  induction calls as [|call calls IH]; intros w sid Hsid Hne;
    cbn [WDAClientRuns.run_calls].
  - split; [exact Hsid|]. exists []. rewrite app_nil_r. repeat split; auto.
  - destruct (perform call w) as [w1 r] eqn:Hp. cbn [fst].
    destruct (perform_stored call w w1 r sid Hsid Hne Hp)
      as (Hs1 & act & Hsent & Hlen & Hall & _).
    destruct (IH w1 sid Hs1 Hne) as (Hs2 & reqs & Hsent2 & Hlen2 & Hall2).
    split; [exact Hs2|]. exists (act ++ reqs).
    split; [rewrite Hsent2, Hsent, app_assoc; reflexivity|].
    split; [rewrite length_app; cbn [List.length]; lia|].
    apply Forall_app. split; assumption.
Qed.

(** X10: once a session id is stored, every later action call reuses it,
    whatever the endpoint answers: over any sequence of calls the id stays
    the same, each call sends at most one request, none of them is
    [POST /session], and every path begins with [/session/<id>/]. *)
Theorem session_reused_by_every_call (calls : list Call) (w : World Server) (sid : string) :
  sessionId (client w) = Some sid -> sid <> "" ->
  let w' := run_calls calls w in
  sessionId (client w') = Some sid /\
  (List.length (issued w w') <= List.length calls)%nat /\
  Forall (fun q => String.prefix ("/session/" ++ sid ++ "/") (path q) = true /\
                   is_session_request q = false) (issued w w').
Proof.
  intros Hsid Hne w'.
  destruct (run_calls_stored calls w sid Hsid Hne) as (Hs & reqs & Hsent & Hlen & Hall).
  rewrite (issued_app _ w w' reqs Hsent). repeat split; assumption.
Qed.

Lemma run_calls_any (calls : list Call) : forall w : World Server,
  exists reqs,
    sent (run_calls calls w) = sent w ++ reqs /\
    (List.length (filter is_action_request reqs)
     + Nat.b2n (touchActive (client (run_calls calls w)))
     <= Nat.b2n (touchActive (client w)) + List.length (filter is_down calls))%nat /\
    (List.length (filter is_action_request reqs) <= List.length (filter is_up calls))%nat /\
    (session_ok (client w) -> session_ok (client (run_calls calls w))).
Proof.
  induction calls as [|call calls IH]; intros w; cbn [WDAClientRuns.run_calls].
  - exists []. rewrite app_nil_r. cbn. repeat split; auto; lia.
  - destruct (perform call w) as [w1 r] eqn:Hp. cbn [fst].
    destruct (perform_any call w w1 r Hp)
      as (pre & act & Hsent & Hpre & _ & Hbal & Hup & Hok).
    destruct (IH w1) as (reqs & Hsent2 & Hbal2 & Hup2 & Hok2).
    exists (pre ++ act ++ reqs).
    assert (Hcount : List.length (filter is_action_request (pre ++ act ++ reqs))
                     = (List.length (filter is_action_request act)
                        + List.length (filter is_action_request reqs))%nat).
    { rewrite !filter_app, !length_app.
      destruct Hpre as [-> | ->]; reflexivity. }
    rewrite Hcount.
    split; [rewrite Hsent2, Hsent, <- !app_assoc; reflexivity|].
    cbn [filter]. destruct (is_down call), (is_up call); cbn [List.length Nat.b2n] in *;
      repeat split; auto; lia.
Qed.

(** X11: the client never sends more gestures than the touches it was given:
    over any sequence of calls, from any state and against any endpoint, the
    number of pointer-action requests, plus one if a touch is still in
    progress at the end, is at most the number of ['down'] calls, plus one if
    a touch was in progress at the start; and it is at most the number of
    ['up'] calls. *)
Theorem actions_bounded_by_touches (calls : list Call) (w : World Server) :
  let w' := run_calls calls w in
  let actions := List.length (filter is_action_request (issued w w')) in
  (actions + Nat.b2n (touchActive (client w'))
   <= Nat.b2n (touchActive (client w)) + List.length (filter is_down calls))%nat /\
  (actions <= List.length (filter is_up calls))%nat.
Proof.
  intros w' actions. subst w' actions.
  destruct (run_calls_any calls w) as (reqs & Hsent & Hbal & Hup & _).
  rewrite (issued_app _ w _ reqs Hsent). split; assumption.
Qed.

(** X12: the id stored by a client is never the empty string: starting from a
    new client, after any sequence of calls and whatever the endpoint
    answers (an empty [sessionId] included), the field is [null] or a
    non-empty string. *)
Theorem stored_session_id_is_never_empty (calls : list Call) (s : Server) :
  session_ok (client (run_calls calls {| client := new_client; server := s; sent := [] |})).
Proof.
  destruct (run_calls_any calls {| client := new_client; server := s; sent := [] |})
    as (_ & _ & _ & _ & Hok).
  apply Hok. exact I.
Qed.

Lemma move_stored (w : World Server) sid x y :
  sessionId (client w) = Some sid -> sid <> "" ->
  perform (CallTouch move x y) w = (w, Normal tt).
Proof.
  intros Hsid Hne. cbn [WDAClient.perform]. unfold touch, bind at 1.
  rewrite (ensureSession_reuse _ _ w sid Hsid (truthy_nonempty sid Hne)).
  unfold bind, get_client. destruct (touchActive (client w)); reflexivity.
Qed.

(** X13: a gesture depends on its two end points only: with a session
    stored, the ['move'] calls between ['down'] and ['up'] change nothing and
    send nothing, so the run with them equals the run without them. *)
Theorem moves_between_down_and_up_are_ignored
    (w : World Server) (sid : string) (x0 y0 x1 y1 : Q) (points : list (Q * Q)) :
  sessionId (client w) = Some sid -> sid <> "" ->
  run_calls (CallTouch down x0 y0
               :: map (fun p => CallTouch move (fst p) (snd p)) points
               ++ [CallTouch up x1 y1]) w
  = run_calls [CallTouch down x0 y0; CallTouch up x1 y1] w.
Proof.
  intros Hsid Hne. cbn [WDAClientRuns.run_calls].
  destruct (perform (CallTouch down x0 y0) w) as [w1 r] eqn:Hp. cbn [fst].
  destruct (perform_stored _ w w1 r sid Hsid Hne Hp) as (Hs1 & _).
  rewrite run_calls_app. cbn [WDAClientRuns.run_calls]. f_equal. f_equal.
  induction points as [|[x y] points IH]; cbn [map WDAClientRuns.run_calls fst snd];
    [reflexivity|].
  rewrite (move_stored w1 sid x y Hs1 Hne). exact IH.
Qed.

Lemma Qgtb_true_lt a b : Qgtb a b = true <-> (b < a)%Q.
Proof. unfold Qgtb. apply Qltb_lt. Qed.

Lemma Qgtb_false_le a b : Qgtb a b = false <-> (a <= b)%Q.
Proof. unfold Qgtb. apply Qltb_ge. Qed.

Lemma Qgeb_true_le a b : Qgeb a b = true <-> (b <= a)%Q.
Proof. unfold Qgeb. apply Qle_bool_iff. Qed.

Lemma Qgeb_false_lt a b : Qgeb a b = false <-> (a < b)%Q.
Proof.
  unfold Qgeb. split.
  - intros H. apply Qnot_le_lt. intros Hle. apply Qle_bool_iff in Hle. congruence.
  - intros H. destruct (Qle_bool b a) eqn:E; [|reflexivity].
    apply Qle_bool_iff in E. exfalso. exact (Qlt_not_le _ _ H E).
Qed.

Lemma scroll_stored (w : World Server) sid x y dx dy :
  sessionId (client w) = Some sid -> sid <> "" ->
  issued w (fst (scroll fetch x y dx dy w))
  = if Qgeb (Qabs dy) (Qabs dx) && Qgtb (Qabs dy) (1 # 1000)
    then [scroll_request sid (if Qgtb dy 0 then "up" else "down")
                         (Qmin (1 # 2) (Qabs dy * 2))]
    else if Qgtb (Qabs dx) (1 # 1000)
    then [scroll_request sid (if Qgtb dx 0 then "left" else "right")
                         (Qmin (1 # 2) (Qabs dx * 2))]
    else [].
Proof.
  intros Hsid Hne. unfold scroll, bind at 1.
  rewrite (ensureSession_reuse _ _ w sid Hsid (truthy_nonempty sid Hne)).
  destruct (Qgeb (Qabs dy) (Qabs dx) && Qgtb (Qabs dy) (1 # 1000)).
  - destruct (bind _ _ w) as [w' r] eqn:H. apply request_then_ret in H.
    apply issued_app. exact (proj2 H).
  - destruct (Qgtb (Qabs dx) (1 # 1000)).
    + destruct (bind _ _ w) as [w' r] eqn:H. apply request_then_ret in H.
      apply issued_app. exact (proj2 H).
    + apply issued_nil. reflexivity.
Qed.

Lemma scroll_distance_range (a : Q) :
  (1 # 1000 < a)%Q ->
  (2 # 1000 < Qmin (1 # 2) (a * 2))%Q /\ (Qmin (1 # 2) (a * 2) <= 1 # 2)%Q.
Proof.
  intros Ha. split; [|apply Q.le_min_l].
  apply Q.min_glb_lt; [reflexivity|].
  setoid_replace (2 # 1000)%Q with ((1 # 1000) * 2)%Q by reflexivity.
  apply Qmult_lt_compat_r; [reflexivity | exact Ha].
Qed.

(** X14: [scroll] follows the dominant axis.  With a session stored: nothing
    is sent when neither delta exceeds 0.001 in size; otherwise exactly one
    scroll request is sent, vertical when [|deltaY| >= |deltaX|] (['up'] for
    a positive delta, ['down'] for a negative one), horizontal otherwise
    (['left'] for positive, ['right'] for negative), over a distance of twice
    the size of that delta capped at one half; so every distance sent lies
    in (0.002, 0.5]. *)
Theorem scroll_follows_dominant_axis (w : World Server) (sid : string) (x y dx dy : Q) :
  sessionId (client w) = Some sid -> sid <> "" ->
  let reqs := issued w (fst (scroll fetch x y dx dy w)) in
  ((Qabs dx <= 1 # 1000)%Q -> (Qabs dy <= 1 # 1000)%Q -> reqs = []) /\
  ((Qabs dx <= Qabs dy)%Q -> (1 # 1000 < dy)%Q ->
   reqs = [scroll_request sid "up" (Qmin (1 # 2) (Qabs dy * 2))]) /\
  ((Qabs dx <= Qabs dy)%Q -> (dy < - (1 # 1000))%Q ->
   reqs = [scroll_request sid "down" (Qmin (1 # 2) (Qabs dy * 2))]) /\
  ((Qabs dy < Qabs dx)%Q -> (1 # 1000 < dx)%Q ->
   reqs = [scroll_request sid "left" (Qmin (1 # 2) (Qabs dx * 2))]) /\
  ((Qabs dy < Qabs dx)%Q -> (dx < - (1 # 1000))%Q ->
   reqs = [scroll_request sid "right" (Qmin (1 # 2) (Qabs dx * 2))]) /\
  Forall (fun q => exists direction distance,
                     q = scroll_request sid direction distance /\
                     (2 # 1000 < distance)%Q /\ (distance <= 1 # 2)%Q) reqs.
Proof.
  intros Hsid Hne reqs. subst reqs. rewrite (scroll_stored w sid x y dx dy Hsid Hne).
  assert (Hpos : forall d, (1 # 1000 < d)%Q ->
                   (1 # 1000 < Qabs d)%Q /\ Qgtb d 0 = true).
  { intros d Hd. split.
    - apply (Qlt_le_trans _ d); [exact Hd | apply Qle_Qabs].
    - apply Qgtb_true_lt. apply (Qlt_trans _ (1 # 1000)); [reflexivity | exact Hd]. }
  assert (Hneg : forall d, (d < - (1 # 1000))%Q ->
                   (1 # 1000 < Qabs d)%Q /\ Qgtb d 0 = false).
  { intros d Hd. split.
    - rewrite <- Qabs_opp. apply (Qlt_le_trans _ (- d)); [|apply Qle_Qabs].
      apply Qopp_lt_compat in Hd. rewrite Qopp_involutive in Hd. exact Hd.
    - apply Qgtb_false_le. apply Qlt_le_weak.
      apply (Qlt_trans _ (- (1 # 1000))); [exact Hd | reflexivity]. }
  split; [|split; [|split; [|split; [|split]]]].
  - intros Hx Hy. apply Qgtb_false_le in Hx, Hy. rewrite Hx, Hy, andb_false_r. reflexivity.
  - intros Hdom Hd. destruct (Hpos dy Hd) as [Ha Hs].
    apply Qgeb_true_le in Hdom. apply Qgtb_true_lt in Ha. rewrite Hdom, Ha, Hs. reflexivity.
  - intros Hdom Hd. destruct (Hneg dy Hd) as [Ha Hs].
    apply Qgeb_true_le in Hdom. apply Qgtb_true_lt in Ha. rewrite Hdom, Ha, Hs. reflexivity.
  - intros Hdom Hd. destruct (Hpos dx Hd) as [Ha Hs].
    apply Qgeb_false_lt in Hdom. apply Qgtb_true_lt in Ha. rewrite Hdom, Ha, Hs. reflexivity.
  - intros Hdom Hd. destruct (Hneg dx Hd) as [Ha Hs].
    apply Qgeb_false_lt in Hdom. apply Qgtb_true_lt in Ha. rewrite Hdom, Ha, Hs. reflexivity.
  - destruct (Qgeb (Qabs dy) (Qabs dx) && Qgtb (Qabs dy) (1 # 1000)) eqn:Hv.
    + apply andb_true_iff in Hv. destruct Hv as [_ Hv]. apply Qgtb_true_lt in Hv.
      constructor; [|constructor]. eexists _, _. split; [reflexivity|].
      apply scroll_distance_range. exact Hv.
    + destruct (Qgtb (Qabs dx) (1 # 1000)) eqn:Hh; [|constructor].
      apply Qgtb_true_lt in Hh.
      constructor; [|constructor]. eexists _, _. split; [reflexivity|].
      apply scroll_distance_range. exact Hh.
Qed.

Lemma concat_split_chars (text : JSString) :
  List.concat (split_chars text) = text /\
  List.length (split_chars text) = List.length text /\
  Forall (fun key => List.length key = 1%nat) (split_chars text).
Proof.
  unfold split_chars.
  induction text as [|unit text (IH1 & IH2 & IH3)]; cbn [map List.concat List.length app].
  - repeat split. constructor.
  - rewrite IH1, IH2. repeat split. constructor; [reflexivity | exact IH3].
Qed.

(** X15: [typeText] sends the text one UTF-16 code unit per key: with a
    session stored it sends exactly one [/wda/keys] request whose value has
    one string of a single code unit for each code unit of the text, in
    order, so that joining them gives the text back.  A character outside
    the basic plane therefore goes out as two keys, one for each half of its
    surrogate pair. *)
Theorem typeText_sends_every_character (w : World Server) (sid : string)
    (text : JSString) :
  sessionId (client w) = Some sid -> sid <> "" ->
  exists keys,
    issued w (fst (typeText fetch text w)) = [keys_request sid keys] /\
    List.concat keys = text /\
    List.length keys = List.length text /\
    Forall (fun key => List.length key = 1%nat) keys.
Proof.
  intros Hsid Hne. exists (split_chars text).
  split; [|apply concat_split_chars].
  unfold typeText, bind at 1.
  rewrite (ensureSession_reuse _ _ w sid Hsid (truthy_nonempty sid Hne)).
  destruct (bind _ _ w) as [w' r] eqn:H. apply request_then_ret in H.
  apply issued_app. exact (proj2 H).
Qed.

(** X16: [deleteSession] always forgets the session and never throws: with
    an id stored it sends exactly one [DELETE /session/<id>] and clears the
    field whether the request succeeds, is refused or fails; with none stored
    it does nothing; the touch in progress is left as it is. *)
Theorem deleteSession_always_clears (w : World Server) :
  let w' := fst (deleteSession fetch w) in
  snd (deleteSession fetch w) = Normal tt /\
  (session_ok (client w) -> sessionId (client w') = None) /\
  (forall sid, sessionId (client w) = Some sid -> sid <> "" ->
               issued w w' = [delete_request sid]) /\
  (sessionId (client w) = None -> w' = w) /\
  touchActive (client w') = touchActive (client w).
Proof.
  cbv zeta. unfold deleteSession, bind, get_client, session_ok.
  destruct (sessionId (client w)) as [id|] eqn:Hid.
  - destruct (truthy (Some id)) eqn:Ht.
    + destruct (request fetch DELETE ("/session/" ++ id) None w) as [w1 r] eqn:Hreq.
      apply request_once in Hreq. destruct Hreq as [Hc Hs].
      unfold set_client. cbn [fst snd client sessionId touchActive].
      rewrite Hc. repeat split; auto.
      * intros sid [= <-] _. apply issued_app. exact Hs.
      * discriminate.
    + unfold truthy in Ht. apply negb_false_iff, String.eqb_eq in Ht.
      unfold ret. cbn [fst snd]. repeat split; auto; intros; congruence.
  - unfold ret. cbn [fst snd]. repeat split; auto. discriminate.
Qed.

(** A call made while no id is stored begins by creating a session. *)
Lemma perform_without_session call (w : World Server) :
  sessionId (client w) = None ->
  exists rest,
    issued w (fst (perform call w)) = session_request :: rest /\
    (List.length rest <= 1)%nat /\
    (is_down call = false -> touchActive (client w) = false ->
     filter is_action_request rest = []).
Proof.
  intros Hs. destruct (perform call w) as [w2 r] eqn:Hp. cbn [fst].
  destruct (ensureSession fetch w) as [w' [sid|e]] eqn:He.
  - pose proof (ensureSession_fresh w w' _ Hs He) as Hsent.
    rewrite (perform_after_ensureSession call w w' sid He) in Hp.
    destruct (ensureSession_spec _ _ _ _ _ He) as (_ & Ha' & _ & _ & Hs' & Ht).
    assert (Hne : sid <> "").
    { intros ->. discriminate Ht. }
    destruct (perform_stored call w' w2 r sid Hs' Hne Hp)
      as (_ & act & Hsent2 & Hlen & _ & Hbal & _).
    exists act. split; [|split; [exact Hlen|]].
    + apply issued_app. rewrite Hsent2, Hsent, <- app_assoc. reflexivity.
    + intros Hd Ha. rewrite Hd, Ha', Ha in Hbal. cbn [Nat.b2n] in Hbal.
      destruct (filter is_action_request act); [reflexivity | cbn in Hbal; lia].
  - rewrite (perform_when_ensureSession_throws call w w' e He) in Hp.
    injection Hp as <- <-.
    exists []. split; [|split; [cbn; lia | reflexivity]].
    apply issued_app. exact (proj2 (ensureSession_throws _ _ _ He)).
Qed.

(** Calls interleaved with the settling of the DELETE: the gestures sent are
    bounded by the touches given, as without it. *)
Lemma run_later_any (events : list Later) : forall w : World Server,
  exists reqs,
    sent (run_later events w) = sent w ++ reqs /\
    (List.length (filter is_action_request reqs)
     + Nat.b2n (touchActive (client (run_later events w)))
     <= Nat.b2n (touchActive (client w))
        + List.length (filter is_down (later_calls events)))%nat.
Proof.
  induction events as [|[call|] events IH]; intros w; cbn [WDAClientRuns.run_later].
  - exists []. rewrite app_nil_r. cbn. split; [reflexivity | lia].
  - destruct (perform call w) as [w1 r] eqn:Hp. cbn [fst].
    destruct (perform_any call w w1 r Hp)
      as (pre & act & Hsent & Hpre & _ & Hbal & _ & _).
    destruct (IH w1) as (reqs & Hsent2 & Hbal2).
    exists (pre ++ act ++ reqs).
    assert (Hcount : List.length (filter is_action_request (pre ++ act ++ reqs))
                     = (List.length (filter is_action_request act)
                        + List.length (filter is_action_request reqs))%nat).
    { rewrite !filter_app, !length_app.
      destruct Hpre as [-> | ->]; reflexivity. }
    rewrite Hcount.
    split; [rewrite Hsent2, Hsent, <- !app_assoc; reflexivity|].
    cbn [later_calls flat_map app filter].
    fold (later_calls events).
    destruct (is_down call); cbn [List.length Nat.b2n] in *; lia.
  - destruct (IH (delete_settles w)) as (reqs & Hsent2 & Hbal2).
    exists reqs. split; [exact Hsent2|].
    cbn [later_calls flat_map app]. fold (later_calls events). exact Hbal2.
Qed.

(** X17: [disconnect] drops the session and the touch in progress.  On
    return it has sent one [DELETE] for the stored id (none when no id was
    stored) and holds no id and no touch.  The [finally] of the
    [deleteSession] it started runs later, when the DELETE settles, and
    clears the id once more.  Whether it has settled by then or not, the
    first request of the next call is the [POST /session] of a new session,
    and an ['up'] or a ['move'] sends nothing else.  However calls and the
    settling are interleaved afterwards, the pointer-action requests sent are
    at most as many as the ['down'] calls made after [disconnect]: the
    interrupted gesture is never performed.  And when the DELETE settles
    after later calls, the id they stored is forgotten too: the call that
    follows begins with another [POST /session]. *)
Theorem disconnect_drops_session_and_touch (w : World Server) :
  session_ok (client w) ->
  let w1 := disconnect fetch w in
  sessionId (client w1) = None /\ touchActive (client w1) = false /\
  issued w w1 = match sessionId (client w) with
                | Some sid => [delete_request sid]
                | None => []
                end /\
  (forall call next, next = w1 \/ next = delete_settles w1 ->
    exists rest,
      issued next (fst (perform call next)) = session_request :: rest /\
      (List.length rest <= 1)%nat /\
      (is_down call = false -> filter is_action_request rest = [])) /\
  (forall later,
     (List.length (filter is_action_request (issued w1 (run_later later w1)))
      <= List.length (filter is_down (later_calls later)))%nat) /\
  (forall later call,
     let w2 := delete_settles (run_later later w1) in
     sessionId (client w2) = None /\
     exists rest, issued w2 (fst (perform call w2)) = session_request :: rest).
Proof.
  intros Hok w1.
  assert (Hs : sessionId (client w1) = None) by reflexivity.
  assert (Ha : touchActive (client w1) = false) by reflexivity.
  split; [exact Hs|]. split; [exact Ha|]. split; [|split; [|split]].
  - subst w1. unfold disconnect, session_ok in *.
    destruct (sessionId (client w)) as [id|].
    + rewrite (truthy_nonempty id Hok).
      destruct (request fetch DELETE ("/session/" ++ id) None w) as [w2 r] eqn:Hreq.
      apply request_once in Hreq. cbn [fst]. apply issued_app. exact (proj2 Hreq).
    + apply issued_nil. reflexivity.
  - intros call next Hnext.
    assert (Hnone : sessionId (client next) = None /\ touchActive (client next) = false)
      by (destruct Hnext as [-> | ->]; split; reflexivity).
    destruct (perform_without_session call next (proj1 Hnone)) as (rest & Hi & Hlen & Hact).
    exists rest. split; [exact Hi|]. split; [exact Hlen|].
    intros Hd. apply Hact; [exact Hd | exact (proj2 Hnone)].
  - intros later. destruct (run_later_any later w1) as (reqs & Hsent & Hbal).
    rewrite (issued_app _ _ _ _ Hsent). rewrite Ha in Hbal. cbn [Nat.b2n] in Hbal. lia.
  - intros later call w2. split; [reflexivity|].
    destruct (perform_without_session call w2 eq_refl) as (rest & Hi & _).
    exists rest. exact Hi.
Qed.

End WithServer.

Lemma session_reused_by_every_call_witness :
  let calls := [CallTouch down 10 10; CallTouch up 100 100; CallTypeText (code_units "hi");
                CallScroll 0 0 0 0] in
  let w' := run_calls healthy_fetch isqrt calls session_world in
  sessionId (client w') = Some "s1" /\
  (List.length (issued session_world w') <= List.length calls)%nat /\
  Forall (fun q => String.prefix ("/session/" ++ "s1" ++ "/") (path q) = true /\
                   is_session_request q = false) (issued session_world w').
Proof.
  apply (session_reused_by_every_call unit healthy_fetch isqrt
           [CallTouch down 10 10; CallTouch up 100 100; CallTypeText (code_units "hi");
            CallScroll 0 0 0 0] session_world "s1").
  - reflexivity.
  - discriminate.
Defined.

Lemma moves_between_down_and_up_are_ignored_witness :
  run_calls healthy_fetch isqrt
    (CallTouch down 10 10
       :: map (fun p => CallTouch move (fst p) (snd p)) [(20%Q, 20%Q); (60%Q, 40%Q)]
       ++ [CallTouch up 100 100]) session_world
  = run_calls healthy_fetch isqrt [CallTouch down 10 10; CallTouch up 100 100]
      session_world.
Proof.
  apply (moves_between_down_and_up_are_ignored unit healthy_fetch isqrt
           session_world "s1" 10 10 100 100 [(20%Q, 20%Q); (60%Q, 40%Q)]).
  - reflexivity.
  - discriminate.
Defined.

Lemma scroll_follows_dominant_axis_witness :
  issued session_world (fst (scroll healthy_fetch 0 0 (1 # 20) (- (1 # 10)) session_world))
  = [scroll_request "s1" "down" (Qmin (1 # 2) (Qabs (- (1 # 10)) * 2))].
Proof.
  apply (proj1 (proj2 (proj2 (scroll_follows_dominant_axis unit healthy_fetch
                                session_world "s1" 0 0 (1 # 20) (- (1 # 10))
                                eq_refl ltac:(discriminate))))).
  - unfold Qle. cbn. lia.
  - unfold Qlt. cbn. lia.
Defined.

Lemma typeText_sends_every_character_witness :
  (* [h], [e-acute] (U+00E9), and the two halves of U+1F600 *)
  let text := [104; 233; 55357; 56832]%N in
  exists keys,
    issued session_world (fst (typeText healthy_fetch text session_world))
    = [keys_request "s1" keys] /\
    List.concat keys = text /\
    List.length keys = 4%nat /\
    Forall (fun key => List.length key = 1%nat) keys.
Proof.
  apply (typeText_sends_every_character unit healthy_fetch session_world "s1"
           [104; 233; 55357; 56832]%N).
  - reflexivity.
  - discriminate.
Defined.

Lemma disconnect_drops_session_and_touch_witness :
  let w := {| client := {| sessionId := Some "s1"; touchActive := true;
                           touchStartX := 10; touchStartY := 10 |};
              server := tt; sent := [] |} in
  let w1 := disconnect healthy_fetch w in
  sessionId (client w1) = None /\ touchActive (client w1) = false /\
  issued w w1 = [delete_request "s1"] /\
  (forall call next, next = w1 \/ next = delete_settles w1 ->
    exists rest,
      issued next (fst (perform healthy_fetch isqrt call next)) = session_request :: rest /\
      (List.length rest <= 1)%nat /\
      (is_down call = false -> filter is_action_request rest = [])) /\
  (forall later,
     (List.length (filter is_action_request
                     (issued w1 (run_later healthy_fetch isqrt later w1)))
      <= List.length (filter is_down (later_calls later)))%nat) /\
  (forall later call,
     let w2 := delete_settles (run_later healthy_fetch isqrt later w1) in
     sessionId (client w2) = None /\
     exists rest,
       issued w2 (fst (perform healthy_fetch isqrt call w2)) = session_request :: rest).
Proof.
  apply (disconnect_drops_session_and_touch unit healthy_fetch isqrt
           {| client := {| sessionId := Some "s1"; touchActive := true;
                           touchStartX := 10; touchStartY := 10 |};
              server := tt; sent := [] |}).
  unfold session_ok. cbn. discriminate.
Defined.

(** The DELETE settling between the ['down'] and the ['up'] of the next
    gesture: the session the ['down'] created is forgotten, and the ['up']
    creates a second one before it sends the tap. *)
Example delete_settling_late_forgets_the_new_session :
  let w := {| client := {| sessionId := Some "s0"; touchActive := false;
                           touchStartX := 0; touchStartY := 0 |};
              server := tt; sent := [] |} in
  let w1 := disconnect healthy_fetch w in
  let w2 := run_later healthy_fetch isqrt [NextCall (CallTouch down 10 10)] w1 in
  let w3 := run_later healthy_fetch isqrt
              [DeleteSettles; NextCall (CallTouch up 10 10)] w2 in
  sessionId (client w2) = Some "s1" /\
  map path (sent w3)
  = ["/session/s0"; "/session"; "/session"; "/session/s1/actions"]%string.
Proof. vm_compute. split; reflexivity. Qed.

End WDAClientRunsFacts.


(** ** InputHandler: what any run of events sends *)

Module InputTracesFacts.
Import InputHandler InputTraces InputHandlerFacts.
Local Open Scope Q_scope.

Lemma clamp_spec (v : Q) :
  in_unit (Qmax 0 (Qmin 1 v)) /\
  (0 <= v -> v <= 1 -> Qmax 0 (Qmin 1 v) == v) /\
  (v <= 0 -> Qmax 0 (Qmin 1 v) == 0) /\
  (1 <= v -> Qmax 0 (Qmin 1 v) == 1).
Proof.
  split; [|split; [|split]].
  - split; [apply Q.le_max_l|].
    apply Q.max_lub; [discriminate | apply Q.le_min_l].
  - intros H0 H1. rewrite (Q.min_r 1 v H1). apply Q.max_r. exact H0.
  - intros H0. apply Q.max_l. apply (Qle_trans _ v); [apply Q.le_min_r | exact H0].
  - intros H1. rewrite (Q.min_l 1 v H1). apply Q.max_r. discriminate.
Qed.

Lemma ratio_spec (c lo size : Q) :
  0 < size ->
  (lo <= c <-> 0 <= (c - lo) / size) /\
  (c <= lo + size <-> (c - lo) / size <= 1) /\
  (c <= lo -> (c - lo) / size <= 0) /\
  (lo + size <= c -> 1 <= (c - lo) / size).
Proof.
  intros Hs.
  assert (Hmul : (c - lo) / size * size == c - lo).
  { field. intros Hz. rewrite Hz in Hs. discriminate Hs. }
  assert (Hle : 0 <= size) by (apply Qlt_le_weak; exact Hs).
  split; [|split; [|split]].
  - split.
    + intros H. apply Qle_shift_div_l; [exact Hs | lra].
    + intros H. apply (Qmult_le_compat_r _ _ size) in H; [|exact Hle].
      rewrite Hmul in H. lra.
  - split.
    + intros H. apply Qle_shift_div_r; [exact Hs | lra].
    + intros H. apply (Qmult_le_compat_r _ _ size) in H; [|exact Hle].
      rewrite Hmul in H. lra.
  - intros H. apply Qle_shift_div_r; [exact Hs | lra].
  - intros H. apply Qle_shift_div_l; [exact Hs | lra].
Qed.

(** X18: the three [getNormalizedCoords...] functions clamp to the unit
    square: for a canvas of positive width and height, both coordinates lie
    in [0, 1]; inside the canvas they are the position relative to the canvas
    divided by its size; left of or above the canvas they are 0, right of or
    below it they are 1. *)
Theorem normalize_clamps (rect : DOMRect) (cx cy : Q) :
  0 < rect_width rect -> 0 < rect_height rect ->
  let p := normalize rect cx cy in
  in_unit (x p) /\ in_unit (y p) /\
  (rect_left rect <= cx -> cx <= rect_left rect + rect_width rect ->
   x p == (cx - rect_left rect) / rect_width rect) /\
  (rect_top rect <= cy -> cy <= rect_top rect + rect_height rect ->
   y p == (cy - rect_top rect) / rect_height rect) /\
  (cx <= rect_left rect -> x p == 0) /\
  (rect_left rect + rect_width rect <= cx -> x p == 1) /\
  (cy <= rect_top rect -> y p == 0) /\
  (rect_top rect + rect_height rect <= cy -> y p == 1).
Proof.
  intros Hw Hh p. subst p. unfold normalize. cbn [x y].
  destruct (clamp_spec ((cx - rect_left rect) / rect_width rect)) as (Hx & Hxin & Hx0 & Hx1).
  destruct (clamp_spec ((cy - rect_top rect) / rect_height rect)) as (Hy & Hyin & Hy0 & Hy1).
  destruct (ratio_spec cx (rect_left rect) (rect_width rect) Hw) as (Rx0 & Rx1 & Rxl & Rxr).
  destruct (ratio_spec cy (rect_top rect) (rect_height rect) Hh) as (Ry0 & Ry1 & Ryl & Ryr).
  repeat split; try (apply Hx); try (apply Hy).
  - intros H0 H1. apply Hxin; [apply Rx0 | apply Rx1]; assumption.
  - intros H0 H1. apply Hyin; [apply Ry0 | apply Ry1]; assumption.
  - intros H. apply Hx0, Rxl, H.
  - intros H. apply Hx1, Rxr, H.
  - intros H. apply Hy0, Ryl, H.
  - intros H. apply Hy1, Ryr, H.
Qed.

Lemma normalize_clamps_witness :
  let p := normalize test_rect 900 150 in
  in_unit (x p) /\ in_unit (y p) /\ x p == 1 /\ y p == (150 - 0) / 600.
Proof.
  pose proof (normalize_clamps test_rect 900 150 eq_refl eq_refl) as H.
  cbv zeta in H. destruct H as (Hx & Hy & _ & Hyin & _ & Hx1 & _ & _).
  cbv zeta. split; [exact Hx|]. split; [exact Hy|]. split.
  - apply Hx1. discriminate.
  - apply Hyin; discriminate.
Defined.

Section WithCanvas.
Variable rect : DOMRect.
Variable hasScroll : bool.
Variable hasMultiTouch : bool.
Variable Math_sqrt : Q -> Q.

Local Abbreviation dispatch := (dispatch rect hasScroll hasMultiTouch Math_sqrt).
Local Abbreviation run := (run rect hasScroll hasMultiTouch Math_sqrt).

Ltac normalized_state :=
  unfold positions_normalized;
  cbn [lastScrollX lastScrollY activeTouches with_touches handler];
  (split; [|split]); try assumption.

Lemma normalize_in_unit cx cy :
  in_unit (x (normalize rect cx cy)) /\ in_unit (y (normalize rect cx cy)).
Proof.
  unfold normalize. cbn [x y]. split; apply clamp_spec.
Qed.

Lemma map_set_normalized k p m :
  in_unit (x p) /\ in_unit (y p) ->
  Forall (fun e => in_unit (x (snd e)) /\ in_unit (y (snd e))) m ->
  Forall (fun e => in_unit (x (snd e)) /\ in_unit (y (snd e))) (map_set k p m).
Proof.
  intros Hp. induction 1 as [|[k' p'] m He Hm IH]; cbn [map_set].
  - constructor; [exact Hp | constructor].
  - cbn [fst]. destruct (k' =? k)%Z; constructor; assumption.
Qed.

Lemma delete_all_normalized (changed : list Touch) : forall m,
  Forall (fun e => in_unit (x (snd e)) /\ in_unit (y (snd e))) m ->
  Forall (fun e => in_unit (x (snd e)) /\ in_unit (y (snd e)))
         (fold_left (fun m touch => map_delete (identifier touch) m) changed m).
Proof.
  induction changed as [|t changed IH]; intros m Hm; cbn [fold_left]; [exact Hm|].
  apply IH. unfold map_delete. apply Forall_forall. intros e He.
  apply filter_In in He. rewrite Forall_forall in Hm. apply Hm, He.
Qed.

Lemma end_of_pinch_normalized s :
  positions_normalized s -> Forall normalized (end_of_pinch s).
Proof.
  intros (_ & _ & Hm). unfold end_of_pinch, map_values.
  destruct (activeTouches s) as [|[k0 p0] [|[k1 p1] [|e m]]]; cbn [map snd];
    try constructor; [|constructor].
  inversion Hm as [|? ? Hp0 Hm']. inversion Hm' as [|? ? Hp1 _]. cbn [snd] in *.
  cbn [normalized]. tauto.
Qed.

Lemma processScrollBuffer_normalized s :
  positions_normalized s ->
  positions_normalized (fst (processScrollBuffer s)) /\
  Forall normalized (snd (processScrollBuffer s)).
Proof.
  intros (Hx & Hy & Hm). unfold processScrollBuffer.
  destruct (_ || _); cbn [fst snd]; (split; [normalized_state|]).
  - constructor; [split; assumption | constructor].
  - constructor.
Qed.

Lemma run_frame_callbacks_normalized handles : forall s,
  positions_normalized s ->
  positions_normalized (fst (run_frame_callbacks handles s)) /\
  Forall normalized (snd (run_frame_callbacks handles s)).
Proof.
  induction handles as [|h handles IH]; intros s Hs; cbn [run_frame_callbacks].
  - split; [exact Hs | constructor].
  - destruct (processScrollBuffer_normalized s Hs) as [H1 Hout1].
    destruct (processScrollBuffer s) as [s1 out1]. cbn [fst snd] in *.
    destruct (IH s1 H1) as [H2 Hout2].
    destruct (run_frame_callbacks handles s1) as [s2 out2]. cbn [fst snd] in *.
    split; [exact H2 | apply Forall_app; split; assumption].
Qed.

Lemma dispatch_normalized ev w :
  positions_normalized (handler w) ->
  positions_normalized (handler (fst (dispatch ev w))) /\
  Forall normalized (snd (dispatch ev w)).
Proof.
  intros Hs. pose proof Hs as (Hx & Hy & Hm).
  assert (Hnil : Forall (fun e : Z * Point => in_unit (x (snd e)) /\ in_unit (y (snd e))) [])
    by constructor.
  destruct ev as [event| |event|event|event]; cbn [InputHandler.dispatch].
  - unfold onWheelEvent. destruct hasScroll; cbn [negb]; [|split; [exact Hs | constructor]].
    unfold getNormalizedCoordsFromMouse.
    destruct (normalize_in_unit (wheel_clientX event) (wheel_clientY event)) as [Hnx Hny].
    destruct (scrollRafId (handler w)); cbn [fst snd handler];
      (split; [normalized_state | constructor]).
  - unfold animationFrame.
    destruct (run_frame_callbacks_normalized (rafQueue w) (handler w) Hs) as [H1 H2].
    destruct (run_frame_callbacks (rafQueue w) (handler w)) as [s out].
    cbn [fst snd handler] in *. split; assumption.
  - rewrite lift_fst, lift_snd. unfold onTouchStart, getNormalizedCoordsFromTouch.
    destruct (touches event) as [|t1 [|t2 [|t3 more]]]; cbn [fst snd].
    + split; [exact Hs | constructor].
    + split; [normalized_state | constructor].
    + destruct hasMultiTouch; cbn [fst snd]; [|split; [exact Hs | constructor]].
      pose proof (normalize_in_unit (clientX t1) (clientY t1)) as H1.
      pose proof (normalize_in_unit (clientX t2) (clientY t2)) as H2.
      split.
      * normalized_state.
        apply map_set_normalized; [exact H2|].
        apply map_set_normalized; [exact H1 | exact Hm].
      * constructor; [cbn [normalized]; tauto | constructor].
    + split; [normalized_state|].
      destruct (isPinching (handler w) && hasMultiTouch);
        [apply end_of_pinch_normalized; exact Hs | constructor].
  - rewrite lift_fst, lift_snd. unfold onTouchMove, getNormalizedCoordsFromTouch.
    destruct (touches event) as [|t1 [|t2 [|t3 more]]]; cbn [fst snd];
      try (split; [exact Hs | constructor]).
    destruct (isPinching (handler w) && hasMultiTouch); cbn [fst snd];
      [|split; [exact Hs | constructor]].
    pose proof (normalize_in_unit (clientX t1) (clientY t1)) as H1.
    pose proof (normalize_in_unit (clientX t2) (clientY t2)) as H2.
    split.
    + normalized_state.
      apply map_set_normalized; [exact H2|].
      apply map_set_normalized; [exact H1 | exact Hm].
    + constructor; [cbn [normalized]; tauto | constructor].
  - rewrite lift_fst, lift_snd. unfold onTouchEnd.
    destruct (isPinching (handler w) && hasMultiTouch); cbn [fst snd].
    + split; [|apply end_of_pinch_normalized; exact Hs].
      normalized_state. apply delete_all_normalized. exact Hnil.
    + split; [|constructor].
      normalized_state. apply delete_all_normalized. exact Hm.
Qed.

Lemma run_normalized events : forall w,
  positions_normalized (handler w) ->
  positions_normalized (handler (fst (run w events))) /\
  Forall normalized (snd (run w events)).
Proof.
  induction events as [|ev events IH]; intros w Hs; cbn [InputHandler.run].
  - split; [exact Hs | constructor].
  - destruct (dispatch_normalized ev w Hs) as [H1 Hout1].
    destruct (dispatch ev w) as [w1 out1]. cbn [fst snd] in *.
    destruct (IH w1 H1) as [H2 Hout2].
    destruct (run w1 events) as [w2 out2]. cbn [fst snd] in *.
    split; [exact H2 | apply Forall_app; split; assumption].
Qed.

(** X19: every coordinate handed to a callback is normalized: for a canvas
    of positive width and height, whatever events arrive and in whatever
    order, the position of every scroll callback and both positions of
    every multi-touch callback lie in the unit square. *)
Theorem callbacks_are_normalized (events : list Event) :
  0 < rect_width rect -> 0 < rect_height rect ->
  Forall normalized (snd (run initial_world events)).
Proof.
  intros _ _. apply run_normalized.
  unfold positions_normalized, in_unit. cbn.
  repeat split; try discriminate. constructor.
Qed.

End WithCanvas.

Lemma callbacks_are_normalized_witness :
  Forall normalized
    (snd (run test_rect true true isqrt_stub initial_world
            [Wheel (wheel_at 50 0); AnimationFrame;
             TouchStart (touch_event [touch_at 0 (-20) 200; touch_at 1 900 700])])).
Proof.
  apply (callbacks_are_normalized test_rect true true isqrt_stub); reflexivity.
Defined.

Section Traces.
Variable rect : DOMRect.
Variable Math_sqrt : Q -> Q.

Lemma frame_callbacks_only_scroll handles : forall s,
  filter is_multi_touch (snd (run_frame_callbacks handles s)) = [] /\
  isPinching (fst (run_frame_callbacks handles s)) = isPinching s.
Proof.
  induction handles as [|h handles IH]; intros s; cbn [run_frame_callbacks].
  - split; reflexivity.
  - assert (H1 : filter is_multi_touch (snd (processScrollBuffer s)) = [] /\
                 isPinching (fst (processScrollBuffer s)) = isPinching s).
    { unfold processScrollBuffer. destruct (_ || _); split; reflexivity. }
    destruct (processScrollBuffer s) as [s1 out1]. cbn [fst snd] in H1.
    destruct H1 as [Ho1 Hp1]. destruct (IH s1) as [Ho2 Hp2].
    destruct (run_frame_callbacks handles s1) as [s2 out2]. cbn [fst snd] in *.
    rewrite filter_app, Ho1, Ho2, Hp2, Hp1. split; reflexivity.
Qed.

Lemma no_multi_touch_no_actions out :
  filter is_multi_touch out = [] -> multi_touch_actions out = [].
Proof.
  induction out as [|c out IH]; [reflexivity|].
  cbn [filter]. destruct c; cbn [is_multi_touch]; [|discriminate].
  intros H. unfold multi_touch_actions. cbn [flat_map action_of app]. exact (IH H).
Qed.

Lemma dispatch_without_scroll hasMultiTouch ev (w : World) :
  rafQueue w = [] ->
  filter is_scroll (snd (dispatch rect false hasMultiTouch Math_sqrt ev w)) = [] /\
  rafQueue (fst (dispatch rect false hasMultiTouch Math_sqrt ev w)) = [].
Proof.
  intros Hq.
  assert (Hlift : forall f,
            filter is_scroll (snd (f (handler w))) = [] ->
            filter is_scroll (snd (lift f w)) = [] /\ rafQueue (fst (lift f w)) = []).
  { intros f Hf. unfold lift. destruct (f (handler w)) as [s out].
    cbn [fst snd rafQueue] in *. split; assumption. }
  destruct ev as [event| |event|event|event]; cbn [dispatch].
  - unfold onWheelEvent. cbn [negb fst snd]. split; [reflexivity | exact Hq].
  - unfold animationFrame. rewrite Hq. cbn [run_frame_callbacks fst snd rafQueue].
    split; reflexivity.
  - apply Hlift. unfold onTouchStart.
    destruct (touches event) as [|t1 [|t2 [|t3 more]]]; cbn [fst snd]; try reflexivity.
    + destruct hasMultiTouch; reflexivity.
    + destruct (isPinching (handler w) && hasMultiTouch); [|reflexivity].
      unfold end_of_pinch.
      destruct (map_values (activeTouches (handler w))) as [|p0 [|p1 [|p2 ps]]]; reflexivity.
  - apply Hlift. unfold onTouchMove.
    destruct (touches event) as [|t1 [|t2 [|t3 more]]]; cbn [fst snd]; try reflexivity.
    destruct (isPinching (handler w) && hasMultiTouch); reflexivity.
  - apply Hlift. unfold onTouchEnd.
    destruct (isPinching (handler w) && hasMultiTouch); cbn [fst snd]; [|reflexivity].
    unfold end_of_pinch.
    destruct (map_values (activeTouches (handler w))) as [|p0 [|p1 [|p2 ps]]]; reflexivity.
Qed.

Lemma dispatch_without_multi_touch hasScroll ev (w : World) :
  filter is_multi_touch (snd (dispatch rect hasScroll false Math_sqrt ev w)) = [].
Proof.
  destruct ev as [event| |event|event|event]; cbn [dispatch].
  - unfold onWheelEvent. destruct hasScroll; cbn [negb]; [|reflexivity].
    destruct (scrollRafId (handler w)); reflexivity.
  - unfold animationFrame.
    pose proof (frame_callbacks_only_scroll (rafQueue w) (handler w)) as [H _].
    destruct (run_frame_callbacks (rafQueue w) (handler w)) as [s out]. exact H.
  - rewrite lift_snd. unfold onTouchStart.
    destruct (touches event) as [|t1 [|t2 [|t3 more]]]; cbn [fst snd]; try reflexivity.
    rewrite andb_false_r. reflexivity.
  - rewrite lift_snd. unfold onTouchMove.
    destruct (touches event) as [|t1 [|t2 [|t3 more]]]; cbn [fst snd]; try reflexivity.
    rewrite andb_false_r. reflexivity.
  - rewrite lift_snd. unfold onTouchEnd. rewrite andb_false_r. reflexivity.
Qed.

(** X21: a callback that was not given is never called.  Without a scroll
    callback no event sequence makes the handler call it, and no frame
    callback is ever scheduled, so the unguarded [this.onScroll!] of
    [processScrollBuffer] is never reached; without a multi-touch callback
    no event sequence produces a multi-touch call. *)
Theorem absent_callbacks_are_never_called (events : list Event) :
  (forall hasMultiTouch,
     filter is_scroll
       (snd (run rect false hasMultiTouch Math_sqrt initial_world events)) = [] /\
     rafQueue (fst (run rect false hasMultiTouch Math_sqrt initial_world events)) = []) /\
  (forall hasScroll,
     filter is_multi_touch
       (snd (run rect hasScroll false Math_sqrt initial_world events)) = []).
Proof.
  split.
  - intros hasMultiTouch.
    assert (H : forall w, rafQueue w = [] ->
              filter is_scroll (snd (run rect false hasMultiTouch Math_sqrt w events)) = [] /\
              rafQueue (fst (run rect false hasMultiTouch Math_sqrt w events)) = []).
    { induction events as [|ev more IH]; intros w Hq; cbn [run].
      - split; [reflexivity | exact Hq].
      - destruct (dispatch_without_scroll hasMultiTouch ev w Hq) as [Ho1 Hq1].
        destruct (dispatch rect false hasMultiTouch Math_sqrt ev w) as [w1 out1].
        cbn [fst snd] in *. destruct (IH w1 Hq1) as [Ho2 Hq2].
        destruct (run rect false hasMultiTouch Math_sqrt w1 more) as [w2 out2].
        cbn [fst snd] in *. rewrite filter_app, Ho1, Ho2. split; [reflexivity | exact Hq2]. }
    apply H. reflexivity.
  - intros hasScroll. generalize initial_world.
    induction events as [|ev more IH]; intros w; cbn [run]; [reflexivity|].
    pose proof (dispatch_without_multi_touch hasScroll ev w) as Ho1.
    destruct (dispatch rect hasScroll false Math_sqrt ev w) as [w1 out1].
    cbn [snd] in Ho1. specialize (IH w1).
    destruct (run rect hasScroll false Math_sqrt w1 more) as [w2 out2].
    cbn [snd] in *. rewrite filter_app, Ho1, IH. reflexivity.
Qed.

Lemma gesture_trace_app (a b : list TouchAction) : forall open,
  gesture_trace open (a ++ b)
  = match gesture_trace open a with
    | Some open' => gesture_trace open' b
    | None => None
    end.
Proof.
  induction a as [|[] a IH]; intros open; cbn [app gesture_trace];
    [reflexivity | apply IH | |]; destruct open; try reflexivity; apply IH.
Qed.

Lemma multi_touch_actions_app (a b : list Callback) :
  multi_touch_actions (a ++ b) = multi_touch_actions a ++ multi_touch_actions b.
Proof.
  unfold multi_touch_actions. apply flat_map_app.
Qed.

Lemma end_of_pinch_actions s :
  multi_touch_actions (end_of_pinch s) = [] \/ multi_touch_actions (end_of_pinch s) = [up].
Proof.
  unfold end_of_pinch.
  destruct (map_values (activeTouches s)) as [|p0 [|p1 [|p2 ps]]];
    [left | left | right | left]; reflexivity.
Qed.

Lemma dispatch_gesture_trace hasScroll hasMultiTouch ev (w : World) (open : bool) :
  (isPinching (handler w) = true -> open = true) ->
  exists open',
    gesture_trace open
      (multi_touch_actions (snd (dispatch rect hasScroll hasMultiTouch Math_sqrt ev w)))
    = Some open' /\
    (isPinching (handler (fst (dispatch rect hasScroll hasMultiTouch Math_sqrt ev w))) = true ->
     open' = true).
Proof.
  intros Hopen.
  assert (Hsame : forall (w' : World) out,
            multi_touch_actions out = [] ->
            isPinching (handler w') = isPinching (handler w) ->
            exists open', gesture_trace open (multi_touch_actions out) = Some open' /\
                          (isPinching (handler w') = true -> open' = true)).
  { intros w' out -> Hp. exists open. rewrite Hp. split; [reflexivity | exact Hopen]. }
  assert (Hend : forall s,
            isPinching (handler w) = true ->
            exists open', gesture_trace open (multi_touch_actions (end_of_pinch s)) = Some open' /\
                          (false = true -> open' = true)).
  { intros s Hp. rewrite (Hopen Hp).
    destruct (end_of_pinch_actions s) as [-> | ->]; eexists; (split; [reflexivity|]);
      discriminate. }
  destruct ev as [event| |event|event|event]; cbn [dispatch].
  - apply Hsame.
    + unfold onWheelEvent. destruct hasScroll; cbn [negb]; [|reflexivity].
      destruct (scrollRafId (handler w)); reflexivity.
    + unfold onWheelEvent. destruct hasScroll; cbn [negb]; [|reflexivity].
      destruct (scrollRafId (handler w)); reflexivity.
  - unfold animationFrame.
    pose proof (frame_callbacks_only_scroll (rafQueue w) (handler w)) as [Ho Hp].
    destruct (run_frame_callbacks (rafQueue w) (handler w)) as [s out].
    cbn [fst snd] in *. apply Hsame; [apply no_multi_touch_no_actions, Ho | exact Hp].
  - rewrite lift_fst, lift_snd. unfold onTouchStart.
    destruct (touches event) as [|t1 [|t2 [|t3 more]]]; cbn [fst snd].
    + exists open. split; [reflexivity | exact Hopen].
    + exists open. split; [reflexivity | discriminate].
    + destruct hasMultiTouch; cbn [fst snd].
      * exists true. split; reflexivity.
      * exists open. split; [reflexivity | exact Hopen].
    + cbn [isPinching with_touches].
      destruct (isPinching (handler w)) eqn:Hp; cbn [andb].
      * destruct hasMultiTouch; [apply Hend; reflexivity|].
        exists open. split; [reflexivity | discriminate].
      * exists open. split; [reflexivity | discriminate].
  - rewrite lift_fst, lift_snd. unfold onTouchMove.
    destruct (touches event) as [|t1 [|t2 [|t3 more]]]; cbn [fst snd];
      try (exists open; split; [reflexivity | exact Hopen]).
    destruct (isPinching (handler w)) eqn:Hp; cbn [andb].
    + destruct hasMultiTouch; cbn [fst snd isPinching with_touches].
      * exists true. rewrite (Hopen eq_refl). split; reflexivity.
      * exists open. rewrite Hp. split; [reflexivity | exact Hopen].
    + exists open. cbn [fst snd]. rewrite Hp. split; [reflexivity | discriminate].
  - rewrite lift_fst, lift_snd. unfold onTouchEnd.
    destruct (isPinching (handler w)) eqn:Hp; cbn [andb].
    + destruct hasMultiTouch; cbn [fst snd isPinching with_touches].
      * apply Hend. reflexivity.
      * exists open. rewrite Hp. split; [reflexivity | exact Hopen].
    + exists open. cbn [fst snd isPinching with_touches]. rewrite Hp.
      split; [reflexivity | discriminate].
Qed.

(** X22: the multi-touch callback never receives a ['move'] or an ['up']
    outside a gesture: whatever events arrive and in whatever order, every
    ['move'] and every ['up'] it is called with follows a ['down'] that no
    ['up'] has closed yet, and a gesture is open whenever the handler is
    still pinching at the end. *)
Theorem multi_touch_actions_stay_within_gestures
    (hasScroll hasMultiTouch : bool) (events : list Event) (w : World) :
  exists open',
    gesture_trace (isPinching (handler w))
      (multi_touch_actions (snd (run rect hasScroll hasMultiTouch Math_sqrt w events)))
    = Some open' /\
    (isPinching (handler (fst (run rect hasScroll hasMultiTouch Math_sqrt w events))) = true ->
     open' = true).
Proof.
  assert (H : forall open, (isPinching (handler w) = true -> open = true) ->
            exists open',
              gesture_trace open
                (multi_touch_actions (snd (run rect hasScroll hasMultiTouch Math_sqrt w events)))
              = Some open' /\
              (isPinching (handler (fst (run rect hasScroll hasMultiTouch Math_sqrt w events)))
               = true -> open' = true)).
  { revert w. induction events as [|ev more IH]; intros w open Hopen; cbn [run].
    - exists open. split; [reflexivity | exact Hopen].
    - destruct (dispatch_gesture_trace hasScroll hasMultiTouch ev w open Hopen)
        as (open1 & Ht1 & Hp1).
      destruct (dispatch rect hasScroll hasMultiTouch Math_sqrt ev w) as [w1 out1].
      cbn [fst snd] in *.
      destruct (IH w1 open1 Hp1) as (open2 & Ht2 & Hp2).
      destruct (run rect hasScroll hasMultiTouch Math_sqrt w1 more) as [w2 out2].
      cbn [fst snd] in *.
      exists open2. rewrite multi_touch_actions_app, gesture_trace_app, Ht1.
      split; assumption. }
  apply H. tauto.
Qed.

End Traces.

End InputTracesFacts.


(** ** InputHandler: the pointer listeners *)

Module PointerInputFacts.
Import PointerInput.
Local Open Scope Q_scope.

Section WithCanvas.
Variable rect : InputHandler.DOMRect.

Local Abbreviation dispatch := (dispatch rect).
Local Abbreviation run := (run rect).

Lemma strict_gesture_trace_app (a b : list InputHandler.TouchAction) : forall open,
  InputTraces.strict_gesture_trace open (a ++ b)
  = match InputTraces.strict_gesture_trace open a with
    | Some open' => InputTraces.strict_gesture_trace open' b
    | None => None
    end.
Proof.
  induction a as [|[] a IH]; intros open; cbn [app InputTraces.strict_gesture_trace];
    [reflexivity | | |]; destruct open; try reflexivity; apply IH.
Qed.

Lemma dispatch_pointer_trace ev (s : State) :
  InputTraces.strict_gesture_trace (isPointerDown s) (map action_of (snd (dispatch ev s)))
  = Some (isPointerDown (fst (dispatch ev s))).
Proof.
  destruct ev as [event|event now|type event|ms]; cbn [PointerInput.dispatch].
  - unfold onPointerDown. destruct (isPointerDown s) eqn:Hd; cbn; rewrite ?Hd; reflexivity.
  - unfold onPointerMove. destruct (isPointerDown s) eqn:Hd; cbn [negb orb].
    + destruct (differs _ _); [cbn; rewrite ?Hd; reflexivity|].
      destruct (Qltb _ _); cbn; rewrite ?Hd; reflexivity.
    + cbn. rewrite ?Hd. reflexivity.
  - unfold onPointerUp. destruct (isPointerDown s) eqn:Hd; cbn [negb orb].
    + destruct (_ && _); cbn; rewrite ?Hd; reflexivity.
    + cbn. rewrite ?Hd. reflexivity.
  - cbn. destruct (isPointerDown s); reflexivity.
Qed.

(** X23: the input callback receives well-formed gestures only: whatever
    pointer events arrive, from however many pointers and in whatever order,
    the actions forwarded alternate as ['down'], any number of ['move'], ['up'];
    no ['down'] comes while a pointer is tracked, no ['move'] or ['up'] while
    none is, and [isPointerDown] says at every point whether a gesture is
    open. *)
Theorem pointer_actions_form_gestures (events : list Event) (s : State) :
  InputTraces.strict_gesture_trace (isPointerDown s) (map action_of (snd (run s events)))
  = Some (isPointerDown (fst (run s events))).
Proof.
  revert s. induction events as [|ev more IH]; intros s; cbn [PointerInput.run];
    [reflexivity|].
  pose proof (dispatch_pointer_trace ev s) as H1.
  destruct (dispatch ev s) as [s1 out1]. cbn [fst snd] in H1.
  specialize (IH s1). destruct (run s1 more) as [s2 out2]. cbn [fst snd] in *.
  rewrite map_app, strict_gesture_trace_app, H1. exact IH.
Qed.



(** X25: only the first pointer is tracked: while pointer [p] is down, a
    ['pointerdown'] of any pointer and a ['pointermove'], ['pointerup'] or
    ['pointercancel'] of another pointer change nothing and forward nothing,
    however many of them arrive. *)
Theorem other_pointers_are_ignored (events : list Event) (s : State) (p : Z) :
  isPointerDown s = true -> pointerId s = Some p ->
  Forall (foreign p) events ->
  run s events = (s, []).
Proof.
  intros Hd Hp Hf. induction Hf as [|ev more Hev _ IH]; cbn [PointerInput.run];
    [reflexivity|].
  assert (H1 : dispatch ev s = (s, [])).
  { assert (Hdiff : forall event, event_pointerId event <> p ->
                      differs (event_pointerId event) (pointerId s) = true).
    { intros event Hne. rewrite Hp. cbn [differs]. apply negb_true_iff, Z.eqb_neq, Hne. }
    destruct ev as [event|event now|type event|ms]; cbn [PointerInput.dispatch foreign] in *.
    - unfold onPointerDown. rewrite Hd. reflexivity.
    - unfold onPointerMove. rewrite Hd, (Hdiff event Hev). reflexivity.
    - unfold onPointerUp. rewrite Hd.
      destruct type; [| |contradiction]; rewrite (Hdiff event Hev); reflexivity.
    - contradiction. }
  rewrite H1, IH. reflexivity.
Qed.

End WithCanvas.


Lemma other_pointers_are_ignored_witness :
  let s := fst (run InputHandler.test_rect initial_state [PointerDown (pointer_at 1 100 100)]) in
  run InputHandler.test_rect s
    [PointerDown (pointer_at 2 5 5); PointerMove (pointer_at 2 50 50) 100;
     PointerUp pointercancel (pointer_at 2 50 50)]
  = (s, []).
Proof.
  apply (other_pointers_are_ignored InputHandler.test_rect
           [PointerDown (pointer_at 2 5 5); PointerMove (pointer_at 2 50 50) 100;
            PointerUp pointercancel (pointer_at 2 50 50)]
           (fst (run InputHandler.test_rect initial_state [PointerDown (pointer_at 1 100 100)]))
           1%Z).
  - reflexivity.
  - reflexivity.
  - repeat constructor; cbn; discriminate.
Defined.

Example forwarded_moves_of_a_drag :
  forwarded_move_times InputHandler.test_rect initial_state
    [PointerDown (pointer_at 1 100 100);
     PointerMove (pointer_at 1 110 100) 20;
     PointerMove (pointer_at 1 120 100) 30;
     PointerMove (pointer_at 1 130 100) 36]
  = [20; 36].
Proof. reflexivity. Qed.

End PointerInputFacts.


(** ** AppStateManager: notifications and device bookkeeping *)

Module AppStateManagerFacts.
Import AppStateManager.
Local Open Scope string_scope.
Local Open Scope list_scope.

Lemma map_get_delete_same {V} (k : string) (m : list (string * V)) :
  map_get k (map_delete k m) = None.
Proof.
  unfold map_delete. induction m as [|[k' v] m IH]; cbn [filter map_get fst]; [reflexivity|].
  destruct (String.eqb k' k) eqn:E; cbn [negb]; [exact IH|].
  cbn [map_get]. rewrite E. exact IH.
Qed.

Lemma map_get_delete_other {V} (k k0 : string) (m : list (string * V)) :
  k0 <> k -> map_get k0 (map_delete k m) = map_get k0 m.
Proof.
  intros Hne. unfold map_delete.
  induction m as [|[k' v] m IH]; cbn [filter map_get fst]; [reflexivity|].
  destruct (String.eqb k' k) eqn:E; cbn [negb].
  - apply String.eqb_eq in E. subst k'.
    destruct (String.eqb k k0) eqn:E0; [|exact IH].
    apply String.eqb_eq in E0. congruence.
  - cbn [map_get]. rewrite IH. reflexivity.
Qed.

Section WithJson.
Variable Json : Type.
Variable spread : Json -> Json -> Json.
Variable initial_settings : Json.
Variable initial_toolStatus : Json.

Local Abbreviation up_to_date := (up_to_date initial_settings initial_toolStatus).
Local Abbreviation last_seen := (last_seen initial_settings initial_toolStatus).
Local Abbreviation new_manager := (new_manager initial_settings initial_toolStatus).

(** A mutation followed by [notifyListeners]. *)
Lemma notify_up_to_date (m : Manager Json) (s : AppState Json) :
  up_to_date m -> up_to_date (notifyListeners (with_state Json m s)).
Proof.
  unfold AppStateManager.up_to_date, notifyListeners, with_state.
  cbn [notifyScheduled microtasks].
  destruct (notifyScheduled m); cbn [notifyScheduled microtasks].
  - exact (fun H => H).
  - intros [H _]. rewrite H. reflexivity.
Qed.

Lemma step_up_to_date (st : Step Json) (m : Manager Json) :
  up_to_date m -> up_to_date (step spread st m).
Proof.
  intros H. destruct st; cbn [step].
  - apply notify_up_to_date, H.
  - unfold removeDevice. destruct (map_get _ _); [apply notify_up_to_date, H | exact H].
  - unfold updateDevice. destruct (map_get _ _); [apply notify_up_to_date, H | exact H].
  - unfold setActiveDevice. destruct (same_id _ _); [exact H | apply notify_up_to_date, H].
  - apply notify_up_to_date, H.
  - apply notify_up_to_date, H.
  - apply notify_up_to_date, H.
  - unfold clearStatusMessage.
    destruct (statusMessage (state m)); [apply notify_up_to_date, H | exact H].
  - apply notify_up_to_date, H.
  - unfold removeDeviceInfo. destruct (map_has _ _); [apply notify_up_to_date, H | exact H].
  - unfold clearDeviceInfo.
    destruct (deviceInfo (state m)); [exact H | apply notify_up_to_date, H].
  - unfold setMonitoring. destruct (negb _); [|exact H].
    unfold AppStateManager.up_to_date, with_state in *.
    cbn [notifyScheduled microtasks state] in *. exact H.
  - unfold clearAllDevices. destruct (_ || _); [apply notify_up_to_date, H | exact H].
  - apply notify_up_to_date, H.
  - unfold AppStateManager.up_to_date, drain in *.
    destruct (notifyScheduled m) eqn:Hn.
    + rewrite H. cbn [Nat.iter nat_rect run_microtask notifyScheduled microtasks].
      split; [rewrite H; reflexivity|].
      unfold AppStateManager.last_seen. cbn [delivered state]. apply last_last.
    + destruct H as [H0 Hseen]. rewrite H0. cbn [Nat.iter nat_rect]. rewrite Hn.
      split; assumption.
Qed.

Lemma run_up_to_date (steps : list (Step Json)) : forall m : Manager Json,
  up_to_date m -> up_to_date (run spread steps m).
Proof.
  unfold run. induction steps as [|st steps IH]; intros m H; cbn [fold_left];
    [exact H | apply IH, step_up_to_date, H].
Qed.

(** X26: notifications are batched and none is lost.  After any sequence of
    calls and job ends on a new manager: at most one microtask is queued, and
    one is queued exactly when [notifyScheduled] is set; whenever none is
    queued, the last snapshot the listeners were given is the snapshot of
    the current state (the calls that skip the notification change nothing
    a snapshot shows); and the end of the job delivers the current snapshot
    once if a notification is pending and nothing otherwise, leaving the
    state as it is. *)
Theorem listeners_stay_up_to_date (steps : list (Step Json)) :
  let m := run spread steps new_manager in
  let m' := drain m in
  up_to_date m /\
  (microtasks m <= 1)%nat /\
  state m' = state m /\
  notifyScheduled m' = false /\ microtasks m' = 0%nat /\
  last_seen m' = getSnapshot (state m) /\
  delivered m' = (if notifyScheduled m
                  then delivered m ++ [getSnapshot (state m)]
                  else delivered m).
Proof.
  cbv zeta.
  assert (H : up_to_date (run spread steps new_manager)).
  { apply run_up_to_date. split; reflexivity. }
  set (m := run spread steps new_manager) in *.
  pose proof (step_up_to_date (EndOfJob Json) m H) as Hd. cbn [step] in Hd.
  split; [exact H|].
  unfold AppStateManager.up_to_date, drain in *.
  destruct (notifyScheduled m) eqn:Hn.
  - rewrite H in *.
    cbn [Nat.iter nat_rect run_microtask notifyScheduled microtasks state delivered] in *.
    destruct Hd as [Hd0 Hseen]. repeat split; auto.
  - destruct H as [H0 Hseen]. rewrite H0 in *. cbn [Nat.iter nat_rect] in *.
    rewrite Hn in Hd. repeat split; auto.
Qed.

Lemma mark_active_spec (target : option string) (e : string * DeviceState Json) :
  fst (mark_active Json target e) = fst e /\
  deviceId (snd (mark_active Json target e)) = deviceId (snd e) /\
  serial (snd (mark_active Json target e)) = serial (snd e) /\
  other (snd (mark_active Json target e)) = other (snd e) /\
  isActive (snd (mark_active Json target e)) = is_id (fst e) target.
Proof.
  destruct e as [id device]. unfold mark_active. cbn [fst snd].
  destruct (Bool.eqb (isActive device) (is_id id target)) eqn:E; cbn [negb fst snd].
  - apply Bool.eqb_prop in E. repeat split; auto.
  - repeat split; reflexivity.
Qed.

Lemma at_most_one_key (target : option string) (l : list (string * DeviceState Json)) :
  NoDup (map fst l) ->
  (List.length (filter (fun e => is_id (fst e) target) l) <= 1)%nat.
Proof.
  destruct target as [d|]; cbn [is_id].
  - induction l as [|[k v] l IH]; cbn [map filter fst]; [intros _; cbn; lia|].
    intros Hnd. inversion Hnd as [|? ? Hnotin Hnd']. subst.
    destruct (String.eqb k d) eqn:E; [|apply IH, Hnd'].
    apply String.eqb_eq in E. subst k.
    assert (Hnone : filter (fun e : string * DeviceState Json => String.eqb (fst e) d) l = []).
    { clear IH Hnd Hnd'. induction l as [|[k v'] l IH]; cbn [filter fst]; [reflexivity|].
      cbn [map fst] in Hnotin.
      destruct (String.eqb k d) eqn:E.
      - apply String.eqb_eq in E. subst k. exfalso. apply Hnotin. left. reflexivity.
      - apply IH. intros Hin. apply Hnotin. right. exact Hin. }
    rewrite Hnone. cbn. lia.
  - intros _. induction l as [|e l IH]; cbn [filter]; [cbn; lia | exact IH].
Qed.

(** X27: [setActiveDevice] makes the flags agree with the new active id.
    When the id differs from the current one, afterwards [activeDeviceId] is
    the new id, the devices are the same ones under the same keys and in the
    same order with only [isActive] changed, a device is active exactly when
    its key is the new id, and, the keys of a map being distinct, at most one
    device is active; a notification is pending. *)
Theorem setActiveDevice_marks_the_active_device (m : Manager Json) (id : option string) :
  same_id (activeDeviceId (state m)) id = false ->
  NoDup (map fst (devices (state m))) ->
  let m' := setActiveDevice id m in
  activeDeviceId (state m') = id /\
  Forall2 (fun e e' => fst e' = fst e /\
                       deviceId (snd e') = deviceId (snd e) /\
                       serial (snd e') = serial (snd e) /\
                       other (snd e') = other (snd e) /\
                       isActive (snd e') = is_id (fst e) id)
          (devices (state m)) (devices (state m')) /\
  (List.length (filter (fun e => isActive (snd e)) (devices (state m'))) <= 1)%nat /\
  notifyScheduled m' = true.
Proof.
  intros Hdiff Hnd. cbv zeta. unfold setActiveDevice. rewrite Hdiff.
  assert (Hall : Forall2 (fun e e' => fst e' = fst e /\
                                      deviceId (snd e') = deviceId (snd e) /\
                                      serial (snd e') = serial (snd e) /\
                                      other (snd e') = other (snd e) /\
                                      isActive (snd e') = is_id (fst e) id)
                         (devices (state m))
                         (map (mark_active Json id) (devices (state m)))).
  { clear Hnd. induction (devices (state m)) as [|e l IH]; cbn [map]; constructor;
      [apply mark_active_spec | exact IH]. }
  assert (Hfilter : forall l : list (string * DeviceState Json),
            List.length (filter (fun e => isActive (snd e)) (map (mark_active Json id) l))
            = List.length (filter (fun e => is_id (fst e) id) l)).
  { induction l as [|e l IH]; [reflexivity|]. cbn [map filter].
    destruct (mark_active_spec id e) as (_ & _ & _ & _ & Ha). rewrite Ha.
    destruct (is_id (fst e) id); cbn [List.length]; rewrite IH; reflexivity. }
  pose proof (at_most_one_key id _ Hnd) as Hone. rewrite <- Hfilter in Hone.
  unfold notifyListeners, with_state. cbn [notifyScheduled].
  destruct (notifyScheduled m) eqn:Hn;
    cbn [state devices activeDeviceId notifyScheduled];
    (split; [reflexivity|]); (split; [exact Hall|]); (split; [exact Hone|]);
    reflexivity.
Qed.

(** X28: [removeDevice] forgets the device and what was cached for it.  When
    the id is that of a stored device: afterwards the id is no longer found
    while every other device is found as before; the detailed info cached
    under the device's serial is gone while that of every other serial is
    kept; the active id is cleared if it was this id and kept otherwise; and
    a notification is pending. *)
Theorem removeDevice_forgets_the_device
    (m : Manager Json) (id : string) (device : DeviceState Json) :
  map_get id (devices (state m)) = Some device ->
  let m' := removeDevice id m in
  map_get id (devices (state m')) = None /\
  (forall k, k <> id -> map_get k (devices (state m')) = map_get k (devices (state m))) /\
  map_get (serial device) (deviceInfo (state m')) = None /\
  (forall k, k <> serial device ->
             map_get k (deviceInfo (state m')) = map_get k (deviceInfo (state m))) /\
  activeDeviceId (state m') <> Some id /\
  (activeDeviceId (state m) <> Some id ->
   activeDeviceId (state m') = activeDeviceId (state m)) /\
  notifyScheduled m' = true.
Proof.
  intros Hget. cbv zeta. unfold removeDevice. rewrite Hget.
  unfold notifyListeners, with_state. cbn [notifyScheduled].
  destruct (notifyScheduled m) eqn:Hn; cbn [state devices deviceInfo activeDeviceId
                                             notifyScheduled];
    (split; [apply map_get_delete_same|]);
    (split; [intros k Hk; apply map_get_delete_other; exact Hk|]);
    (split; [apply map_get_delete_same|]);
    (split; [intros k Hk; apply map_get_delete_other; exact Hk|]);
    (split; [|split; [|try exact Hn; reflexivity]]);
    destruct (activeDeviceId (state m)) as [a|]; try discriminate; try reflexivity;
    destruct (String.eqb a id) eqn:E; try discriminate; try reflexivity;
    try (apply String.eqb_neq in E; congruence);
    try (apply String.eqb_eq in E; subst a; intros H; exfalso; apply H; reflexivity).
Qed.

End WithJson.

Lemma setActiveDevice_marks_the_active_device_witness :
  let m := run (fun _ b : unit => b)
             [AddDevice unit {| deviceId := "a"; serial := "s1"; isActive := true; other := tt |};
              AddDevice unit {| deviceId := "b"; serial := "s2"; isActive := false; other := tt |}]
             (new_manager tt tt) in
  let m' := setActiveDevice (Some "b") m in
  activeDeviceId (state m') = Some "b" /\
  Forall2 (fun e e' => fst e' = fst e /\
                       deviceId (snd e') = deviceId (snd e) /\
                       serial (snd e') = serial (snd e) /\
                       other (snd e') = other (snd e) /\
                       isActive (snd e') = is_id (fst e) (Some "b"))
          (devices (state m)) (devices (state m')) /\
  (List.length (filter (fun e => isActive (snd e)) (devices (state m'))) <= 1)%nat /\
  notifyScheduled m' = true.
Proof.
  apply (setActiveDevice_marks_the_active_device unit
           (run (fun _ b : unit => b)
              [AddDevice unit {| deviceId := "a"; serial := "s1"; isActive := true;
                                 other := tt |};
               AddDevice unit {| deviceId := "b"; serial := "s2"; isActive := false;
                                 other := tt |}]
              (new_manager tt tt))
           (Some "b")).
  - reflexivity.
  - cbn. repeat constructor; cbn; intuition discriminate.
Defined.

Lemma removeDevice_forgets_the_device_witness :
  let device := {| deviceId := "a"; serial := "s1"; isActive := true; other := tt |} in
  let m := run (fun _ b : unit => b)
             [AddDevice unit device; SetDeviceInfo unit "s1" tt;
              SetActiveDevice unit (Some "a"); EndOfJob unit]
             (new_manager tt tt) in
  let m' := removeDevice "a" m in
  map_get "a" (devices (state m')) = None /\
  (forall k, k <> "a" -> map_get k (devices (state m')) = map_get k (devices (state m))) /\
  map_get (serial device) (deviceInfo (state m')) = None /\
  (forall k, k <> serial device ->
             map_get k (deviceInfo (state m')) = map_get k (deviceInfo (state m))) /\
  activeDeviceId (state m') <> Some "a" /\
  (activeDeviceId (state m) <> Some "a" ->
   activeDeviceId (state m') = activeDeviceId (state m)) /\
  notifyScheduled m' = true.
Proof.
  apply (removeDevice_forgets_the_device unit
           (run (fun _ b : unit => b)
              [AddDevice unit {| deviceId := "a"; serial := "s1"; isActive := true;
                                 other := tt |};
               SetDeviceInfo unit "s1" tt;
               SetActiveDevice unit (Some "a"); EndOfJob unit]
              (new_manager tt tt))
           "a" {| deviceId := "a"; serial := "s1"; isActive := true; other := tt |}).
  reflexivity.
Defined.

Example two_mutations_one_notification :
  delivered
    (run (fun _ b : unit => b)
       [AddDevice unit {| deviceId := "a"; serial := "s1"; isActive := false; other := tt |};
        SetActiveDevice unit (Some "a"); RemoveDevice unit "zz"; EndOfJob unit;
        SetMonitoring unit true; EndOfJob unit]
       (new_manager tt tt))
  = [ {| snapshot_devices :=
           [{| deviceId := "a"; serial := "s1"; isActive := true; other := tt |}];
         snapshot_activeDeviceId := Some "a";
         snapshot_settings := tt; snapshot_toolStatus := tt;
         snapshot_statusMessage := None; snapshot_deviceInfo := [] |} ].
Proof. reflexivity. Qed.

End AppStateManagerFacts.


(** ** iOSConnection: disconnecting in the middle of a frame *)

Module IOSDisconnectFacts.
Import IOSConnection IOSMessages IOSConnectionFacts IOSMessagesFacts.
Local Open Scope list_scope.

Section WithDecoders.
Variable toString_utf8 : Buffer -> string.
Variable JSON_parse : string -> option InfoJson.

(** X29: [disconnect] throws away a frame that was only partly received:
    whatever bytes were waiting in the buffer, after [disconnect] a stream of
    valid frames, cut into chunks in any way, is handled as by a connection
    with an empty buffer, message by message, and the buffer ends empty; the
    device fields are kept. *)
Theorem disconnect_discards_partial_frame
    (c : Connection) (frames : list (byte * Buffer)) (chunks : list Buffer) :
  Forall valid_frame frames ->
  List.concat chunks = stream frames ->
  messageBuffer (disconnect c) = empty_buffer /\
  device (disconnect c) = device c /\
  onChunks toString_utf8 JSON_parse chunks (disconnect c)
  = ({| messageBuffer := empty_buffer;
        device := fst (processMessages toString_utf8 JSON_parse (delivered frames) (device c)) |},
     snd (processMessages toString_utf8 JSON_parse (delivered frames) (device c))).
Proof.
  intros Hvalid Hcat. split; [reflexivity|]. split; [reflexivity|].
  apply (onChunks_stream toString_utf8 JSON_parse frames chunks (disconnect c) Hvalid);
    [reflexivity | exact Hcat].
Qed.

End WithDecoders.

Lemma disconnect_discards_partial_frame_witness :
  let c := {| messageBuffer := [x04; x00; x00; x00; x20; x01];
              device := {| _deviceWidth := 1170; _deviceHeight := 2532;
                           _deviceInfo := None |} |} in
  messageBuffer (disconnect c) = empty_buffer /\
  device (disconnect c) = device c /\
  onChunks (fun _ => "ready"%string) (fun _ => None)
    [[x06; x00; x00]; [x00; x02; x68; x69]] (disconnect c)
  = ({| messageBuffer := empty_buffer;
        device := fst (processMessages (fun _ => "ready"%string) (fun _ => None)
                         (delivered [(x06, [x68; x69])]) (device c)) |},
     snd (processMessages (fun _ => "ready"%string) (fun _ => None)
            (delivered [(x06, [x68; x69])]) (device c))).
Proof.
  apply (disconnect_discards_partial_frame (fun _ => "ready"%string) (fun _ => None)
           {| messageBuffer := [x04; x00; x00; x00; x20; x01];
              device := {| _deviceWidth := 1170; _deviceHeight := 2532;
                           _deviceInfo := None |} |}
           [(x06, [x68; x69])] [[x06; x00; x00]; [x00; x02; x68; x69]]).
  - repeat constructor.
  - vm_compute. reflexivity.
Defined.

End IOSDisconnectFacts.

(** ** CodecUtils: scanning a buffer that grows *)

Module CodecUtilsPrefixFacts.
Import CodecUtils AnnexB CodecUtilsFacts.
Local Open Scope list_scope.

Lemma for_range_ext {A} (f g : nat -> option A) n : forall i,
  (forall j, i <= j < i + n -> f j = g j) -> for_range f i n = for_range g i n.
Proof.
  induction n as [|n IH]; intros i H; cbn [for_range]; [reflexivity|].
  rewrite <- (H i) by lia. destruct (f i); [reflexivity|]. apply IH.
  intros j Hj. apply H. lia.
Qed.

Lemma for_range_longer {A} (f : nat -> option A) n n' : forall i r,
  n <= n' -> for_range f i n = Some r -> for_range f i n' = Some r.
Proof.
  revert n'. induction n as [|n IH]; intros n' i r Hle; cbn [for_range]; [discriminate|].
  destruct n' as [|n']; [lia|]. cbn [for_range].
  destruct (f i); [exact (fun H => H)|]. apply IH. lia.
Qed.

Lemma for_range_map {A B} (g : A -> B) (f : nat -> option A) n : forall i,
  for_range (fun j => option_map g (f j)) i n = option_map g (for_range f i n).
Proof.
  induction n as [|n IH]; intros i; cbn [for_range]; [reflexivity|].
  destruct (f i); cbn [option_map]; [reflexivity | apply IH].
Qed.

Lemma at_app (d more : Uint8Array) k :
  k < List.length d -> at_ (d ++ more) k = at_ d k.
Proof.
  intros H. unfold at_. apply nth_error_app1. exact H.
Qed.

Lemma start_code_offset_app (d more : Uint8Array) j :
  j + 4 < List.length d -> start_code_offset (d ++ more) j = start_code_offset d j.
Proof.
  intros H. unfold start_code_offset. rewrite !at_app by lia. reflexivity.
Qed.

Lemma start_code_offset_bound d j : start_code_offset d j <= 4.
Proof.
  unfold start_code_offset. destruct (_ && _); [lia|]. destruct (_ && _); lia.
Qed.

Lemma findH264SPS_body_app (d more : Uint8Array) j :
  j + 4 < List.length d ->
  findH264SPS_body (d ++ more) j
  = option_map (fun s => s ++ more) (findH264SPS_body d j).
Proof.
  intros H. unfold findH264SPS_body. rewrite (start_code_offset_app d more j H).
  pose proof (start_code_offset_bound d j) as Hb.
  destruct (0 <? start_code_offset d j); [|reflexivity].
  rewrite at_app by lia. destruct (_ =? _)%Z; [|reflexivity].
  cbn [option_map]. unfold subarray_from. rewrite skipn_app.
  replace (j + start_code_offset d j - List.length d) with 0 by lia. reflexivity.
Qed.

Lemma in_window_app (d more : Uint8Array) (p : byte -> Prop) :
  contains_nal_in_window d p -> contains_nal_in_window (d ++ more) p.
Proof.
  intros (i & b & Hi & Hn & Hp). exists i, b.
  assert (Hnth : forall k c, nth_error d k = Some c -> nth_error (d ++ more) k = Some c).
  { intros k c Hk. rewrite nth_error_app1; [exact Hk|].
    apply nth_error_Some. congruence. }
  split; [rewrite length_app; lia|]. split; [|exact Hp].
  destruct Hn as [[(H0 & H1 & H2) Hb]|[(H0 & H1 & H2 & H3) Hb]]; [left | right];
    repeat split; apply Hnth; assumption.
Qed.

(** X30: nothing found is lost when more bytes arrive.  If [findH264SPS]
    finds an SPS in a buffer, it finds the same one, followed by the new
    bytes, in every extension of the buffer; a buffer detected as H.264 stays
    detected as H.264; and a buffer that holds a key frame still holds one. *)
Theorem findings_survive_appending (data more : Uint8Array) :
  (forall spsData, findH264SPS data = Some spsData ->
                   findH264SPS (data ++ more) = Some (spsData ++ more)) /\
  (detectCodec data = Some h264 -> detectCodec (data ++ more) = Some h264) /\
  (forall codec, containsKeyFrame data codec = true ->
                 containsKeyFrame (data ++ more) codec = true).
Proof.
  assert (Hfind : forall spsData, findH264SPS data = Some spsData ->
                    findH264SPS (data ++ more) = Some (spsData ++ more)).
  { intros spsData H. unfold findH264SPS in *.
    apply (for_range_longer _ (List.length data - 4)); [rewrite length_app; lia|].
    rewrite (for_range_ext _ (fun j => option_map (fun s => s ++ more)
                                         (findH264SPS_body data j))).
    - rewrite (for_range_map (fun s => s ++ more) (findH264SPS_body data)).
      exact (f_equal (option_map (fun s => s ++ more)) H).
    - intros j Hj. apply findH264SPS_body_app. lia. }
  split; [exact Hfind|]. split.
  - unfold detectCodec. destruct (findH264SPS data) as [s|] eqn:Hs.
    + intros _. rewrite (Hfind s eq_refl). reflexivity.
    + destruct (findH265ConfigNAL data); discriminate.
  - intros [| |]; cbn [containsKeyFrame]; [| |discriminate].
    + rewrite !containsH264IDR_found. apply in_window_app.
    + rewrite !containsH265IDR_found. apply in_window_app.
Qed.

End CodecUtilsPrefixFacts.
